(** * Raw-transaction RPC layer of zend_oo: signature combination and
      transaction-inclusion proofs

    A shallow embedding of the algorithmic parts of
    [src/rpc/rawtransaction.cpp]:

    - [CertToJSON]'s backward-transfer decoding (lines 204-220);
    - the per-input loops of [signrawtransaction] (lines 1423-1461) and
      [signrawcertificate] (lines 1182-1219) with [TxInErrorToJSON];
    - [gettxoutproof] (lines 477-534) and [verifytxoutproof] (lines 549-567).

    What these functions call outside the file (signer, combiner, script
    verifier, hashing and hex helpers, the merkle-block class) enters as
    type classes, and the chain state as a record: every theorem holds for
    all of them.  The merkle-block class is in addition given a concrete
    model, which the round-trip statement is about. *)

From Stdlib Require Import ZArith NArith List Bool Lia Strings.Byte Ascii.
From stdpp Require Import base option list gmap strings pretty.

(** ** Basic data *)

(** [uint256]: a 256-bit identifier, kept as a natural number. *)
Abbreviation uint256 := N (only parsing).

Definition CScript := list byte.

(** ** HexStr *)

Definition hexdigit (n : N) : ascii :=
  match n with
  | 0%N => "0" | 1%N => "1" | 2%N => "2" | 3%N => "3"
  | 4%N => "4" | 5%N => "5" | 6%N => "6" | 7%N => "7"
  | 8%N => "8" | 9%N => "9" | 10%N => "a" | 11%N => "b"
  | 12%N => "c" | 13%N => "d" | 14%N => "e" | _ => "f"
  end%char.

(** [HexStr(begin, end)]: two lower-case hex digits per byte, high nibble
    first. *)
Fixpoint HexStr (bs : list byte) : string :=
  match bs with
  | [] => String.EmptyString
  | b :: rest =>
      String (hexdigit (N.div (Byte.to_N b) 16))
        (String (hexdigit (N.modulo (Byte.to_N b) 16)) (HexStr rest))
  end.

(** ** Outcome of an RPC call *)

(** Error codes of rpc/protocol.h used by the modelled calls. *)
Inductive RPCErrorCode :=
| RPC_INVALID_PARAMETER
| RPC_INVALID_ADDRESS_OR_KEY
| RPC_INTERNAL_ERROR
| RPC_DESERIALIZATION_ERROR.

(** A call returns a value, throws [JSONRPCError(code, message)], or runs
    into undefined behaviour (an unchecked out-of-range access). *)
Inductive outcome (A : Type) :=
| Returned (a : A)
| Thrown (code : RPCErrorCode) (message : string)
| Undefined.
Arguments Returned {A} a.
Arguments Thrown {A} code message.
Arguments Undefined {A}.

(** ** CertToJSON: backward-transfer public-key hash (lines 204-220) *)

(** [OP_HASH160] is an opcode of script/script.h. *)
Class ScriptOpcodes := { OP_HASH160 : byte }.

(** [sizeof(uint160)] *)
Definition sizeof_uint160 : nat := 20.

(** [std::find(begin, end, OP_HASH160)]: offset of the first occurrence,
    [None] standing for the end iterator. *)
Fixpoint std_find `{ScriptOpcodes} (s : CScript) : option nat :=
  match s with
  | [] => None
  | b :: rest =>
      if Byte.eqb b OP_HASH160 then Some 0
      else S <$> std_find rest
  end.

(** The [pkhStr] computed for an output [i] with [cert.IsBackwardTransfer(i)].
    [Undefined] is the case where the iterator range [it, it + 20) of line
    211 leaves the script's buffer: the source builds [pkh] from it without
    a bounds check. *)
Definition pkhStr `{ScriptOpcodes} (scriptPubKey : CScript) : outcome string :=
  match std_find scriptPubKey with
  | Some pos =>
      let it := pos + 2 in
      if decide (it + sizeof_uint160 ≤ length scriptPubKey) then
        let pkh := take sizeof_uint160 (drop it scriptPubKey) in
        Returned (HexStr (rev pkh))
      else Undefined
  | None => Returned "<<Decode error>>"
  end.

(** ** Transactions and certificates *)

Module COutPoint.
Record t := { hash : uint256; n : N }.
End COutPoint.

Record CTxIn := {
  prevout : COutPoint.t;
  scriptSig : CScript;
  nSequence : N
}.

Record CTxOut := {
  nValue : Z;
  scriptPubKey : CScript
}.

(** Lines 204-220 for one output [txout] of a certificate: nothing is
    added unless [cert.IsBackwardTransfer(i)]; otherwise the pairs
    ("backward transfer", true) and ("pubkeyhash", pkhStr). *)
Definition backward_transfer_pairs `{ScriptOpcodes} (isBackwardTransfer : bool)
    (txout : CTxOut) : outcome (option (bool * string)) :=
  if isBackwardTransfer then
    match pkhStr (scriptPubKey txout) with
    | Returned str => Returned (Some (true, str))
    | Thrown c m => Thrown c m
    | Undefined => Undefined
    end
  else Returned None.

(** [CMutableTransactionBase]: what [CMutableTransaction] and
    [CMutableScCertificate] share; [payload] holds the fields of the
    derived class. *)
Record CMutableTransactionBase (P : Type) := {
  nVersion : Z;
  vin : list CTxIn;
  vout : list CTxOut;
  payload : P
}.
Arguments nVersion {P} _.
Arguments vin {P} _.
Arguments vout {P} _.
Arguments payload {P} _.

Record TxPayload := {
  nLockTime : N;
  vjoinsplit : list (list byte)
}.

Record CertPayload := {
  scId : uint256;
  epochNumber : Z;
  quality : Z;
  endEpochBlockHash : uint256;
  scProof : list byte
}.

Definition CMutableTransaction := CMutableTransactionBase TxPayload.
Definition CMutableScCertificate := CMutableTransactionBase CertPayload.

(** ** The coins view *)

(** [CCoins]: the [vout] vector of the unspent outputs of one transaction;
    a spent output is a null [CTxOut]. *)
Definition CCoins := list CTxOut.

(** [CTxOut::IsNull] (primitives/transaction.h): [nValue == -1]. *)
Definition IsNull (o : CTxOut) : bool := (nValue o =? -1)%Z.

(** Modelled from the spec: [CCoins::IsAvailable] is declared in coins.h,
    which is not part of the sources at hand.  A referenced output is not
    available when it is already spent, never existed, or its index is out
    of range. *)
Definition IsAvailable (coins : CCoins) (nPos : N) : bool :=
  match coins !! N.to_nat nPos with
  | Some o => negb (IsNull o)
  | None => false
  end.

(** [view.AccessCoins(txid)] of the cache after the prefetch and after the
    [prevtxs] argument has been added: a finite map, [None] for [NULL]. *)
Definition AccessCoins (view : gmap uint256 CCoins) (txid : uint256)
  : option CCoins := view !! txid.

(** ** Keys, script errors, and the script collaborators *)

Record CKeyStore := {
  mapKeys : list (list byte);
  mapScripts : list CScript
}.

(** [ScriptError]: the enumeration of script/script_error.h, by value. *)
Definition ScriptError := nat.
Definition SCRIPT_ERR_OK : ScriptError := 0.

(** The functions of script/sign.h, script/interpreter.h and
    script/script_error.h that the signing loops call, at an entity type
    with payload [P].  [SignSignature] returns its success flag and the
    [scriptSig] it leaves in input [nIn]; [VerifyScript] returns its result
    and the [ScriptError] it stores; both take the entity as the
    signature-hash context. *)
Class ScriptCollab (P : Type) := {
  SIGHASH_ALL : Z;
  SIGHASH_NONE : Z;
  SIGHASH_SINGLE : Z;
  SIGHASH_ANYONECANPAY : Z;
  SignSignature :
    CKeyStore → CScript → CMutableTransactionBase P → nat → Z → bool * CScript;
  CombineSignatures :
    CScript → CMutableTransactionBase P → nat → CScript → CScript → CScript;
  VerifyScript :
    CScript → CScript → CMutableTransactionBase P → nat → bool * ScriptError;
  ScriptErrorString : ScriptError → string
}.

(** ** TxInErrorToJSON (lines 1056-1065) *)

(** One entry of [vErrors]; [err_txid] is rendered by [ToString()] and
    [err_scriptSig] is the [HexStr] of the input's current script. *)
Record TxInError := {
  err_txid : uint256;
  err_vout : N;
  err_scriptSig : string;
  err_sequence : N;
  err_error : string
}.

Definition TxInErrorToJSON (txin : CTxIn) (vErrorsRet : list TxInError)
    (strMessage : string) : list TxInError :=
  vErrorsRet ++
  [ {| err_txid := COutPoint.hash (prevout txin);
       err_vout := COutPoint.n (prevout txin);
       err_scriptSig := HexStr (scriptSig txin);
       err_sequence := nSequence txin;
       err_error := strMessage |} ].

(** ** The signing loops *)

(** What a loop has produced so far: the entity being merged, the error
    entries, and (a ghost component) the indices at which [SignSignature]
    has been called, in call order. *)
Record SignState (P : Type) := {
  merged : CMutableTransactionBase P;
  vErrors : list TxInError;
  signCalls : list nat
}.
Arguments merged {P} _.
Arguments vErrors {P} _.
Arguments signCalls {P} _.

(** Assignment to [tx.vin[i].scriptSig]. *)
Definition set_scriptSig {P} (i : nat) (s : CScript)
    (tx : CMutableTransactionBase P) : CMutableTransactionBase P :=
  {| nVersion := nVersion tx;
     vin := alter (λ txin, {| prevout := prevout txin;
                              scriptSig := s;
                              nSequence := nSequence txin |}) i (vin tx);
     vout := vout tx;
     payload := payload tx |}.

(** The [scriptSig] currently held by [tx.vin[i]]. *)
Definition scriptSig_at {P} (tx : CMutableTransactionBase P) (i : nat)
  : CScript :=
  default [] (scriptSig <$> vin tx !! i).

(** Lines 1431-1436 and 1190-1195: the [scriptPubKey] of the output an
    input spends, or [None] when [coins == NULL] or the output is not
    available. *)
Definition prevPubKey (view : gmap uint256 CCoins) (txin : CTxIn)
  : option CScript :=
  match AccessCoins view (COutPoint.hash (prevout txin)) with
  | None => None
  | Some coins =>
      if IsAvailable coins (COutPoint.n (prevout txin)) then
        scriptPubKey <$> coins !! N.to_nat (COutPoint.n (prevout txin))
      else None
  end.

(** Line 1423. *)
Definition fHashSingle `{ScriptCollab P} (nHashType : Z) : bool :=
  (Z.land nHashType (Z.lnot SIGHASH_ANYONECANPAY) =? SIGHASH_SINGLE)%Z.

(** Lines 1444-1446: [txv.vin[i]] is read without a bounds check; [None]
    is the out-of-range read. *)
Fixpoint merge_variants `{ScriptCollab P} (pubKey : CScript) (i : nat)
    (txVariants : list (CMutableTransactionBase P))
    (tx : CMutableTransactionBase P) : option (CMutableTransactionBase P) :=
  match txVariants with
  | [] => Some tx
  | txv :: rest =>
      match vin txv !! i with
      | None => None
      | Some vtxin =>
          merge_variants pubKey i rest
            (set_scriptSig i
               (CombineSignatures pubKey tx i (scriptSig_at tx i)
                  (scriptSig vtxin)) tx)
      end
  end.

(** Lines 1447-1450 and 1200-1208. *)
Definition verify_input `{ScriptCollab P} (pubKey : CScript) (i : nat)
    (tx : CMutableTransactionBase P) (errs : list TxInError)
  : list TxInError :=
  let '(ok, serror) := VerifyScript (scriptSig_at tx i) pubKey tx i in
  if ok then errs
  else
    match vin tx !! i with
    | Some txin => TxInErrorToJSON txin errs (ScriptErrorString serror)
    | None => errs
    end.

(** One iteration of the loop of [signrawtransaction], lines 1430-1450. *)
Definition sign_tx_input `{ScriptCollab P} (view : gmap uint256 CCoins)
    (keystore : CKeyStore) (nHashType : Z)
    (txVariants : list (CMutableTransactionBase P))
    (i : nat) (st : SignState P) : option (SignState P) :=
  match vin (merged st) !! i with
  | None => None
  | Some txin =>
      match prevPubKey view txin with
      | None =>
          Some {| merged := merged st;
                  vErrors := TxInErrorToJSON txin (vErrors st)
                               "Input not found or already spent";
                  signCalls := signCalls st |}
      | Some pubKey =>
          let tx1 := set_scriptSig i [] (merged st) in
          let sign := negb (fHashSingle nHashType)
                      || bool_decide (i < length (vout tx1)) in
          let tx2 :=
            if sign then
              set_scriptSig i
                (snd (SignSignature keystore pubKey tx1 i nHashType)) tx1
            else tx1 in
          match merge_variants pubKey i txVariants tx2 with
          | None => None
          | Some tx3 =>
              Some {| merged := tx3;
                      vErrors := verify_input pubKey i tx3 (vErrors st);
                      signCalls := if sign then signCalls st ++ [i]
                                   else signCalls st |}
          end
      end
  end.

(** One iteration of the loop of [signrawcertificate], lines 1189-1208. *)
Definition sign_cert_input `{ScriptCollab P} (view : gmap uint256 CCoins)
    (keystore : CKeyStore) (i : nat) (st : SignState P)
  : option (SignState P) :=
  match vin (merged st) !! i with
  | None => None
  | Some txin =>
      match prevPubKey view txin with
      | None =>
          Some {| merged := merged st;
                  vErrors := TxInErrorToJSON txin (vErrors st)
                               "Input not found or already spent";
                  signCalls := signCalls st |}
      | Some pubKey =>
          let cert1 := set_scriptSig i [] (merged st) in
          let cert2 :=
            set_scriptSig i
              (snd (SignSignature keystore pubKey cert1 i SIGHASH_ALL))
              cert1 in
          Some {| merged := cert2;
                  vErrors := verify_input pubKey i cert2 (vErrors st);
                  signCalls := signCalls st ++ [i] |}
      end
  end.

(** A [for] loop over the given indices. *)
Fixpoint for_each {S : Type} (body : nat → S → option S) (indices : list nat)
    (st : S) : option S :=
  match indices with
  | [] => Some st
  | i :: rest =>
      match body i st with
      | None => None
      | Some st' => for_each body rest st'
      end
  end.

Definition initial_state {P} (tx : CMutableTransactionBase P) : SignState P :=
  {| merged := tx; vErrors := []; signCalls := [] |}.

(** Lines 1429-1451: [mergedTx] starts as a copy of [txVariants[0]]. *)
Definition signrawtransaction_loop `{ScriptCollab P}
    (view : gmap uint256 CCoins) (keystore : CKeyStore) (nHashType : Z)
    (txVariants : list (CMutableTransactionBase P))
    (mergedTx : CMutableTransactionBase P) : option (SignState P) :=
  for_each (sign_tx_input view keystore nHashType txVariants)
    (seq 0 (length (vin mergedTx))) (initial_state mergedTx).

(** Lines 1188-1209. *)
Definition signrawcertificate_loop `{ScriptCollab P}
    (view : gmap uint256 CCoins) (keystore : CKeyStore)
    (mergedCert : CMutableTransactionBase P) : option (SignState P) :=
  for_each (sign_cert_input view keystore)
    (seq 0 (length (vin mergedCert))) (initial_state mergedCert).

(** The result object, lines 1452-1461 and 1210-1219: [res_hex] stands for
    the encoded merged entity; the key [errors] is present only when
    [vErrors] is not empty. *)
Record SignResult (P : Type) := {
  res_hex : CMutableTransactionBase P;
  res_complete : bool;
  res_errors : option (list TxInError)
}.
Arguments res_hex {P} _.
Arguments res_complete {P} _.
Arguments res_errors {P} _.

Definition vector_empty {A} (l : list A) : bool :=
  match l with [] => true | _ => false end.

Definition sign_result {P} (st : SignState P) : SignResult P :=
  let fComplete := vector_empty (vErrors st) in
  {| res_hex := merged st;
     res_complete := fComplete;
     res_errors := if negb (vector_empty (vErrors st))
                   then Some (vErrors st) else None |}.

(** Lines 1405-1421: the optional [sighashtype] argument. *)
Definition mapSigHashValues `{ScriptCollab P} : list (string * Z) :=
  [ ("ALL", SIGHASH_ALL);
    ("ALL|ANYONECANPAY", Z.lor SIGHASH_ALL SIGHASH_ANYONECANPAY);
    ("NONE", SIGHASH_NONE);
    ("NONE|ANYONECANPAY", Z.lor SIGHASH_NONE SIGHASH_ANYONECANPAY);
    ("SINGLE", SIGHASH_SINGLE);
    ("SINGLE|ANYONECANPAY", Z.lor SIGHASH_SINGLE SIGHASH_ANYONECANPAY) ].

Definition parse_sighashtype `{ScriptCollab P} (param : option string)
  : outcome Z :=
  match param with
  | None => Returned SIGHASH_ALL
  | Some strHashType =>
      match (list_to_map mapSigHashValues : gmap string Z) !! strHashType with
      | Some v => Returned v
      | None => Thrown RPC_INVALID_PARAMETER "Invalid sighash param"
      end
  end.

(** [signrawtransaction] from the decoded transactions on (lines
    1303-1461): [txVariants] are the transactions read from the hex
    argument, [view] the coins view, [keystore] the keys in use. *)
Definition signrawtransaction `{ScriptCollab P}
    (view : gmap uint256 CCoins) (keystore : CKeyStore)
    (sighashtype : option string)
    (txVariants : list (CMutableTransactionBase P))
  : outcome (SignResult P) :=
  match txVariants with
  | [] => Thrown RPC_DESERIALIZATION_ERROR "Missing transaction"
  | tx0 :: _ =>
      match parse_sighashtype sighashtype with
      | Returned nHashType =>
          match signrawtransaction_loop view keystore nHashType
                  txVariants tx0 with
          | Some st => Returned (sign_result st)
          | None => Undefined
          end
      | Thrown c m => Thrown c m
      | Undefined => Undefined
      end
  end.

(** [signrawcertificate] from the decoded certificate on (lines
    1137-1219). *)
Definition signrawcertificate `{ScriptCollab P}
    (view : gmap uint256 CCoins) (keystore : CKeyStore)
    (certVariants : CMutableTransactionBase P) : outcome (SignResult P) :=
  match signrawcertificate_loop view keystore certVariants with
  | Some st => Returned (sign_result st)
  | None => Undefined
  end.

(** ** Blocks, the chain state and the hashing collaborators *)

Definition CTransaction := CMutableTransactionBase TxPayload.

Record CBlockHeader := {
  hashMerkleRoot : uint256;
  header_fields : list byte
}.

Record CBlock := {
  header : CBlockHeader;
  vtx : list CTransaction
}.

Record CBlockIndex := {
  nHeight : Z;
  phashBlock : uint256
}.

#[global] Instance CBlockIndex_eq_dec : EqDecision CBlockIndex.
Proof. solve_decision. Defined.

(** Hashing and hex helpers of hash.h, uint256.h, utilstrencodings.h and
    primitives/: [Hash] is the hash of two concatenated 256-bit values. *)
Class HashCollab := {
  Hash : uint256 → uint256 → uint256;
  TxGetHash : CTransaction → uint256;
  HeaderGetHash : CBlockHeader → uint256;
  IsHex : string → bool;
  uint256S : string → uint256;
  GetHex : uint256 → string
}.

(** What [gettxoutproof] and [verifytxoutproof] read under [cs_main]:
    [chainActive_at h] is [chainActive[h]] and [None] a [NULL] pointer,
    [pcoinsTip_GetCoins txid] the [nHeight] of the coins found,
    [GetTransaction txid] the transaction and the hash of its block. *)
Record ChainState := {
  mapBlockIndex : gmap uint256 CBlockIndex;
  chainActive_Height : Z;
  chainActive_at : Z → option CBlockIndex;
  chainActive_Contains : CBlockIndex → bool;
  pcoinsTip_GetCoins : uint256 → option Z;
  GetTransaction : uint256 → option (CTransaction * uint256);
  ReadBlockFromDisk : CBlockIndex → option CBlock
}.

(** ** Merkle blocks *)

Record CPartialMerkleTree := {
  nTransactions : nat;
  vBits : list bool;
  vHash : list uint256
}.

Record CMerkleBlock := {
  mb_header : CBlockHeader;
  txn : CPartialMerkleTree
}.

(** The serialized proof: header, leaf count, retained hashes, and the
    bitmask as bytes.  The hex layer ([HexStr], [ParseHexV]) is left out. *)
Record SerializedProof := {
  ser_header : CBlockHeader;
  ser_nTransactions : nat;
  ser_vHash : list uint256;
  ser_vBytes : list byte
}.

(** The interface of merkleblock.h as the two calls use it: the
    constructor [CMerkleBlock(block, txids)], [txn.ExtractMatches(vMatch)]
    returning the root and the matches, [ssMB << mb] and [ssMB >> mb]
    ([None] when the stream is not a merkle block). *)
Class MerkleCollab := {
  CMerkleBlock_of : CBlock → gset uint256 → CMerkleBlock;
  ExtractMatches : CPartialMerkleTree → uint256 * list uint256;
  Serialize : CMerkleBlock → SerializedProof;
  Unserialize : SerializedProof → option CMerkleBlock
}.

(** ** gettxoutproof (lines 477-534) *)

(** Lines 477-489: the loop over the [txids] array. *)
Fixpoint parse_txids `{HashCollab} (txids : list string)
    (setTxids : gset uint256) (oneTxid : uint256)
  : outcome (gset uint256 * uint256) :=
  match txids with
  | [] => Returned (setTxids, oneTxid)
  | txid :: rest =>
      if negb (String.length txid =? 64) || negb (IsHex txid) then
        Thrown RPC_INVALID_PARAMETER ("Invalid txid " +:+ txid)
      else
        let hash := uint256S txid in
        if decide (hash ∈ setTxids) then
          Thrown RPC_INVALID_PARAMETER
            ("Invalid parameter, duplicated txid: " +:+ txid)
        else parse_txids rest ({[hash]} ∪ setTxids) hash
  end.

(** [uint256::IsNull] *)
Definition uint256_IsNull (h : uint256) : bool := (h =? 0)%N.

(** Lines 493-516: the block index the proof is built for. *)
Definition find_block_index `{HashCollab} (cs : ChainState)
    (oneTxid : uint256) (blockhash : option string) : outcome CBlockIndex :=
  let first : outcome (option CBlockIndex) :=
    match blockhash with
    | Some str =>
        match mapBlockIndex cs !! uint256S str with
        | None => Thrown RPC_INVALID_ADDRESS_OR_KEY "Block not found"
        | Some pindex => Returned (Some pindex)
        end
    | None =>
        match pcoinsTip_GetCoins cs oneTxid with
        | Some coinsHeight =>
            if (0 <? coinsHeight)%Z && (coinsHeight <=? chainActive_Height cs)%Z
            then Returned (chainActive_at cs coinsHeight)
            else Returned None
        | None => Returned None
        end
    end in
  match first with
  | Returned (Some pindex) => Returned pindex
  | Returned None =>
      match GetTransaction cs oneTxid with
      | None =>
          Thrown RPC_INVALID_ADDRESS_OR_KEY "Transaction not yet in block"
      | Some (_, hashBlock) =>
          if uint256_IsNull hashBlock then
            Thrown RPC_INVALID_ADDRESS_OR_KEY "Transaction not yet in block"
          else
            match mapBlockIndex cs !! hashBlock with
            | None => Thrown RPC_INTERNAL_ERROR "Transaction index corrupt"
            | Some pindex => Returned pindex
            end
      end
  | Thrown c m => Thrown c m
  | Undefined => Undefined
  end.

(** Lines 522-525: [ntxFound] is an [unsigned int]. *)
Fixpoint count_found `{HashCollab} (setTxids : gset uint256)
    (txs : list CTransaction) (ntxFound : N) : N :=
  match txs with
  | [] => ntxFound
  | tx :: rest =>
      count_found setTxids rest
        (if decide (TxGetHash tx ∈ setTxids)
         then ((ntxFound + 1) mod 2 ^ 32)%N else ntxFound)
  end.

(** Lines 518-533, once the block index is known. *)
Definition prove_in_block `{HashCollab} `{MerkleCollab} (cs : ChainState)
    (setTxids : gset uint256) (pblockindex : CBlockIndex)
  : outcome SerializedProof :=
  match ReadBlockFromDisk cs pblockindex with
  | None => Thrown RPC_INTERNAL_ERROR "Can't read block from disk"
  | Some block =>
      let ntxFound := count_found setTxids (vtx block) 0%N in
      if negb (ntxFound =? N.of_nat (size setTxids))%N then
        Thrown RPC_INVALID_ADDRESS_OR_KEY
          "(Not all) transactions not found in specified block"
      else Returned (Serialize (CMerkleBlock_of block setTxids))
  end.

Definition gettxoutproof `{HashCollab} `{MerkleCollab} (cs : ChainState)
    (txids : list string) (blockhash : option string)
  : outcome SerializedProof :=
  match parse_txids txids ∅ 0%N with
  | Returned (setTxids, oneTxid) =>
      match find_block_index cs oneTxid blockhash with
      | Returned pblockindex => prove_in_block cs setTxids pblockindex
      | Thrown c m => Thrown c m
      | Undefined => Undefined
      end
  | Thrown c m => Thrown c m
  | Undefined => Undefined
  end.

(** ** verifytxoutproof (lines 553-566), from the deserialized merkle block *)

Definition verifytxoutproof `{HashCollab} `{MerkleCollab} (cs : ChainState)
    (merkleBlock : CMerkleBlock) : outcome (list string) :=
  let '(root, vMatch) := ExtractMatches (txn merkleBlock) in
  if negb (root =? hashMerkleRoot (mb_header merkleBlock))%N then Returned []
  else
    let known :=
      match mapBlockIndex cs !! HeaderGetHash (mb_header merkleBlock) with
      | None => false
      | Some pindex => chainActive_Contains cs pindex
      end in
    if negb known then
      Thrown RPC_INVALID_ADDRESS_OR_KEY "Block not found in chain"
    else Returned (GetHex <$> vMatch).

(** ** The partial Merkle tree *)

(** Modelled from the spec: merkleblock.h and merkleblock.cpp
    ([CPartialMerkleTree], [CMerkleBlock]) are not part of the sources at
    hand.  The spec (4.5, 4.6, 6) describes a pruned binary Merkle tree
    over the block's ordered leaf list, each leaf tagged matched or
    unmatched; the definitions below fix the tree shape as the layered
    tree in which the last node of a layer of odd width is paired with
    itself.  A node is addressed by its height above the leaves and its
    position in its layer. *)

(** Modelled from the spec: the number of nodes of the layer at [height]
    in a tree of [nLeaves] leaves. *)
Definition CalcTreeWidth (nLeaves height : nat) : nat :=
  (nLeaves + 2 ^ height - 1) / 2 ^ height.

(** Modelled from the spec: the height of the root, the first layer of
    width at most one. *)
Definition CalcTreeHeight (nLeaves : nat) : nat := Nat.log2_up nLeaves.

(** The leaves below the node at [height], [pos]. *)
Definition leaves_under {A} (height pos : nat) (leaves : list A) : list A :=
  take (2 ^ height) (drop (pos * 2 ^ height) leaves).

(** Modelled from the spec: the hash of the node at [height], [pos]; a leaf
    is its entity id, an inner node the hash of its two children. *)
Fixpoint CalcHash `{HashCollab} (leaves : list (uint256 * bool))
    (height pos : nat) : uint256 :=
  match height with
  | 0 => default 0%N (fst <$> leaves !! pos)
  | S h =>
      let hashL := CalcHash leaves h (2 * pos) in
      let hashR :=
        if decide (2 * pos + 1 < CalcTreeWidth (length leaves) h)
        then CalcHash leaves h (2 * pos + 1) else hashL in
      Hash hashL hashR
  end.

(** Modelled from the spec (4.5): depth-first, left-to-right traversal
    emitting one bit per visited node (is some leaf below it matched) and
    the hash of every node that is a leaf or has no matched leaf below it;
    matched branches are followed down to their leaves. *)
Fixpoint TraverseAndBuild `{HashCollab} (leaves : list (uint256 * bool))
    (height pos : nat) : list bool * list uint256 :=
  let fParentOfMatch := existsb snd (leaves_under height pos leaves) in
  match height with
  | 0 => ([fParentOfMatch], [CalcHash leaves 0 pos])
  | S h =>
      if fParentOfMatch then
        let '(bitsL, hashesL) := TraverseAndBuild leaves h (2 * pos) in
        let '(bitsR, hashesR) :=
          if decide (2 * pos + 1 < CalcTreeWidth (length leaves) h)
          then TraverseAndBuild leaves h (2 * pos + 1) else ([], []) in
        (fParentOfMatch :: bitsL ++ bitsR, hashesL ++ hashesR)
      else ([fParentOfMatch], [CalcHash leaves (S h) pos])
  end.

(** Modelled from the spec: the partial tree of a tagged leaf list. *)
Definition CPartialMerkleTree_of `{HashCollab} (leaves : list (uint256 * bool))
  : CPartialMerkleTree :=
  let '(bits, hashes) :=
    TraverseAndBuild leaves (CalcTreeHeight (length leaves)) 0 in
  {| nTransactions := length leaves; vBits := bits; vHash := hashes |}.

(** Modelled from the spec (4.5): the block's leaves are its transactions'
    ids in block order, tagged by membership in the target set; the proof
    carries the block's header. *)
Definition spec_CMerkleBlock `{HashCollab} (block : CBlock)
    (txids : gset uint256) : CMerkleBlock :=
  {| mb_header := header block;
     txn := CPartialMerkleTree_of
              ((λ tx, (TxGetHash tx, bool_decide (TxGetHash tx ∈ txids)))
                 <$> vtx block) |}.

(** Modelled from the spec (4.6): replaying the bitmask over the tree of
    the declared leaf count.  The result is the node's hash, the matched
    leaf ids in leaf order, and the bits and hashes not yet consumed;
    [None] when the bitmask or the hash list runs out. *)
Fixpoint TraverseAndExtract `{HashCollab} (nLeaves : nat) (height pos : nat)
    (bits : list bool) (hashes : list uint256)
  : option (uint256 * list uint256 * list bool * list uint256) :=
  match bits with
  | [] => None
  | fParentOfMatch :: bits1 =>
      match height with
      | 0 =>
          match hashes with
          | [] => None
          | h :: hashes1 =>
              Some (h, if fParentOfMatch then [h] else [], bits1, hashes1)
          end
      | S ht =>
          if negb fParentOfMatch then
            match hashes with
            | [] => None
            | h :: hashes1 => Some (h, [], bits1, hashes1)
            end
          else
            match TraverseAndExtract nLeaves ht (2 * pos) bits1 hashes with
            | None => None
            | Some (hashL, mL, bits2, hashes2) =>
                if decide (2 * pos + 1 < CalcTreeWidth nLeaves ht) then
                  match TraverseAndExtract nLeaves ht (2 * pos + 1)
                          bits2 hashes2 with
                  | None => None
                  | Some (hashR, mR, bits3, hashes3) =>
                      Some (Hash hashL hashR, mL ++ mR, bits3, hashes3)
                  end
                else Some (Hash hashL hashL, mL, bits2, hashes2)
            end
      end
  end.

(** Modelled from the spec (4.6, 7): a malformed proof (no leaves, the
    bitmask or the hashes running out, retained hashes left over, or whole
    bytes of bitmask left over) is rejected with the null root and no
    match; otherwise the recomputed root and the matched ids. *)
Definition spec_ExtractMatches `{HashCollab} (t : CPartialMerkleTree)
  : uint256 * list uint256 :=
  if decide (nTransactions t = 0) then (0%N, [])
  else
    match TraverseAndExtract (nTransactions t)
            (CalcTreeHeight (nTransactions t)) 0 (vBits t) (vHash t) with
    | None => (0%N, [])
    | Some (root, vMatch, bitsLeft, hashesLeft) =>
        let nBitsUsed := length (vBits t) - length bitsLeft in
        if decide ((nBitsUsed + 7) / 8 = (length (vBits t) + 7) / 8
                   ∧ hashesLeft = [])
        then (root, vMatch) else (0%N, [])
    end.

(** Modelled from the spec (6): the bitmask is encoded as bytes, eight
    bits to a byte, the first bit in the lowest position, the last byte
    filled up with zero bits. *)
Definition byte_of_bits (b0 b1 b2 b3 b4 b5 b6 b7 : bool) : byte :=
  Byte.of_bits (b0, (b1, (b2, (b3, (b4, (b5, (b6, b7))))))).

Fixpoint bits_to_bytes (bits : list bool) : list byte :=
  match bits with
  | [] => []
  | b0 :: b1 :: b2 :: b3 :: b4 :: b5 :: b6 :: b7 :: rest =>
      byte_of_bits b0 b1 b2 b3 b4 b5 b6 b7 :: bits_to_bytes rest
  | b0 :: rest =>
      [byte_of_bits b0 (nth 0 rest false) (nth 1 rest false)
         (nth 2 rest false) (nth 3 rest false) (nth 4 rest false)
         (nth 5 rest false) (nth 6 rest false)]
  end.

Definition bits_of_byte (b : byte) : list bool :=
  let '(b0, (b1, (b2, (b3, (b4, (b5, (b6, b7))))))) := Byte.to_bits b in
  [b0; b1; b2; b3; b4; b5; b6; b7].

Fixpoint bytes_to_bits (bytes : list byte) : list bool :=
  match bytes with
  | [] => []
  | b :: rest => bits_of_byte b ++ bytes_to_bits rest
  end.

Definition spec_Serialize (mb : CMerkleBlock) : SerializedProof :=
  {| ser_header := mb_header mb;
     ser_nTransactions := nTransactions (txn mb);
     ser_vHash := vHash (txn mb);
     ser_vBytes := bits_to_bytes (vBits (txn mb)) |}.

Definition spec_Unserialize (p : SerializedProof) : option CMerkleBlock :=
  Some {| mb_header := ser_header p;
          txn := {| nTransactions := ser_nTransactions p;
                    vBits := bytes_to_bits (ser_vBytes p);
                    vHash := ser_vHash p |} |}.

(** Modelled from the spec: the merkle-block collaborator assembled from
    the definitions above. *)
Definition spec_merkle `{HashCollab} : MerkleCollab :=
  {| CMerkleBlock_of := spec_CMerkleBlock;
     ExtractMatches := spec_ExtractMatches;
     Serialize := spec_Serialize;
     Unserialize := spec_Unserialize |}.

(** The Merkle root of a block's transactions. *)
Definition BlockMerkleRoot `{HashCollab} (block : CBlock) : uint256 :=
  let leaves := (λ tx, (TxGetHash tx, false)) <$> vtx block in
  CalcHash leaves (CalcTreeHeight (length leaves)) 0.

(** ** Predicates used in the statements *)

(** [tx'] differs from [tx] at most in the script of input [i]. *)
Definition same_but_script {P} (i : nat)
    (tx tx' : CMutableTransactionBase P) : Prop :=
  vout tx' = vout tx
  ∧ nVersion tx' = nVersion tx
  ∧ payload tx' = payload tx
  ∧ length (vin tx') = length (vin tx)
  ∧ (∀ j, prevout <$> vin tx' !! j = prevout <$> vin tx !! j)
  ∧ (∀ j, nSequence <$> vin tx' !! j = nSequence <$> vin tx !! j)
  ∧ (∀ j, i ≠ j → vin tx' !! j = vin tx !! j).

(** The entry pushed for an input whose output does not resolve. *)
Definition not_found_entry (txin : CTxIn) : TxInError :=
  {| err_txid := COutPoint.hash (prevout txin);
     err_vout := COutPoint.n (prevout txin);
     err_scriptSig := HexStr (scriptSig txin);
     err_sequence := nSequence txin;
     err_error := "Input not found or already spent" |}.

(** Where an error entry can come from: the resolution step, or a failed
    [VerifyScript]. *)
Definition error_origin `{ScriptCollab P} (e : TxInError) : Prop :=
  err_error e = "Input not found or already spent"
  ∨ ∃ sig pubKey tx i serror,
      VerifyScript sig pubKey tx i = (false, serror)
      ∧ err_error e = ScriptErrorString serror.

(** What both loop bodies have in common. *)
Definition step_spec `{ScriptCollab P} (view : gmap uint256 CCoins)
    (body : nat → SignState P → option (SignState P)) : Prop :=
  (∀ i st (txin : CTxIn),
     vin (merged st) !! i = Some txin → prevPubKey view txin = None →
     body i st = Some {| merged := merged st;
                         vErrors := vErrors st ++ [not_found_entry txin];
                         signCalls := signCalls st |})
  ∧ (∀ i st st',
       body i st = Some st' →
       same_but_script i (merged st) (merged st')
       ∧ ∃ es, vErrors st' = vErrors st ++ es
               ∧ length es ≤ 1 ∧ Forall error_origin es).

(** The input of [tx] at [i] refers to an output that does not resolve. *)
Definition unresolved_at {P} (view : gmap uint256 CCoins)
    (tx : CMutableTransactionBase P) (i : nat) : Prop :=
  ∃ txin, vin tx !! i = Some txin ∧ prevPubKey view txin = None.

(** Whether the loop of [signrawtransaction] calls the signer for input
    [i] of [tx]. *)
Definition should_sign `{ScriptCollab P} (view : gmap uint256 CCoins)
    (nHashType : Z) (tx : CMutableTransactionBase P) (i : nat) : bool :=
  match vin tx !! i with
  | Some txin =>
      bool_decide (is_Some (prevPubKey view txin))
      && (negb (fHashSingle nHashType) || bool_decide (i < length (vout tx)))
  | None => false
  end.

(** The ids of the leaves tagged as matched, in leaf order. *)
Definition matched_ids (leaves : list (uint256 * bool)) : list uint256 :=
  fst <$> filter (λ leaf, snd leaf = true) leaves.

(** The sighash flags do not overlap: [ANYONECANPAY] shares no bit with
    the three base types, and [SINGLE] differs from [ALL] and [NONE]. *)
Definition sighash_flags_ok `{ScriptCollab P} : Prop :=
  Z.land SIGHASH_ALL SIGHASH_ANYONECANPAY = 0%Z
  ∧ Z.land SIGHASH_NONE SIGHASH_ANYONECANPAY = 0%Z
  ∧ Z.land SIGHASH_SINGLE SIGHASH_ANYONECANPAY = 0%Z
  ∧ SIGHASH_ALL ≠ SIGHASH_SINGLE
  ∧ SIGHASH_NONE ≠ SIGHASH_SINGLE.

(** The [sighashtype] arguments that select [SINGLE]. *)
Definition selects_single (sighashtype : option string) : Prop :=
  sighashtype = Some "SINGLE" ∨ sighashtype = Some "SINGLE|ANYONECANPAY".

(** Two collaborators that differ at most in the success flag that
    [SignSignature] returns. *)
Definition same_but_sign_flag {P} (A B : ScriptCollab P) : Prop :=
  @SIGHASH_ALL P A = @SIGHASH_ALL P B
  ∧ @SIGHASH_NONE P A = @SIGHASH_NONE P B
  ∧ @SIGHASH_SINGLE P A = @SIGHASH_SINGLE P B
  ∧ @SIGHASH_ANYONECANPAY P A = @SIGHASH_ANYONECANPAY P B
  ∧ (∀ k s tx i t,
       snd (@SignSignature P A k s tx i t) = snd (@SignSignature P B k s tx i t))
  ∧ (∀ s tx i a b,
       @CombineSignatures P A s tx i a b = @CombineSignatures P B s tx i a b)
  ∧ (∀ a s tx i, @VerifyScript P A a s tx i = @VerifyScript P B a s tx i)
  ∧ (∀ e, @ScriptErrorString P A e = @ScriptErrorString P B e).

(** ** Sample collaborators and data

    Concrete stand-ins for the collaborators, on which the definitions
    above can be run. *)

Module Sample.

Definition opcodes : ScriptOpcodes := {| OP_HASH160 := xa9 |}.

(** A signer that produces the one-byte script [OP_TRUE] when the keystore
    holds a key and nothing otherwise, a combiner that keeps the first
    non-empty script, and a verifier that accepts exactly [OP_TRUE]. *)
Definition OP_TRUE : byte := x51.

Definition collab (P : Type) : ScriptCollab P :=
  {| SIGHASH_ALL := 1;
     SIGHASH_NONE := 2;
     SIGHASH_SINGLE := 3;
     SIGHASH_ANYONECANPAY := 128;
     SignSignature := λ keystore _ _ _ _,
       match mapKeys keystore with
       | [] => (false, [])
       | _ => (true, [OP_TRUE])
       end;
     CombineSignatures := λ _ _ _ sigs1 sigs2,
       match sigs1 with [] => sigs2 | _ => sigs1 end;
     VerifyScript := λ sig _ _ _,
       match sig with
       | [b] => if Byte.eqb b OP_TRUE then (true, SCRIPT_ERR_OK) else (false, 1)
       | _ => (false, 1)
       end;
     ScriptErrorString := λ e,
       match e with 0 => "No error" | _ => "Script evaluated without error but finished with a false/empty top stack element" end |}.

Definition no_keys : CKeyStore := {| mapKeys := []; mapScripts := [] |}.
Definition one_key : CKeyStore := {| mapKeys := [[x01]]; mapScripts := [] |}.

Definition txin (h : uint256) (idx : N) (sig : CScript) : CTxIn :=
  {| prevout := {| COutPoint.hash := h; COutPoint.n := idx |};
     scriptSig := sig;
     nSequence := 4294967295 |}.

Definition txout (v : Z) : CTxOut := {| nValue := v; scriptPubKey := [x51] |}.

Definition tx (ins : list CTxIn) (outs : list CTxOut) (lock : N)
  : CMutableTransaction :=
  {| nVersion := 1; vin := ins; vout := outs;
     payload := {| nLockTime := lock; vjoinsplit := [] |} |}.

Definition cert (ins : list CTxIn) (outs : list CTxOut)
  : CMutableScCertificate :=
  {| nVersion := -5; vin := ins; vout := outs;
     payload := {| scId := 7; epochNumber := 0; quality := 1;
                   endEpochBlockHash := 9; scProof := [] |} |}.

(** A coins view knowing the outputs 0 and 1 of transaction 100. *)
Definition view : gmap uint256 CCoins :=
  {[ 100%N := [txout 5; txout 6] ]}.

(** Hex digits to a number; the hashing stand-ins are small arithmetic
    functions, and a transaction's id is its lock time. *)
Definition hex_digit_value (c : ascii) : option N :=
  let k := N_of_ascii c in
  if ((48 <=? k) && (k <=? 57))%N then Some (k - 48)%N
  else if ((97 <=? k) && (k <=? 102))%N then Some (k - 87)%N
  else if ((65 <=? k) && (k <=? 70))%N then Some (k - 55)%N
  else None.

Fixpoint hex_value (s : string) (acc : N) : N :=
  match s with
  | String.EmptyString => acc
  | String.String c rest =>
      hex_value rest (acc * 16 + default 0 (hex_digit_value c))%N
  end.

Fixpoint all_hex (s : string) : bool :=
  match s with
  | String.EmptyString => true
  | String.String c rest =>
      match hex_digit_value c with
      | Some _ => all_hex rest
      | None => false
      end
  end.

Definition hashing : HashCollab :=
  {| Hash := λ a b, (3 * a + 5 * b + 1)%N;
     TxGetHash := λ t, nLockTime (payload t);
     HeaderGetHash := λ h, (hashMerkleRoot h + 1000)%N;
     IsHex := λ s, all_hex s && negb (String.length s =? 0)
                   && (String.length s mod 2 =? 0);
     uint256S := λ s, hex_value s 0;
     GetHex := λ h, HexStr (default [] (mapM Byte.of_N [h])) |}.

Definition id_A : string :=
  "000000000000000000000000000000000000000000000000000000000000000a".
Definition id_B : string :=
  "000000000000000000000000000000000000000000000000000000000000000b".
Definition id_C : string :=
  "000000000000000000000000000000000000000000000000000000000000000c".
Definition id_D : string :=
  "000000000000000000000000000000000000000000000000000000000000000d".
Definition id_Z : string :=
  "00000000000000000000000000000000000000000000000000000000000000ff".
Definition hash_of_block : string :=
  "0000000000000000000000000000000000000000000000000000000000001000".

(** A block holding the given transactions, with the Merkle root of its
    own transaction list in the header. *)
Definition block_of (txs : list CTransaction) : CBlock :=
  let b := {| header := {| hashMerkleRoot := 0; header_fields := [] |};
              vtx := txs |} in
  {| header := {| hashMerkleRoot := @BlockMerkleRoot hashing b;
                  header_fields := [] |};
     vtx := txs |}.

Definition block_ABCD : CBlock :=
  block_of [tx [] [] 10; tx [] [] 11; tx [] [] 12; tx [] [] 13].

(** A block in which transaction A occurs twice. *)
Definition block_AA : CBlock := block_of [tx [] [] 10; tx [] [] 10].

Definition index_of (b : CBlock) (height : Z) : CBlockIndex :=
  {| nHeight := height;
     phashBlock := @HeaderGetHash hashing (header b) |}.

(** A chain state that knows one block, under its header's hash and under
    the key [hash_of_block], at height 1 of the active chain. *)
Definition chain_with (b : CBlock) : ChainState :=
  {| mapBlockIndex :=
       {[ @HeaderGetHash hashing (header b) := index_of b 1;
          4096%N := index_of b 1 ]};
     chainActive_Height := 1;
     chainActive_at := λ h, if (h =? 1)%Z then Some (index_of b 1) else None;
     chainActive_Contains := λ p, bool_decide (p = index_of b 1);
     pcoinsTip_GetCoins := λ _, None;
     GetTransaction := λ _, None;
     ReadBlockFromDisk := λ p,
       if bool_decide (p = index_of b 1) then Some b else None |}.

End Sample.

(** * The calls around the loops: definitions

    The definitions below embed what the file does before and after the
    loops above: the decoding of the hex argument and the [prevtxs]
    argument of [signrawtransaction], the builders behind
    [createrawtransaction] and [createrawcertificate], and the two
    submission calls. *)

(** ** Further predicates on the signing loops and the proof builder *)

(** [tx'] differs from [tx] in unlocking scripts only. *)
Definition scripts_only {P} (tx tx' : CMutableTransactionBase P) : Prop :=
  nVersion tx' = nVersion tx
  ∧ vout tx' = vout tx
  ∧ payload tx' = payload tx
  ∧ prevout <$> vin tx' = prevout <$> vin tx
  ∧ nSequence <$> vin tx' = nSequence <$> vin tx.

(** What an error entry, and an input, say about the output spent and the
    sequence number. *)
Definition err_key (e : TxInError) : uint256 * N * N :=
  (err_txid e, err_vout e, err_sequence e).

Definition in_key (txin : CTxIn) : uint256 * N * N :=
  (COutPoint.hash (prevout txin), COutPoint.n (prevout txin), nSequence txin).

(** The entry a loop body pushes at index [i], if any, names the input at
    [i]. *)
Definition step_keys {P} (body : nat → SignState P → option (SignState P))
  : Prop :=
  ∀ i st st', body i st = Some st' →
    ∃ es, vErrors st' = vErrors st ++ es
          ∧ (es = []
             ∨ ∃ e, es = [e]
                    ∧ Some (err_key e) = in_key <$> vin (merged st) !! i).

(** Whether the output spent by input [i] of [tx] resolves. *)
Definition resolved_at {P} (view : gmap uint256 CCoins)
    (tx : CMutableTransactionBase P) (i : nat) : bool :=
  match vin tx !! i with
  | Some txin => bool_decide (is_Some (prevPubKey view txin))
  | None => false
  end.

(** An error entry pushed after a failed [VerifyScript]. *)
Definition verify_failure `{ScriptCollab P} (e : TxInError) : Prop :=
  ∃ sig pubKey tx i serror,
    VerifyScript sig pubKey tx i = (false, serror)
    ∧ err_error e = ScriptErrorString serror.

(** An entry of the [txids] argument that passes the test of line 482. *)
Definition valid_txid `{HashCollab} (txid : string) : Prop :=
  String.length txid = 64 ∧ IsHex txid = true.

(** ** Exceptions and replies *)

(** The error codes of rpc/protocol.h thrown by the functions below: those
    of [RPCErrorCode] and four more. *)
Inductive ErrorCode :=
| Code (c : RPCErrorCode)
| RPC_TYPE_ERROR
| RPC_TRANSACTION_ERROR
| RPC_TRANSACTION_REJECTED
| RPC_TRANSACTION_ALREADY_IN_CHAIN.
Coercion Code : RPCErrorCode >-> ErrorCode.

(** What a call can throw: [JSONRPCError(code, message)], or another
    exception raised by a callee outside the file and passed on
    unchanged. *)
Inductive exception :=
| JSONRPCError (code : ErrorCode) (message : string)
| std_exception (what : string).

(** A call returns a value, throws, or has no defined behaviour (signed
    overflow, a loop that does not end). *)
Inductive reply (A : Type) :=
| Reply (a : A)
| Raise (e : exception)
| NoReply.
Arguments Reply {A} a.
Arguments Raise {A} e.
Arguments NoReply {A}.

#[global] Instance reply_ret : MRet reply := λ A a, Reply a.

#[global] Instance reply_bind : MBind reply := λ A B f m,
  match m with
  | Reply a => f a
  | Raise e => Raise e
  | NoReply => NoReply
  end.

(** [throw JSONRPCError(code, message)] *)
Definition throw {A} (code : ErrorCode) (message : string) : reply A :=
  Raise (JSONRPCError code message).

(** A [for] loop over the elements of a vector, in a body that can
    throw. *)
Fixpoint for_all {A S : Type} (body : A → S → reply S) (l : list A) (s : S)
  : reply S :=
  match l with
  | [] => Reply s
  | x :: rest => s' ← body x s; for_all body rest s'
  end.

(** The double quote and the line feed, for the messages that hold them. *)
Definition dquote : string := String "034"%char String.EmptyString.
Definition line_feed : string := String "010"%char String.EmptyString.

(** ** UniValue and the helpers of rpc/server.h *)

Inductive VType := VNULL | VOBJ | VARR | VSTR | VNUM | VBOOL.

(** The JSON values [J] of univalue.h with the accessors the file uses,
    and the checking and parsing helpers of rpc/server.h.  Accessors that
    throw on a value of the wrong type return a [reply]; [get_int] yields
    an [int], [get_int64] an [int64_t]; [at_key o k] is [o[k]]. *)
Class JsonCollab (J : Type) := {
  NullUniValue : J;
  isNull : J → bool;
  isNum : J → bool;
  isObject : J → bool;
  get_str : J → reply string;
  get_int : J → reply Z;
  get_int64 : J → reply Z;
  get_bool : J → reply bool;
  get_obj : J → reply J;
  get_array : J → reply (list J);
  getKeys : J → list string;
  at_key : J → string → J;
  find_value : J → string → J;
  RPCTypeCheck : list J → list VType → bool → reply ();
  RPCTypeCheckObj : J → list (string * VType) → reply ();
  ParseHashO : J → string → reply uint256;
  ParseHexO : J → string → reply (list byte);
  ParseHexV : J → string → reply (list byte);
  AmountFromValue : J → reply Z
}.

(** [params[i]]: a position past the end of the array yields the null
    value. *)
Definition param `{JsonCollab J} (params : list J) (i : nat) : J :=
  default NullUniValue (params !! i).

(** ** signrawtransaction: reading the hex argument (lines 1287-1304) *)

(** [ssData >> entity] of serialize.h and streams.h: the entity read and
    the bytes left in the stream, [None] when the read throws. *)
Class StreamCollab (P : Type) := {
  Unserialize_entity :
    list byte → option (CMutableTransactionBase P * list byte)
}.

(** Lines 1292-1301.  The loop runs while the stream is not empty; [fuel]
    bounds the number of rounds, and a run that needs more has no reply.
    Every read that succeeds on a real stream consumes bytes, so as many
    rounds as the data has bytes are enough. *)
Fixpoint read_txVariants `{StreamCollab P} (fuel : nat) (ssData : list byte)
    (txVariants : list (CMutableTransactionBase P))
  : reply (list (CMutableTransactionBase P)) :=
  match ssData with
  | [] => Reply txVariants
  | _ :: _ =>
      match fuel with
      | 0 => NoReply
      | S fuel' =>
          match Unserialize_entity ssData with
          | None => throw RPC_DESERIALIZATION_ERROR "TX decode failed"
          | Some (tx, rest) => read_txVariants fuel' rest (txVariants ++ [tx])
          end
      end
  end.

(** Lines 1287-1304. *)
Definition decode_txVariants `{JsonCollab J} `{StreamCollab P}
    (params : list J) : reply (list (CMutableTransactionBase P)) :=
  _ ← RPCTypeCheck params [VSTR; VARR; VARR; VSTR] true;
  txData ← ParseHexV (param params 0) "argument 1";
  txVariants ← read_txVariants (length txData) txData [];
  if vector_empty txVariants then
    throw RPC_DESERIALIZATION_ERROR "Missing transaction"
  else Reply txVariants.

(** ** signrawcertificate: reading the hex argument (lines 1113-1133) *)

(** [strprintf] of tinyformat.h at [%d]. *)
Class FormatCollab := { format_d : Z → string }.

Definition decode_certificate `{JsonCollab J} `{StreamCollab P}
    `{FormatCollab} (params : list J) : reply (CMutableTransactionBase P) :=
  _ ← RPCTypeCheck params [VSTR; VARR] true;
  certData ← ParseHexV (param params 0) "argument 1";
  if vector_empty certData then
    throw RPC_DESERIALIZATION_ERROR "Missing input certificate"
  else
    match Unserialize_entity certData with
    | None => throw RPC_DESERIALIZATION_ERROR "Cert decode failed"
    | Some (certVariants, rest) =>
        if negb (vector_empty rest) then
          throw RPC_DESERIALIZATION_ERROR
            ("Found " +:+ format_d (Z.of_nat (length rest)) +:+ " extra byte"
             +:+ (if decide (1 < length rest) then "s " else " ")
             +:+ "after certificate")
        else Reply certVariants
    end.

(** ** signrawtransaction: the prevtxs argument (lines 1350-1397) *)

#[global] Instance byte_eq_dec : EqDecision byte := Byte.byte_eq_dec.

(** [CScript]'s methods and [CBasicKeyStore::AddCScript], used on the
    scripts of the [prevtxs] argument. *)
Class PrevTxCollab := {
  IsPayToScriptHash : CScript → bool;
  CScript_ToString : CScript → string;
  AddCScript : CScript → CKeyStore → CKeyStore
}.

(** [CTxOut()]: the null output, with which [resize] fills a vector. *)
Definition null_CTxOut : CTxOut := {| nValue := -1; scriptPubKey := [] |}.

(** Lines 1372-1383 on the cache entry of [txid], which [ModifyCoins]
    creates empty when the cache has none.  [nOut] is a non-negative [int];
    [nOut + 1] overflows for the largest one.  What the cache does when the
    modifier is released (coins.h: trailing spent outputs are cut off) is
    left out; it changes no output's availability. *)
Definition add_prevout `{PrevTxCollab} (view : gmap uint256 CCoins)
    (txid : uint256) (nOut : Z) (scriptPubKey' : CScript)
  : reply (gmap uint256 CCoins) :=
  let coins := default [] (view !! txid) in
  let known := default [] (scriptPubKey <$> coins !! Z.to_nat nOut) in
  if IsAvailable coins (Z.to_N nOut)
     && negb (bool_decide (known = scriptPubKey')) then
    throw RPC_DESERIALIZATION_ERROR
      ("Previous output scriptPubKey mismatch:" +:+ line_feed
       +:+ CScript_ToString known +:+ line_feed +:+ "vs:" +:+ line_feed
       +:+ CScript_ToString scriptPubKey')
  else
    let resized : reply CCoins :=
      if decide (length coins ≤ Z.to_nat nOut) then
        if decide (nOut + 1 < 2 ^ 31)%Z then
          Reply (resize (Z.to_nat (nOut + 1)) null_CTxOut coins)
        else NoReply
      else Reply coins in
    coins1 ← resized;
    Reply (<[txid := <[Z.to_nat nOut := {| nValue := 0;
                                           scriptPubKey := scriptPubKey' |}]>
                       coins1]> view).

(** Lines 1354-1395: one element [p] of the array. *)
Definition add_prevtx `{JsonCollab J} `{PrevTxCollab} (fGivenKeys : bool)
    (p : J) (st : gmap uint256 CCoins * CKeyStore)
  : reply (gmap uint256 CCoins * CKeyStore) :=
  if negb (isObject p) then
    throw RPC_DESERIALIZATION_ERROR
      ("expected object with {" +:+ dquote +:+ "txid'" +:+ dquote +:+ ","
       +:+ dquote +:+ "vout" +:+ dquote +:+ "," +:+ dquote +:+ "scriptPubKey"
       +:+ dquote +:+ "}")
  else
    prevOut ← get_obj p;
    _ ← RPCTypeCheckObj prevOut
          [("txid", VSTR); ("vout", VNUM); ("scriptPubKey", VSTR)];
    txid ← ParseHashO prevOut "txid";
    nOut ← get_int (find_value prevOut "vout");
    if (nOut <? 0)%Z then
      throw RPC_DESERIALIZATION_ERROR "vout must be positive"
    else
      pkData ← ParseHexO prevOut "scriptPubKey";
      view' ← add_prevout (fst st) txid nOut pkData;
      if fGivenKeys && IsPayToScriptHash pkData then
        _ ← RPCTypeCheckObj prevOut
              [("txid", VSTR); ("vout", VNUM); ("scriptPubKey", VSTR);
               ("redeemScript", VSTR)];
        let v := find_value prevOut "redeemScript" in
        if negb (isNull v) then
          rsData ← ParseHexV v "redeemScript";
          Reply (view', AddCScript rsData (snd st))
        else Reply (view', snd st)
      else Reply (view', snd st).

(** Lines 1351-1397. *)
Definition add_prevtxs `{JsonCollab J} `{PrevTxCollab} (fGivenKeys : bool)
    (params : list J) (st : gmap uint256 CCoins * CKeyStore)
  : reply (gmap uint256 CCoins * CKeyStore) :=
  if bool_decide (1 < length params) && negb (isNull (param params 1)) then
    prevTxs ← get_array (param params 1);
    for_all (add_prevtx fGivenKeys) prevTxs st
  else Reply st.

(** What the element [p] of [prevtxs] parses to. *)
Definition prevtx_of `{JsonCollab J} (p : J) (txid : uint256) (nOut : Z)
    (script : CScript) : Prop :=
  ∃ prevOut,
    get_obj p = Reply prevOut
    ∧ ParseHashO prevOut "txid" = Reply txid
    ∧ get_int (find_value prevOut "vout") = Reply nOut
    ∧ ParseHexO prevOut "scriptPubKey" = Reply script.

(** The output at position [k] of the cache entry of [h], when the cache
    has both. *)
Definition out_at (view : gmap uint256 CCoins) (h : uint256) (k : nat)
  : option CTxOut :=
  view !! h ≫= (λ coins : list CTxOut, coins !! k).

(** The array the loop of lines 1353-1396 runs over; empty when the
    argument is left out or null. *)
Definition prevTxs_of `{JsonCollab J} (params : list J) : list J :=
  if bool_decide (1 < length params) && negb (isNull (param params 1)) then
    match get_array (param params 1) with
    | Reply prevTxs => prevTxs
    | _ => []
    end
  else [].

(** ** Sample JSON values and helpers

    A small JSON type with the accessors of [JsonCollab], for running the
    definitions above. *)

Module SampleJson.

#[local] Unset Elimination Schemes.
Inductive json :=
| JNull
| JBool (b : bool)
| JNum (z : Z)
| JStr (s : string)
| JArr (l : list json)
| JObj (members : list (string * json)).
#[local] Set Elimination Schemes.

(** The value of the first member named [k], the null value without one. *)
Fixpoint member (members : list (string * json)) (k : string) : json :=
  match members with
  | [] => JNull
  | (k', v) :: rest => if String.eqb k' k then v else member rest k
  end.

Definition find (j : json) (k : string) : json :=
  match j with
  | JObj members => member members k
  | _ => JNull
  end.

Fixpoint parse_hex (s : string) : option (list byte) :=
  match s with
  | String.EmptyString => Some []
  | String.String c1 (String.String c2 rest) =>
      hi ← Sample.hex_digit_value c1;
      lo ← Sample.hex_digit_value c2;
      b ← Byte.of_N (hi * 16 + lo);
      bs ← parse_hex rest;
      Some (b :: bs)
  | _ => None
  end.

Definition not_a (what : string) {A} : reply A :=
  Raise (std_exception ("JSON value is not " +:+ what +:+ " as expected")).

Definition parse_hex_value (j : json) (name : string) : reply (list byte) :=
  match j with
  | JStr s =>
      match parse_hex s with
      | Some bs => Reply bs
      | None =>
          throw RPC_INVALID_PARAMETER (name +:+ " must be hexadecimal string")
      end
  | _ => throw RPC_INVALID_PARAMETER (name +:+ " must be hexadecimal string")
  end.

Definition lib : JsonCollab json :=
  {| NullUniValue := JNull;
     isNull := λ j, match j with JNull => true | _ => false end;
     isNum := λ j, match j with JNum _ => true | _ => false end;
     isObject := λ j, match j with JObj _ => true | _ => false end;
     get_str := λ j, match j with JStr s => Reply s | _ => not_a "a string" end;
     get_int := λ j,
       match j with
       | JNum z =>
           if ((- 2 ^ 31 <=? z) && (z <? 2 ^ 31))%Z then Reply z
           else Raise (std_exception "JSON integer out of range")
       | _ => not_a "an integer"
       end;
     get_int64 := λ j,
       match j with
       | JNum z =>
           if ((- 2 ^ 63 <=? z) && (z <? 2 ^ 63))%Z then Reply z
           else Raise (std_exception "JSON integer out of range")
       | _ => not_a "an integer"
       end;
     get_bool := λ j,
       match j with JBool b => Reply b | _ => not_a "a boolean" end;
     get_obj := λ j, match j with JObj _ => Reply j | _ => not_a "an object" end;
     get_array := λ j,
       match j with JArr l => Reply l | _ => not_a "an array" end;
     getKeys := λ j, match j with JObj members => members.*1 | _ => [] end;
     at_key := find;
     find_value := find;
     RPCTypeCheck := λ _ _ _, Reply ();
     RPCTypeCheckObj := λ _ _, Reply ();
     ParseHashO := λ o k,
       match find o k with
       | JStr s =>
           if (String.length s =? 64) && Sample.all_hex s
           then Reply (Sample.hex_value s 0)
           else throw RPC_INVALID_PARAMETER
                  (k +:+ " must be hexadecimal string")
       | _ => throw RPC_INVALID_PARAMETER (k +:+ " must be hexadecimal string")
       end;
     ParseHexO := λ o k, parse_hex_value (find o k) k;
     ParseHexV := parse_hex_value;
     AmountFromValue := λ j,
       match j with
       | JNum z => Reply z
       | _ => throw RPC_TYPE_ERROR "Amount is not a number or string"
       end |}.

(** Scripts print as hex, a pay-to-script-hash script is [OP_HASH160],
    a push of twenty bytes, [OP_EQUAL], and the keystore keeps its scripts
    in the order they were added. *)
Definition scripts : PrevTxCollab :=
  {| IsPayToScriptHash := λ s,
       bool_decide (length s = 23 ∧ s !! 0 = Some xa9 ∧ s !! 1 = Some x14
                    ∧ s !! 22 = Some x87);
     CScript_ToString := HexStr;
     AddCScript := λ s keystore,
       {| mapKeys := mapKeys keystore;
          mapScripts := mapScripts keystore ++ [s] |} |}.

(** One element of [prevtxs]. *)
Definition prevtx (txid : string) (vout : Z) (script : string) : json :=
  JObj [("txid", JStr txid); ("vout", JNum vout);
        ("scriptPubKey", JStr script)].

(** The same with a redeem script. *)
Definition prevtx_p2sh (txid : string) (vout : Z) (script redeem : string)
  : json :=
  JObj [("txid", JStr txid); ("vout", JNum vout);
        ("scriptPubKey", JStr script); ("redeemScript", JStr redeem)].

(** The arguments of a signrawtransaction call with the given [prevtxs]. *)
Definition sign_params (prevtxs : list json) : list json :=
  [JStr "00"; JArr prevtxs].

(** A pay-to-script-hash script, in hex. *)
Definition p2sh_hex : string :=
  "a9140102030405060708090a0b0c0d0e0f101112131487".

End SampleJson.

(** ** The streams of the two signing calls *)

(** What [encode] writes for [tx] is read back from the front of a stream,
    whatever follows it. *)
Definition decodes `{StreamCollab P}
    (encode : CMutableTransactionBase P → list byte)
    (tx : CMutableTransactionBase P) : Prop :=
  encode tx ≠ []
  ∧ ∀ rest, Unserialize_entity (encode tx ++ rest) = Some (tx, rest).

(** ** AddInputsToRawObject and AddOutputsToRawObject (lines 569-608) *)

(** What the builders use of primitives/transaction.h and
    primitives/certificate.h at an entity type with payload [P]: the
    constructor [CTxIn(COutPoint)], the methods [addOut] and [addBwt], and
    the version and the derived class's fields of a default-constructed
    entity. *)
Class EntityCollab (P : Type) := {
  CTxIn_of : COutPoint.t → CTxIn;
  addOut : CTxOut → CMutableTransactionBase P → CMutableTransactionBase P;
  addBwt : CTxOut → CMutableTransactionBase P → CMutableTransactionBase P;
  default_nVersion : Z;
  default_payload : P
}.

(** A default-constructed entity: its vectors are empty. *)
Definition default_entity `{EntityCollab P} : CMutableTransactionBase P :=
  {| nVersion := default_nVersion; vin := []; vout := [];
     payload := default_payload |}.

(** [rawTxObj.vin.push_back(in)] *)
Definition push_back_vin {P} (txin : CTxIn) (tx : CMutableTransactionBase P)
  : CMutableTransactionBase P :=
  {| nVersion := nVersion tx; vin := vin tx ++ [txin]; vout := vout tx;
     payload := payload tx |}.

(** Lines 573-586: one element of [inputs]. *)
Definition add_input `{JsonCollab J} `{EntityCollab P} (input : J)
    (rawTxObj : CMutableTransactionBase P)
  : reply (CMutableTransactionBase P) :=
  o ← get_obj input;
  txid ← ParseHashO o "txid";
  let vout_v := find_value o "vout" in
  if negb (isNum vout_v) then
    throw RPC_INVALID_PARAMETER "Invalid parameter, missing vout key"
  else
    nOutput ← get_int vout_v;
    if (nOutput <? 0)%Z then
      throw RPC_INVALID_PARAMETER "Invalid parameter, vout must be positive"
    else
      Reply (push_back_vin
               (CTxIn_of {| COutPoint.hash := txid;
                            COutPoint.n := Z.to_N nOutput |})
               rawTxObj).

Definition AddInputsToRawObject `{JsonCollab J} `{EntityCollab P}
    (rawTxObj : CMutableTransactionBase P) (inputs : list J)
  : reply (CMutableTransactionBase P) :=
  for_all add_input inputs rawTxObj.

(** Addresses (base58.h) and the scripts that pay to them
    (script/standard.h): [CBitcoinAddress_of_string name] is
    [CBitcoinAddress(name)], and [CBitcoinAddress_of_keyhex name] the
    address built from [CKeyID(uint160)] after [SetHex(name)]; both are
    [None] when [IsValid()] fails.  [GetScriptForDestination_unchecked] is
    the call with [false] as second argument. *)
Class AddressCollab (Addr : Type) := {
  Addr_eq_dec :: EqDecision Addr;
  CBitcoinAddress_of_string : string → option Addr;
  CBitcoinAddress_of_keyhex : string → option Addr;
  GetScriptForDestination : Addr → CScript;
  GetScriptForDestination_unchecked : Addr → CScript
}.

(** Lines 595-606: one key of [sendTo]; [setAddress] is kept as the list
    of the addresses inserted, latest first. *)
Definition add_output `{JsonCollab J} `{EntityCollab P} `{AddressCollab Addr}
    (sendTo : J) (name_ : string)
    (st : CMutableTransactionBase P * list Addr)
  : reply (CMutableTransactionBase P * list Addr) :=
  match CBitcoinAddress_of_string name_ with
  | None =>
      throw RPC_INVALID_ADDRESS_OR_KEY ("Invalid Horizen address: " +:+ name_)
  | Some address =>
      if bool_decide (address ∈ snd st) then
        throw RPC_INVALID_PARAMETER
          ("Invalid parameter, duplicated address: " +:+ name_)
      else
        nAmount ← AmountFromValue (at_key sendTo name_);
        Reply (addOut {| nValue := nAmount;
                         scriptPubKey := GetScriptForDestination address |}
                 (fst st),
               address :: snd st)
  end.

(** Lines 592-607, with the set of addresses at the end of the loop. *)
Definition add_outputs `{JsonCollab J} `{EntityCollab P} `{AddressCollab Addr}
    (rawTxObj : CMutableTransactionBase P) (sendTo : J)
  : reply (CMutableTransactionBase P * list Addr) :=
  for_all (add_output sendTo) (getKeys sendTo) (rawTxObj, []).

Definition AddOutputsToRawObject `{JsonCollab J} `{EntityCollab P}
    `{AddressCollab Addr} (rawTxObj : CMutableTransactionBase P) (sendTo : J)
  : reply (CMutableTransactionBase P) :=
  st ← add_outputs rawTxObj sendTo;
  Reply (fst st).

(** The outpoint an element of [inputs] names. *)
Definition input_of `{JsonCollab J} (input : J) (outpoint : COutPoint.t)
  : Prop :=
  ∃ o nOutput,
    get_obj input = Reply o
    ∧ ParseHashO o "txid" = Reply (COutPoint.hash outpoint)
    ∧ isNum (find_value o "vout") = true
    ∧ get_int (find_value o "vout") = Reply nOutput
    ∧ (0 ≤ nOutput)%Z
    ∧ COutPoint.n outpoint = Z.to_N nOutput.

(** The output made for the key [name_] of [sendTo], and its address. *)
Definition output_of `{JsonCollab J} `{AddressCollab Addr} (sendTo : J)
    (name_ : string) (made : Addr * CTxOut) : Prop :=
  CBitcoinAddress_of_string name_ = Some (fst made)
  ∧ AmountFromValue (at_key sendTo name_) = Reply (nValue (snd made))
  ∧ scriptPubKey (snd made) = GetScriptForDestination (fst made).

(** ** createrawtransaction (lines 668-710) *)

(** [Sidechain::AddSidechainCreationOutputs] and
    [Sidechain::AddSidechainForwardOutputs] of sc/sidechainrpc.h: the
    error string when they return false, the transaction they leave
    otherwise. *)
Class SidechainTxCollab (J : Type) := {
  AddSidechainCreationOutputs :
    list J → CMutableTransaction → string + CMutableTransaction;
  AddSidechainForwardOutputs :
    list J → CMutableTransaction → string + CMutableTransaction
}.

(** Lines 681-693 and 696-708: one optional array argument. *)
Definition add_sidechain_outputs `{JsonCollab J}
    (builder : list J → CMutableTransaction → string + CMutableTransaction)
    (params : list J) (i : nat) (rawTx : CMutableTransaction)
  : reply CMutableTransaction :=
  if bool_decide (i < length params) && negb (isNull (param params i)) then
    elements ← get_array (param params i);
    if negb (vector_empty elements) then
      match builder elements rawTx with
      | inl errString => throw RPC_TYPE_ERROR errString
      | inr rawTx' => Reply rawTx'
      end
    else Reply rawTx
  else Reply rawTx.

(** The value returned stands for its hex encoding [EncodeHexTx(rawTx)]. *)
Definition createrawtransaction `{JsonCollab J} `{EntityCollab TxPayload}
    `{AddressCollab Addr} `{SidechainTxCollab J} (params : list J)
  : reply CMutableTransaction :=
  _ ← RPCTypeCheck params [VARR; VOBJ; VARR; VARR] false;
  inputs ← get_array (param params 0);
  sendTo ← get_obj (param params 1);
  rawTx1 ← AddInputsToRawObject default_entity inputs;
  rawTx2 ← AddOutputsToRawObject rawTx1 sendTo;
  rawTx3 ← add_sidechain_outputs AddSidechainCreationOutputs params 2 rawTx2;
  add_sidechain_outputs AddSidechainForwardOutputs params 3 rawTx3.

(** ** createrawcertificate (lines 852-984) *)

(** [SC_CERT_VERSION], [uint256::SetHex], [Sidechain::AddScData] at
    [SC_PROOF_SIZE] (the error, or the bytes) and
    [libzendoomc::IsValidScProof]. *)
Class SidechainCollab := {
  SC_CERT_VERSION : Z;
  uint256_SetHex : string → uint256;
  AddScData : string → string + list byte;
  IsValidScProof : list byte → bool
}.

(** Lines 875-890: one key of [backwardOutputs]. *)
Definition add_backward_output `{JsonCollab J} `{EntityCollab P}
    `{AddressCollab Addr} (backwardOutputs : J) (name_ : string)
    (st : CMutableTransactionBase P * list Addr)
  : reply (CMutableTransactionBase P * list Addr) :=
  match CBitcoinAddress_of_keyhex name_ with
  | None =>
      throw RPC_INVALID_ADDRESS_OR_KEY ("Invalid Horizen address: " +:+ name_)
  | Some address =>
      if bool_decide (address ∈ snd st) then
        throw RPC_INVALID_PARAMETER
          ("Invalid parameter, duplicated address: " +:+ name_)
      else
        nAmount ← AmountFromValue (at_key backwardOutputs name_);
        Reply (addBwt {| nValue := nAmount;
                         scriptPubKey :=
                           GetScriptForDestination_unchecked address |}
                 (fst st),
               address :: snd st)
  end.

(** Line 900. *)
Definition validKeyArgs : list string :=
  ["scid"; "withdrawalEpochNumber"; "quality"; "endEpochBlockHash";
   "scProof"].

(** Lines 905-911: one key of [cert_params]. *)
Definition check_key (s : string) (setKeyArgs : gset string)
  : reply (gset string) :=
  if negb (bool_decide (s ∈ validKeyArgs)) then
    throw RPC_INVALID_PARAMETER ("Invalid parameter, unknown key: " +:+ s)
  else if bool_decide (s ∈ setKeyArgs) then
    throw RPC_INVALID_PARAMETER ("Duplicate key in input: " +:+ s)
  else Reply ({[s]} ∪ setKeyArgs).

(** The [else] branches of lines 920-977. *)
Definition missing_parameter {A} (key : string) : reply A :=
  throw RPC_INVALID_PARAMETER
    ("Missing mandatory parameter in input: " +:+ dquote +:+ key +:+ dquote).

(** Lines 893-982: the certificate's own fields. *)
Definition parse_cert_params `{JsonCollab J} `{SidechainCollab}
    (cert_params : J) : reply CertPayload :=
  if negb (isObject cert_params) then
    throw RPC_INVALID_PARAMETER "Invalid parameter, expected object"
  else
    setKeyArgs ← for_all check_key (getKeys cert_params) ∅;
    scId' ←
      (if bool_decide ("scid" ∈ setKeyArgs) then
         inputString ← get_str (find_value cert_params "scid");
         Reply (uint256_SetHex inputString)
       else missing_parameter "scid");
    withdrawalEpochNumber ←
      (if bool_decide ("withdrawalEpochNumber" ∈ setKeyArgs) then
         get_int (find_value cert_params "withdrawalEpochNumber")
       else missing_parameter "withdrawalEpochNumber");
    quality' ←
      (if bool_decide ("quality" ∈ setKeyArgs) then
         q ← get_int64 (find_value cert_params "quality");
         if (q <? 0)%Z then
           throw RPC_INVALID_PARAMETER
             ("Invalid parameter " +:+ dquote +:+ "quality" +:+ dquote
              +:+ ": must be a positive number")
         else Reply q
       else missing_parameter "quality");
    endEpochBlockHash' ←
      (if bool_decide ("endEpochBlockHash" ∈ setKeyArgs) then
         inputString ← get_str (find_value cert_params "endEpochBlockHash");
         Reply (uint256_SetHex inputString)
       else missing_parameter "endEpochBlockHash");
    scProof' ←
      (if bool_decide ("scProof" ∈ setKeyArgs) then
         inputString ← get_str (find_value cert_params "scProof");
         match AddScData inputString with
         | inl error => throw RPC_TYPE_ERROR ("scProof: " +:+ error)
         | inr scProofVec =>
             if negb (IsValidScProof scProofVec) then
               throw RPC_INVALID_PARAMETER
                 ("invalid cert " +:+ dquote +:+ "scProof" +:+ dquote)
             else Reply scProofVec
         end
       else missing_parameter "scProof");
    Reply {| scId := scId';
             epochNumber := withdrawalEpochNumber;
             quality := quality';
             endEpochBlockHash := endEpochBlockHash';
             scProof := scProof' |}.

(** The value returned stands for its hex encoding
    [EncodeHexCert(rawCert)]. *)
Definition createrawcertificate `{JsonCollab J} `{EntityCollab CertPayload}
    `{AddressCollab Addr} `{SidechainCollab} (params : list J)
  : reply CMutableScCertificate :=
  _ ← RPCTypeCheck params [VARR; VOBJ; VOBJ; VOBJ] false;
  inputs ← get_array (param params 0);
  standardOutputs ← get_obj (param params 1);
  backwardOutputs ← get_obj (param params 2);
  cert_params ← get_obj (param params 3);
  let rawCert :=
    {| nVersion := SC_CERT_VERSION; vin := []; vout := [];
       payload := default_payload |} in
  rawCert1 ← AddInputsToRawObject rawCert inputs;
  rawCert2 ← AddOutputsToRawObject rawCert1 standardOutputs;
  st ← for_all (add_backward_output backwardOutputs)
         (getKeys backwardOutputs) (rawCert2, []);
  fields ← parse_cert_params cert_params;
  Reply {| nVersion := nVersion (fst st); vin := vin (fst st);
           vout := vout (fst st); payload := fields |}.

(** ** sendrawtransaction and sendrawcertificate (lines 1487-1599) *)

Record CValidationState := {
  IsInvalid : bool;
  GetRejectCode : Z;
  GetRejectReason : string
}.

(** What [AcceptTxToMemoryPool] and [AcceptCertificateToMemoryPool] hand
    back: the result, the validation state, and [fMissingInputs]. *)
Record AcceptResult := {
  accepted : bool;
  state : CValidationState;
  fMissingInputs : bool
}.

(** The node as the submission calls see it, for entities of type [E]
    (transactions, certificates): [existingCoins h] is the [nHeight] of
    [pcoinsTip->AccessCoins(h)], [None] for [NULL]; [mempool_exists] is
    [mempool.exists] or [mempool.existsCert]; [DecodeHex] is [None] when
    decoding returns false. *)
Class NodeCollab (E : Type) := {
  DecodeHex : string → option E;
  GetHash : E → uint256;
  existingCoins : uint256 → option Z;
  mempool_exists : uint256 → bool;
  AcceptToMemoryPool : E → bool → bool → AcceptResult
}.

(** The calls into the node that change it, logged in call order. *)
Inductive NodeCall (E : Type) :=
| AcceptCall (e : E) (fLimitFree fRejectAbsurdFee : bool)
| RelayCall (e : E).
Arguments AcceptCall {E} e fLimitFree fRejectAbsurdFee.
Arguments RelayCall {E} e.

(** Lines 1488-1498 and 1544-1556: the entity and [fOverrideFees];
    [message] is the text thrown when decoding fails. *)
Definition decode_submission `{JsonCollab J} `{NodeCollab E}
    (params : list J) (message : string) : reply (E * bool) :=
  _ ← RPCTypeCheck params [VSTR; VBOOL] false;
  hex ← get_str (param params 0);
  match DecodeHex hex with
  | None => throw RPC_DESERIALIZATION_ERROR message
  | Some e =>
      fOverrideFees ←
        (if bool_decide (1 < length params) then get_bool (param params 1)
         else Reply false);
      Reply (e, fOverrideFees)
  end.

(** Lines 1500-1523, with the calls made. *)
Definition submit_transaction `{HashCollab} `{FormatCollab} `{NodeCollab E}
    (tx : E) (fOverrideFees : bool) : list (NodeCall E) * reply string :=
  let hashTx := GetHash tx in
  let fHaveMempool := mempool_exists hashTx in
  let fHaveChain :=
    match existingCoins hashTx with
    | Some coinsHeight => (coinsHeight <? 1000000000)%Z
    | None => false
    end in
  if negb fHaveMempool && negb fHaveChain then
    let r := AcceptToMemoryPool tx false (negb fOverrideFees) in
    if negb (accepted r) then
      ([AcceptCall tx false (negb fOverrideFees)],
       if IsInvalid (state r) then
         throw RPC_TRANSACTION_REJECTED
           (format_d (GetRejectCode (state r)) +:+ ": "
            +:+ GetRejectReason (state r))
       else if fMissingInputs r then
         throw RPC_TRANSACTION_ERROR "Missing inputs"
       else throw RPC_TRANSACTION_ERROR (GetRejectReason (state r)))
    else
      ([AcceptCall tx false (negb fOverrideFees); RelayCall tx],
       Reply (GetHex hashTx))
  else if fHaveChain then
    ([], throw RPC_TRANSACTION_ALREADY_IN_CHAIN
           "transaction already in block chain")
  else ([RelayCall tx], Reply (GetHex hashTx)).

(** Lines 1559-1599, with the calls made. *)
Definition submit_certificate `{HashCollab} `{FormatCollab} `{NodeCollab E}
    (cert : E) (fOverrideFees : bool) : list (NodeCall E) * reply string :=
  let hashCertificate := GetHash cert in
  let fHaveChain :=
    match existingCoins hashCertificate with
    | Some _ => true
    | None => false
    end in
  let fHaveMempool := mempool_exists hashCertificate in
  if negb fHaveMempool && negb fHaveChain then
    let r := AcceptToMemoryPool cert false (negb fOverrideFees) in
    if negb (accepted r) then
      ([AcceptCall cert false (negb fOverrideFees)],
       if IsInvalid (state r) then
         throw RPC_TRANSACTION_REJECTED
           (format_d (GetRejectCode (state r)) +:+ ": "
            +:+ GetRejectReason (state r))
       else if fMissingInputs r then
         throw RPC_TRANSACTION_ERROR "Missing inputs"
       else throw RPC_TRANSACTION_ERROR "certificate not accepted to mempool")
    else
      ([AcceptCall cert false (negb fOverrideFees); RelayCall cert],
       Reply (GetHex hashCertificate))
  else if fHaveChain then
    ([], throw RPC_TRANSACTION_ALREADY_IN_CHAIN
           "certificate already in block chain")
  else ([RelayCall cert], Reply (GetHex hashCertificate)).

Definition sendrawtransaction `{JsonCollab J} `{HashCollab} `{FormatCollab}
    `{NodeCollab E} (params : list J) : list (NodeCall E) * reply string :=
  match decode_submission params "TX decode failed" with
  | Reply (tx, fOverrideFees) => submit_transaction tx fOverrideFees
  | Raise e => ([], Raise e)
  | NoReply => ([], NoReply)
  end.

Definition sendrawcertificate `{JsonCollab J} `{HashCollab} `{FormatCollab}
    `{NodeCollab E} (params : list J) : list (NodeCall E) * reply string :=
  match decode_submission params "Certificate decode failed" with
  | Reply (cert, fOverrideFees) => submit_certificate cert fOverrideFees
  | Raise e => ([], Raise e)
  | NoReply => ([], NoReply)
  end.

(** What the two submission calls have in common: an id is returned only
    for an entity that decoded, is not in the chain ([in_chain]) and is in
    the memory pool, already or by this call's acceptance, and the relay
    is then the last call made; a call that returns no id relays
    nothing. *)
Definition replied_and_relayed `{JsonCollab J} `{HashCollab} `{NodeCollab E}
    (params : list J) (message : string) (in_chain : uint256 → bool)
    (run : list (NodeCall E) * reply string) : Prop :=
  (∀ h, snd run = Reply h →
     ∃ e fOverrideFees,
       decode_submission params message = Reply (e, fOverrideFees)
       ∧ h = GetHex (GetHash e)
       ∧ in_chain (GetHash e) = false
       ∧ ((mempool_exists (GetHash e) = true ∧ fst run = [RelayCall e])
          ∨ (mempool_exists (GetHash e) = false
             ∧ accepted (AcceptToMemoryPool e false (negb fOverrideFees))
               = true
             ∧ fst run = [AcceptCall e false (negb fOverrideFees);
                          RelayCall e])))
  ∧ ((∀ h, snd run ≠ Reply h) → ∀ e, RelayCall e ∉ fst run).

(** ** Sample collaborators for the calls around the loops *)

Module SampleRpc.

(** Streams in which an entity is one byte other than [0xff]: the lock
    time of a transaction, the amount of a certificate's one output. *)
Definition tx_of_byte (b : byte) : CMutableTransaction :=
  Sample.tx [] [] (Byte.to_N b).

Definition encode_tx (t : CMutableTransaction) : list byte :=
  [default x00 (Byte.of_N (nLockTime (payload t)))].

Definition tx_stream : StreamCollab TxPayload :=
  {| Unserialize_entity := λ s,
       match s with
       | b :: rest =>
           if Byte.eqb b xff then None else Some (tx_of_byte b, rest)
       | [] => None
       end |}.

Definition cert_of_byte (b : byte) : CMutableScCertificate :=
  Sample.cert [] [Sample.txout (Z.of_N (Byte.to_N b))].

Definition encode_cert (c : CMutableScCertificate) : list byte :=
  match vout c with
  | [o] => [default x00 (Byte.of_N (Z.to_N (nValue o)))]
  | _ => [xff]
  end.

Definition cert_stream : StreamCollab CertPayload :=
  {| Unserialize_entity := λ s,
       match s with
       | b :: rest =>
           if Byte.eqb b xff then None else Some (cert_of_byte b, rest)
       | [] => None
       end |}.

Definition format : FormatCollab := {| format_d := pretty |}.

(** Inputs start with an empty script and the final sequence number;
    outputs and backward transfers are appended. *)
Definition push_back_vout {P} (o : CTxOut) (t : CMutableTransactionBase P)
  : CMutableTransactionBase P :=
  {| nVersion := nVersion t; vin := vin t; vout := vout t ++ [o];
     payload := payload t |}.

Definition entity {P} (version : Z) (fields : P) : EntityCollab P :=
  {| CTxIn_of := λ outpoint,
       {| prevout := outpoint; scriptSig := []; nSequence := 4294967295 |};
     addOut := push_back_vout;
     addBwt := push_back_vout;
     default_nVersion := version;
     default_payload := fields |}.

(** An address is its string; the valid ones start with [zt]. *)
Definition addresses : AddressCollab string :=
  {| CBitcoinAddress_of_string := λ s,
       if String.prefix "zt" s then Some s else None;
     CBitcoinAddress_of_keyhex := λ s, Some s;
     GetScriptForDestination := λ _, [x76; xa9];
     GetScriptForDestination_unchecked := λ _, [x76; xa9] |}.

Definition sidechain : SidechainCollab :=
  {| SC_CERT_VERSION := -5;
     uint256_SetHex := λ s, Sample.hex_value s 0;
     AddScData := λ s,
       match SampleJson.parse_hex s with
       | Some bs => inr bs
       | None => inl "Invalid scProof format: not an hex"
       end;
     IsValidScProof := λ bs, negb (vector_empty bs) |}.

Definition input (txid : string) (vout : Z) : SampleJson.json :=
  SampleJson.JObj [("txid", SampleJson.JStr txid);
                   ("vout", SampleJson.JNum vout)].

(** The arguments of a createrawcertificate call. *)
Definition cert_call : list SampleJson.json :=
  [ SampleJson.JArr [input Sample.id_A 0];
    SampleJson.JObj [("ztChange", SampleJson.JNum 4)];
    SampleJson.JObj [("0a0b", SampleJson.JNum 6)];
    SampleJson.JObj [("quality", SampleJson.JNum 0);
                     ("scid", SampleJson.JStr "07");
                     ("scProof", SampleJson.JStr "abcd");
                     ("withdrawalEpochNumber", SampleJson.JNum 3);
                     ("endEpochBlockHash", SampleJson.JStr "09")] ].

Definition cert_made : CMutableScCertificate :=
  {| nVersion := -5;
     vin := [Sample.txin 10 0 []];
     vout := [ {| nValue := 4; scriptPubKey := [x76; xa9] |};
               {| nValue := 6; scriptPubKey := [x76; xa9] |} ];
     payload := {| scId := 7; epochNumber := 3; quality := 0;
                   endEpochBlockHash := 9; scProof := [xab; xcd] |} |}.

(** A node that has transaction 1 in the chain and transaction 2 in the
    memory pool, and accepts transaction 3 only. *)
Definition node : NodeCollab CMutableTransaction :=
  {| DecodeHex := λ s,
       match SampleJson.parse_hex s with
       | Some [b] => Some (tx_of_byte b)
       | _ => None
       end;
     GetHash := λ t, nLockTime (payload t);
     existingCoins := λ h, if (h =? 1)%N then Some 7%Z else None;
     mempool_exists := λ h, (h =? 2)%N;
     AcceptToMemoryPool := λ t _ _,
       {| accepted := (nLockTime (payload t) =? 3)%N;
          state := {| IsInvalid := true; GetRejectCode := 16;
                      GetRejectReason := "bad-txns-inputs-spent" |};
          fMissingInputs := false |} |}.

(** Sidechain builders that refuse whatever they are given. *)
Definition no_sidechain : SidechainTxCollab SampleJson.json :=
  {| AddSidechainCreationOutputs := λ _ _, inl "invalid creation";
     AddSidechainForwardOutputs := λ _ _, inl "invalid forward transfer" |}.

(** The arguments of a createrawtransaction call: one input, two
    addresses, a null third and an empty fourth argument. *)
Definition tx_call : list SampleJson.json :=
  [ SampleJson.JArr [input Sample.id_A 2];
    SampleJson.JObj [("ztA", SampleJson.JNum 5); ("ztB", SampleJson.JNum 7)];
    SampleJson.JNull;
    SampleJson.JArr [] ].

(** A chain state that knows the block [b] under [Sample.hash_of_block]
    and can read it, with an empty active chain. *)
Definition stale_chain (b : CBlock) : ChainState :=
  {| mapBlockIndex := mapBlockIndex (Sample.chain_with b);
     chainActive_Height := 0;
     chainActive_at := λ _, None;
     chainActive_Contains := λ _, false;
     pcoinsTip_GetCoins := λ _, None;
     GetTransaction := λ _, None;
     ReadBlockFromDisk := ReadBlockFromDisk (Sample.chain_with b) |}.

End SampleRpc.

(** ** The working entity during a loop

    Both loops go through the inputs in order and change, at step [i],
    nothing but the script of input [i].  When a loop has ended with the
    entity [final], the entity it worked on before step [i] has the
    first [i] inputs of [final] and the other inputs of the entity the
    loop started from. *)
Definition working_at {P} (tx0 final : CMutableTransactionBase P) (i : nat)
  : CMutableTransactionBase P :=
  {| nVersion := nVersion tx0;
     vin := take i (vin final) ++ drop i (vin tx0);
     vout := vout tx0;
     payload := payload tx0 |}.

(** The error entries of one step, lines 1432-1435 and 1447-1450 (and
    1191-1194, 1205-1208), from the entity before and after the step: the
    entry of the resolution step when the output of input [i] does not
    resolve, and the entry of [VerifyScript], if any, when it does. *)
Definition errors_step `{ScriptCollab P} (view : gmap uint256 CCoins) (i : nat)
    (before after : CMutableTransactionBase P) : list TxInError :=
  match vin before !! i with
  | Some txin =>
      match prevPubKey view txin with
      | None => TxInErrorToJSON txin [] "Input not found or already spent"
      | Some pubKey => verify_input pubKey i after []
      end
  | None => []
  end.

(** The error entries of step [i] of a loop that started from [tx0] and
    ended with [final]. *)
Definition errors_at `{ScriptCollab P} (view : gmap uint256 CCoins)
    (tx0 final : CMutableTransactionBase P) (i : nat) : list TxInError :=
  errors_step view i (working_at tx0 final i) (working_at tx0 final (S i)).

(** A loop body that pushes the entries of [errors_step] and no other. *)
Definition step_errors `{ScriptCollab P} (view : gmap uint256 CCoins)
    (body : nat → SignState P → option (SignState P)) : Prop :=
  ∀ i st st',
    body i st = Some st' →
    vErrors st' = vErrors st ++ errors_step view i (merged st) (merged st').

(** * Properties *)

(** ** Backward-transfer decoding *)

Section BackwardTransferFacts.
Context `{ScriptOpcodes}.

Lemma std_find_None (s : CScript) :
  std_find s = None ↔ ∀ b, b ∈ s → b ≠ OP_HASH160.
Proof.
  induction s as [|b s IH]; simpl.
  - split; [intros _ b Hb | done]. by apply elem_of_nil in Hb.
  - destruct (Byte.eqb b OP_HASH160) eqn:E.
    + apply Byte.byte_dec_bl in E. split; [done |].
      intros Hall. destruct (Hall b); [left | done].
    + apply Byte.eqb_false in E.
      destruct (std_find s); simpl.
      * split; [done |]. intros Hall. exfalso.
        assert (Some n = None) as Hn; [| done].
        apply IH. intros c Hc. apply Hall. by right.
      * split; [| done]. intros _ c Hc.
        apply elem_of_cons in Hc as [-> | Hc]; [done |].
        by apply IH.
Qed.

Lemma std_find_Some (s : CScript) (pos : nat) :
  std_find s = Some pos →
  s !! pos = Some OP_HASH160 ∧ ∀ b, b ∈ take pos s → b ≠ OP_HASH160.
Proof.
  revert pos. induction s as [|b s IH]; intros pos; simpl; [done |].
  destruct (Byte.eqb b OP_HASH160) eqn:E.
  - apply Byte.byte_dec_bl in E. intros [= <-]. simpl. split; [by rewrite E |].
    intros c Hc. by apply elem_of_nil in Hc.
  - apply Byte.eqb_false in E.
    destruct (std_find s) as [q|] eqn:Hq; simpl; [| done].
    intros [= <-]. destruct (IH q eq_refl) as [Hl Hall]. split; [done |].
    simpl. intros c Hc. apply elem_of_cons in Hc as [-> | Hc]; [done |].
    by apply Hall.
Qed.

(** No marker in the script: the decode-error string. *)
Lemma pkhStr_no_marker (s : CScript) :
  (∀ b, b ∈ s → b ≠ OP_HASH160) → pkhStr s = Returned "<<Decode error>>".
Proof.
  intros Hall. unfold pkhStr. by apply std_find_None in Hall as ->.
Qed.

(** Marker found and twenty bytes present two positions further: the hex
    of those bytes in reverse order. *)
Lemma pkhStr_marker (front pkh back : CScript) (len : byte) :
  (∀ b, b ∈ front → b ≠ OP_HASH160) →
  length pkh = sizeof_uint160 →
  pkhStr (front ++ OP_HASH160 :: len :: pkh ++ back)
  = Returned (HexStr (rev pkh)).
Proof.
  intros Hfront Hlen. unfold pkhStr.
  assert (std_find (front ++ OP_HASH160 :: len :: pkh ++ back)
          = Some (length front)) as ->.
  { clear Hlen. induction front as [|b front IH]; simpl.
    - assert (Byte.eqb OP_HASH160 OP_HASH160 = true) as ->; [| done].
      by apply Byte.byte_dec_lb.
    - destruct (Byte.eqb b OP_HASH160) eqn:E.
      + apply Byte.byte_dec_bl in E. destruct (Hfront b); [left | done].
      + rewrite IH; [done |]. intros c Hc. apply Hfront. by right. }
  simpl. rewrite decide_True.
  2:{ rewrite length_app. simpl. rewrite length_app. lia. }
  do 2 f_equal.
  replace (length front + 2) with (length (front ++ [OP_HASH160; len])).
  2:{ rewrite length_app. simpl. lia. }
  replace (front ++ OP_HASH160 :: len :: pkh ++ back)
    with ((front ++ [OP_HASH160; len]) ++ pkh ++ back).
  2:{ by rewrite <- app_assoc. }
  rewrite drop_app_length. rewrite <- Hlen. by rewrite take_app_length.
Qed.

(** For a backward-transfer output whose script consists of the marker
    [OP_HASH160] alone, the decode does not yield a decode-error string:
    the twenty bytes are read from beyond the end of the script, which is
    undefined. *)
Lemma pkhStr_truncated_undefined :
  pkhStr [OP_HASH160] = Undefined
  ∧ ∀ nValue,
      backward_transfer_pairs true
        {| nValue := nValue; scriptPubKey := [OP_HASH160] |}
      = Undefined.
Proof.
  assert (pkhStr [OP_HASH160] = Undefined) as Hpkh.
  { unfold pkhStr. simpl.
    assert (Byte.eqb OP_HASH160 OP_HASH160 = true) as ->.
    { by apply Byte.byte_dec_lb. }
    reflexivity. }
  split; [done |]. intros v. unfold backward_transfer_pairs. simpl.
  by rewrite Hpkh.
Qed.

(** Any script with the marker and fewer than twenty-two bytes from it on
    is read out of range. *)
Lemma pkhStr_short_undefined (s : CScript) (pos : nat) :
  std_find s = Some pos → length s < pos + 2 + sizeof_uint160 →
  pkhStr s = Undefined.
Proof.
  intros Hfind Hlen. unfold pkhStr. rewrite Hfind. simpl.
  rewrite decide_False; [done | lia].
Qed.

End BackwardTransferFacts.




(** A pay-to-public-key-hash script: the hash comes out byte-reversed. *)
Example pkhStr_p2pkh :
  @pkhStr Sample.opcodes
    [x76; xa9; x14;
     x01; x02; x03; x04; x05; x06; x07; x08; x09; x0a;
     x0b; x0c; x0d; x0e; x0f; x10; x11; x12; x13; x14;
     x88; xac]
  = Returned "14131211100f0e0d0c0b0a090807060504030201".
Proof. reflexivity. Qed.

Example pkhStr_no_hash160 :
  @pkhStr Sample.opcodes [x76; x88; xac] = Returned "<<Decode error>>".
Proof. reflexivity. Qed.

Example pkhStr_cut_short :
  @pkhStr Sample.opcodes [x76; xa9; x14; x01; x02; x03] = Undefined.
Proof. reflexivity. Qed.

(** ** The signing loops *)

Section SigningFacts.
Context {P : Type} `{!ScriptCollab P}.
Implicit Types (tx : CMutableTransactionBase P) (st : SignState P).
Implicit Types (view : gmap uint256 CCoins) (txin : CTxIn).

(** *** Assignment to one input's script *)

Lemma vin_set_scriptSig_ne i j s tx :
  i ≠ j → vin (set_scriptSig i s tx) !! j = vin tx !! j.
Proof. intros Hne. simpl. by apply list_lookup_alter_ne. Qed.

Lemma vin_set_scriptSig_eq i s tx txin :
  vin tx !! i = Some txin →
  vin (set_scriptSig i s tx) !! i
  = Some {| prevout := prevout txin; scriptSig := s;
            nSequence := nSequence txin |}.
Proof. intros Hi. simpl. rewrite list_lookup_alter_eq. by rewrite Hi. Qed.

Lemma length_vin_set_scriptSig i s tx :
  length (vin (set_scriptSig i s tx)) = length (vin tx).
Proof. simpl. apply length_alter. Qed.

Lemma prevout_set_scriptSig i j s tx :
  prevout <$> vin (set_scriptSig i s tx) !! j = prevout <$> vin tx !! j.
Proof.
  destruct (decide (i = j)) as [<- | Hne].
  - simpl. rewrite list_lookup_alter_eq. by destruct (vin tx !! i).
  - by rewrite vin_set_scriptSig_ne.
Qed.

(** Resolution looks at the outpoint only. *)
Lemma prevPubKey_prevout view txin txin' :
  prevout txin = prevout txin' → prevPubKey view txin = prevPubKey view txin'.
Proof. intros Heq. unfold prevPubKey. by rewrite Heq. Qed.

Lemma same_but_script_refl i tx : same_but_script i tx tx.
Proof. by split_and!. Qed.

Lemma same_but_script_trans i tx1 tx2 tx3 :
  same_but_script i tx1 tx2 → same_but_script i tx2 tx3 →
  same_but_script i tx1 tx3.
Proof.
  intros (A1 & A2 & A3 & A4 & A5 & A6 & A7) (B1 & B2 & B3 & B4 & B5 & B6 & B7).
  split_and!; try congruence.
  intros j Hj. rewrite B7; auto.
Qed.

Lemma same_but_script_set i s tx : same_but_script i tx (set_scriptSig i s tx).
Proof.
  split_and!; try done.
  - apply length_vin_set_scriptSig.
  - intros j. apply prevout_set_scriptSig.
  - intros j. destruct (decide (i = j)) as [<- | Hne].
    + simpl. rewrite list_lookup_alter_eq. by destruct (vin tx !! i).
    + by rewrite vin_set_scriptSig_ne.
  - intros j Hj. by apply vin_set_scriptSig_ne.
Qed.

(** *** The merge step *)

Lemma merge_variants_Some pubKey i txVariants tx :
  is_Some (merge_variants pubKey i txVariants tx)
  ↔ Forall (λ txv, i < length (vin txv)) txVariants.
Proof.
  revert tx. induction txVariants as [|txv rest IH]; intros tx; simpl.
  - split; [constructor | eauto].
  - destruct (vin txv !! i) as [vtxin|] eqn:Hv.
    + rewrite IH. apply lookup_lt_Some in Hv. split.
      * by constructor.
      * by inversion 1.
    + apply lookup_ge_None in Hv. split.
      * by intros [? ?].
      * inversion 1; subst. lia.
Qed.

Lemma merge_variants_same pubKey i txVariants tx tx' :
  merge_variants pubKey i txVariants tx = Some tx' → same_but_script i tx tx'.
Proof.
  revert tx. induction txVariants as [|txv rest IH]; intros tx; simpl.
  - intros [= <-]. apply same_but_script_refl.
  - destruct (vin txv !! i); [| done]. intros Hm.
    eapply same_but_script_trans; [apply same_but_script_set |].
    by apply IH in Hm.
Qed.

(** *** Verification appends at most one entry *)

Lemma verify_input_errors pubKey i tx errs :
  verify_input pubKey i tx errs = errs
  ∨ ∃ txin serror,
      vin tx !! i = Some txin
      ∧ VerifyScript (scriptSig_at tx i) pubKey tx i = (false, serror)
      ∧ verify_input pubKey i tx errs
        = TxInErrorToJSON txin errs (ScriptErrorString serror).
Proof.
  unfold verify_input.
  destruct (VerifyScript (scriptSig_at tx i) pubKey tx i) as [[|] serror] eqn:E;
    [by left |].
  destruct (vin tx !! i) as [txin|]; [| by left].
  right. by exists txin, serror.
Qed.

(** *** One iteration *)

Lemma verify_input_app pubKey i tx errs :
  ∃ es, verify_input pubKey i tx errs = errs ++ es
        ∧ length es ≤ 1 ∧ Forall error_origin es.
Proof.
  destruct (verify_input_errors pubKey i tx errs)
    as [-> | (txin & serror & Hin & Hv & ->)].
  - exists []. rewrite app_nil_r. split_and!; [done | simpl; lia | constructor].
  - eexists. split_and!; [reflexivity | simpl; lia |].
    constructor; [| constructor]. right. simpl. eauto 10.
Qed.

Lemma sign_tx_input_spec view keystore nHashType txVariants :
  step_spec view (sign_tx_input view keystore nHashType txVariants).
Proof.
  split.
  - intros i st txin Hi Hnone. unfold sign_tx_input. by rewrite Hi, Hnone.
  - intros i st st'. unfold sign_tx_input.
    destruct (vin (merged st) !! i) as [txin|] eqn:Hi; [| done].
    destruct (prevPubKey view txin) as [pubKey|] eqn:Hres.
    + set (tx1 := set_scriptSig i [] (merged st)).
      set (sign := negb (fHashSingle nHashType)
                   || bool_decide (i < length (vout tx1))).
      set (tx2 := if sign then _ else tx1).
      destruct (merge_variants pubKey i txVariants tx2) as [tx3|] eqn:Hm;
        [| done].
      intros [= <-]. simpl. split; [| apply verify_input_app].
      apply merge_variants_same in Hm.
      eapply same_but_script_trans; [| exact Hm].
      eapply same_but_script_trans; [apply same_but_script_set |].
      subst tx2. destruct sign;
        [apply same_but_script_set | apply same_but_script_refl].
    + intros [= <-]. simpl. split; [apply same_but_script_refl |].
      eexists. split_and!; [reflexivity | simpl; lia |].
      constructor; [by left | constructor].
Qed.

Lemma sign_cert_input_spec view keystore :
  step_spec view (sign_cert_input view keystore).
Proof.
  split.
  - intros i st txin Hi Hnone. unfold sign_cert_input. by rewrite Hi, Hnone.
  - intros i st st'. unfold sign_cert_input.
    destruct (vin (merged st) !! i) as [txin|] eqn:Hi; [| done].
    destruct (prevPubKey view txin) as [pubKey|] eqn:Hres.
    + intros [= <-]. simpl. split; [| apply verify_input_app].
      eapply same_but_script_trans; apply same_but_script_set.
    + intros [= <-]. simpl. split; [apply same_but_script_refl |].
      eexists. split_and!; [reflexivity | simpl; lia |].
      constructor; [by left | constructor].
Qed.

(** *** The loop, for any body with [step_spec] *)

Section Loop.
Variable view : gmap uint256 CCoins.
Variable body : nat → SignState P → option (SignState P).
Hypothesis body_spec : step_spec view body.

Lemma for_each_frame indices st st' :
  for_each body indices st = Some st' →
  vout (merged st') = vout (merged st)
  ∧ length (vin (merged st')) = length (vin (merged st))
  ∧ (∀ j, prevout <$> vin (merged st') !! j
          = prevout <$> vin (merged st) !! j)
  ∧ (∀ j, j ∉ indices → vin (merged st') !! j = vin (merged st) !! j)
  ∧ ∃ es, vErrors st' = vErrors st ++ es
          ∧ length es ≤ length indices ∧ Forall error_origin es.
Proof.
  revert st. induction indices as [|i rest IH]; intros st; simpl.
  - intros [= <-]. split_and!; try done.
    exists []. rewrite app_nil_r. split_and!; [done | simpl; lia | constructor].
  - destruct (body i st) as [st1|] eqn:Hstep; [| done]. intros Hrest.
    destruct body_spec as [_ Hframe].
    destruct (Hframe _ _ _ Hstep)
      as ((A1 & _ & _ & A4 & A5 & _ & A7) & es1 & E1 & L1 & O1).
    destruct (IH _ Hrest) as (B1 & B4 & B5 & B7 & es2 & E2 & L2 & O2).
    split_and!; try congruence.
    + intros j Hj. apply not_elem_of_cons in Hj as [Hji Hj].
      rewrite B7, A7; done.
    + exists (es1 ++ es2). split_and!.
      * by rewrite E2, E1, app_assoc.
      * rewrite length_app. simpl. lia.
      * by apply Forall_app.
Qed.

(** An input that does not resolve keeps the script it came with and gets
    its entry, wherever it stands in the loop. *)
Lemma for_each_unresolved indices st st' i txin :
  for_each body indices st = Some st' →
  vin (merged st) !! i = Some txin → prevPubKey view txin = None →
  vin (merged st') !! i = Some txin
  ∧ (i ∈ indices → not_found_entry txin ∈ vErrors st').
Proof.
  revert st. induction indices as [|k rest IH]; intros st; simpl.
  - intros [= <-] Hi _. split; [done |]. intros Hin. by apply elem_of_nil in Hin.
  - destruct (body k st) as [st1|] eqn:Hstep; [| done].
    intros Hrest Hi Hnone.
    destruct body_spec as [Hskip Hframe].
    destruct (decide (k = i)) as [-> | Hne].
    + rewrite (Hskip _ _ _ Hi Hnone) in Hstep. injection Hstep as <-.
      destruct (IH _ Hrest Hi Hnone) as [Hkeep _]. split; [done |].
      intros _. destruct (for_each_frame _ _ _ Hrest) as (_ & _ & _ & _ & es & E & _).
      rewrite E. simpl. apply elem_of_app. left. apply elem_of_app. right.
      by apply list_elem_of_singleton.
    + destruct (Hframe _ _ _ Hstep) as ((_ & _ & _ & _ & _ & _ & A7) & _).
      assert (vin (merged st1) !! i = Some txin) as Hi1.
      { by rewrite A7. }
      destruct (IH _ Hrest Hi1 Hnone) as [Hkeep Hentry]. split; [done |].
      intros Hin. apply Hentry. by apply elem_of_cons in Hin as [-> | Hin].
Qed.

(** When no input resolves, the loop runs to its end, changes nothing in
    the entity, calls no signer, and pushes one entry per index. *)
Lemma for_each_all_unresolved indices st :
  (∀ i, i ∈ indices → unresolved_at view (merged st) i) →
  ∃ st', for_each body indices st = Some st'
         ∧ merged st' = merged st
         ∧ signCalls st' = signCalls st
         ∧ vErrors st'
           = vErrors st
             ++ omap (λ i, not_found_entry <$> vin (merged st) !! i) indices.
Proof.
  revert st. induction indices as [|i rest IH]; intros st Hall; simpl.
  - exists st. split_and!; try done. by rewrite app_nil_r.
  - destruct (Hall i) as (txin & Hi & Hnone); [by left |].
    destruct body_spec as [Hskip _]. rewrite (Hskip _ _ _ Hi Hnone).
    set (st1 := {| merged := merged st;
                   vErrors := vErrors st ++ [not_found_entry txin];
                   signCalls := signCalls st |}).
    assert (∀ j, j ∈ rest → unresolved_at view (merged st1) j) as Hrest.
    { intros j Hj. apply Hall. by right. }
    destruct (IH st1 Hrest) as (st' & Hrun & Hm & Hc & He).
    exists st'. split; [exact Hrun |]. simpl in *.
    split_and!; [done | done |]. rewrite He, Hi. simpl.
    by rewrite <- app_assoc.
Qed.

Lemma for_each_app indices1 indices2 st :
  for_each body (indices1 ++ indices2) st
  = for_each body indices1 st ≫= for_each body indices2.
Proof.
  revert st. induction indices1 as [|i rest IH]; intros st; simpl; [done |].
  destruct (body i st); simpl; [apply IH | done].
Qed.

End Loop.

Lemma omap_lookup_seq {A B} (f : A → B) (pre l : list A) :
  omap (λ i, f <$> (pre ++ l) !! i) (seq (length pre) (length l)) = map f l.
Proof.
  revert pre. induction l as [|x l IH]; intros pre; simpl; [done |].
  rewrite list_lookup_middle; [| done]. simpl. f_equal.
  specialize (IH (pre ++ [x])). rewrite <- app_assoc in IH. simpl in IH.
  rewrite length_app in IH. simpl in IH.
  by replace (length pre + 1) with (S (length pre)) in IH by lia.
Qed.

Lemma elem_of_seq_0 (n i : nat) : i ∈ seq 0 n ↔ i < n.
Proof. rewrite elem_of_seq. lia. Qed.

(** *** Both loops when no input resolves *)

Lemma loop_all_unresolved view body (tx : CMutableTransactionBase P) :
  step_spec view body →
  (∀ txin, txin ∈ vin tx → prevPubKey view txin = None) →
  for_each body (seq 0 (length (vin tx))) (initial_state tx)
  = Some {| merged := tx;
            vErrors := map not_found_entry (vin tx);
            signCalls := [] |}.
Proof.
  intros Hspec Hall.
  destruct (for_each_all_unresolved view body Hspec
              (seq 0 (length (vin tx))) (initial_state tx))
    as (st' & Hrun & Hm & Hc & He).
  { intros i Hi. apply elem_of_seq_0 in Hi.
    apply lookup_lt_is_Some in Hi as [txin Htxin].
    exists txin. split; [done |]. apply Hall.
    by apply list_elem_of_lookup_2 in Htxin. }
  rewrite Hrun. f_equal. destruct st' as [m e c]. simpl in *. subst.
  f_equal. apply (omap_lookup_seq not_found_entry [] (vin tx)).
Qed.

(** *** When the transaction loop is defined *)

Lemma sign_tx_input_is_Some view keystore nHashType txVariants i st txin :
  vin (merged st) !! i = Some txin →
  is_Some (sign_tx_input view keystore nHashType txVariants i st)
  ↔ (is_Some (prevPubKey view txin) →
     Forall (λ txv, i < length (vin txv)) txVariants).
Proof.
  intros Hi. unfold sign_tx_input. rewrite Hi.
  destruct (prevPubKey view txin) as [pubKey|].
  - cbv zeta.
    match goal with
    | |- context [merge_variants pubKey i txVariants ?t] => set (tx2 := t)
    end.
    rewrite <- (merge_variants_Some pubKey i txVariants tx2).
    destruct (merge_variants pubKey i txVariants tx2).
    + split; eauto.
    + split; [by intros [? ?] | intros Hm].
      destruct Hm as [? ?]; [eauto | done].
  - split; [by intros _ [? ?] | eauto].
Qed.

Lemma for_each_sign_tx_is_Some view keystore nHashType txVariants indices st :
  (∀ i, i ∈ indices → i < length (vin (merged st))) →
  is_Some (for_each (sign_tx_input view keystore nHashType txVariants)
             indices st)
  ↔ (∀ i txin, i ∈ indices → vin (merged st) !! i = Some txin →
       is_Some (prevPubKey view txin) →
       Forall (λ txv, i < length (vin txv)) txVariants).
Proof.
  revert st. induction indices as [|k rest IH]; intros st Hlt; simpl.
  - split; [| eauto]. intros _ i txin Hi. by apply elem_of_nil in Hi.
  - destruct (lookup_lt_is_Some_2 (vin (merged st)) k) as [txk Hk].
    { apply Hlt. by left. }
    pose proof (sign_tx_input_is_Some view keystore nHashType txVariants
                  k st txk Hk) as Hstep.
    destruct (sign_tx_input view keystore nHashType txVariants k st)
      as [st1|] eqn:Hbody.
    + destruct (sign_tx_input_spec view keystore nHashType txVariants)
        as [_ Hframe].
      destruct (Hframe _ _ _ Hbody) as ((_ & _ & _ & A4 & A5 & _ & _) & _).
      rewrite IH.
      2:{ intros i Hi. rewrite A4. apply Hlt. by right. }
      split.
      * intros Hrest i txin Hi Hin Hres.
        apply elem_of_cons in Hi as [-> | Hi].
        { rewrite Hk in Hin. injection Hin as <-. apply Hstep; eauto. }
        pose proof (A5 i) as Hp. rewrite Hin in Hp.
        destruct (vin (merged st1) !! i) as [txin1|] eqn:Hin1; [| done].
        injection Hp as Hp.
        apply (Hrest i txin1); [done | done |].
        by rewrite (prevPubKey_prevout view txin1 txin).
      * intros Hall i txin1 Hi Hin1 Hres.
        pose proof (A5 i) as Hp. rewrite Hin1 in Hp.
        destruct (vin (merged st) !! i) as [txin|] eqn:Hin; [| done].
        injection Hp as Hp.
        apply (Hall i txin); [by right | done |].
        by rewrite (prevPubKey_prevout view txin txin1).
    + split; [by intros [? ?] |]. intros Hall. exfalso.
      assert (is_Some (None : option (SignState P))) as [? ?]; [| done].
      apply Hstep. intros Hres. apply (Hall k txk); [by left | done | done].
Qed.

(** *** Which inputs the signer is called for *)

Lemma should_sign_frame view nHashType tx tx' i :
  vout tx' = vout tx →
  prevout <$> vin tx' !! i = prevout <$> vin tx !! i →
  should_sign view nHashType tx' i = should_sign view nHashType tx i.
Proof.
  intros Hvout Hp. unfold should_sign. rewrite Hvout.
  destruct (vin tx' !! i) as [txin'|], (vin tx !! i) as [txin|]; try done.
  injection Hp as Hp. by rewrite (prevPubKey_prevout view txin' txin).
Qed.

Lemma sign_tx_input_calls view keystore nHashType txVariants i st st' :
  sign_tx_input view keystore nHashType txVariants i st = Some st' →
  signCalls st'
  = signCalls st
    ++ (if should_sign view nHashType (merged st) i then [i] else []).
Proof.
  unfold sign_tx_input, should_sign.
  destruct (vin (merged st) !! i) as [txin|]; [| done].
  destruct (prevPubKey view txin) as [pubKey|].
  - rewrite (bool_decide_eq_true_2 (is_Some (Some pubKey))); [| by eexists].
    cbv zeta. simpl.
    set (sign := negb (fHashSingle nHashType) || _).
    match goal with
    | |- context [merge_variants pubKey i txVariants ?t] => set (tx2 := t)
    end.
    destruct (merge_variants pubKey i txVariants tx2); [| done].
    intros [= <-]. simpl. destruct sign; [done | by rewrite app_nil_r].
  - intros [= <-]. simpl. by rewrite app_nil_r.
Qed.

Lemma for_each_sign_tx_calls view keystore nHashType txVariants indices st st' :
  for_each (sign_tx_input view keystore nHashType txVariants) indices st
  = Some st' →
  signCalls st'
  = signCalls st ++ filter (λ i, should_sign view nHashType (merged st) i)
                      indices.
Proof.
  revert st. induction indices as [|k rest IH]; intros st; simpl.
  - intros [= <-]. by rewrite app_nil_r.
  - destruct (sign_tx_input view keystore nHashType txVariants k st)
      as [st1|] eqn:Hbody; [| done].
    intros Hrest. rewrite (IH _ Hrest).
    rewrite (sign_tx_input_calls _ _ _ _ _ _ _ Hbody).
    destruct (sign_tx_input_spec view keystore nHashType txVariants)
      as [_ Hframe].
    destruct (Hframe _ _ _ Hbody) as ((A1 & _ & _ & _ & A5 & _ & _) & _).
    assert (filter (λ i, should_sign view nHashType (merged st1) i) rest
            = filter (λ i, should_sign view nHashType (merged st) i) rest)
      as ->.
    { apply list_filter_iff. intros i.
      by rewrite (should_sign_frame view nHashType (merged st) (merged st1)). }
    rewrite filter_cons.
    destruct (should_sign view nHashType (merged st) k) eqn:Hs.
    + rewrite decide_True by exact I. by rewrite <- app_assoc.
    + rewrite decide_False by (by intros []). by rewrite app_nil_r.
Qed.

(** *** The certificate loop is the transaction loop without variants *)

Lemma sign_cert_input_as_tx view keystore i st :
  fHashSingle SIGHASH_ALL = false →
  sign_cert_input view keystore i st
  = sign_tx_input view keystore SIGHASH_ALL [] i st.
Proof.
  intros Hall. unfold sign_cert_input, sign_tx_input. rewrite Hall. simpl.
  destruct (vin (merged st) !! i) as [txin|]; [| done].
  by destruct (prevPubKey view txin).
Qed.

Lemma for_each_ext {S} (f g : nat → S → option S) indices (s0 : S) :
  (∀ i s, f i s = g i s) → for_each f indices s0 = for_each g indices s0.
Proof.
  intros Hfg. revert s0. induction indices as [|i rest IH]; intros s0; simpl;
    [done |].
  rewrite Hfg. destruct (g i s0); [apply IH | done].
Qed.

End SigningFacts.

(** *** The sighash argument *)

Section SighashFacts.
Context {P : Type} `{!ScriptCollab P}.

Lemma parse_sighashtype_cases (sighashtype : option string) (nHashType : Z) :
  parse_sighashtype sighashtype = Returned nHashType →
  (sighashtype = None ∧ nHashType = SIGHASH_ALL)
  ∨ (sighashtype = Some "ALL" ∧ nHashType = SIGHASH_ALL)
  ∨ (sighashtype = Some "ALL|ANYONECANPAY"
     ∧ nHashType = Z.lor SIGHASH_ALL SIGHASH_ANYONECANPAY)
  ∨ (sighashtype = Some "NONE" ∧ nHashType = SIGHASH_NONE)
  ∨ (sighashtype = Some "NONE|ANYONECANPAY"
     ∧ nHashType = Z.lor SIGHASH_NONE SIGHASH_ANYONECANPAY)
  ∨ (sighashtype = Some "SINGLE" ∧ nHashType = SIGHASH_SINGLE)
  ∨ (sighashtype = Some "SINGLE|ANYONECANPAY"
     ∧ nHashType = Z.lor SIGHASH_SINGLE SIGHASH_ANYONECANPAY).
Proof.
  destruct sighashtype as [str|]; simpl.
  2:{ intros [= <-]. by left. }
  unfold mapSigHashValues. simpl.
  repeat (rewrite lookup_insert; case_decide;
          [subst str; simpl; intros [= <-]; naive_solver |]).
  by rewrite lookup_empty.
Qed.

Lemma land_lnot_disjoint (x a : Z) :
  Z.land x a = 0%Z →
  Z.land x (Z.lnot a) = x ∧ Z.land (Z.lor x a) (Z.lnot a) = x.
Proof.
  intros Hxa.
  assert (∀ k, (0 ≤ k)%Z → Z.testbit x k && Z.testbit a k = false) as Hbits.
  { intros k Hk. rewrite <- Z.land_spec, Hxa. apply Z.bits_0. }
  split; apply Z.bits_inj'; intros k Hk; specialize (Hbits k Hk);
    rewrite Z.land_spec, ?Z.lor_spec, Z.lnot_spec by done;
    destruct (Z.testbit x k), (Z.testbit a k); done.
Qed.

Lemma fHashSingle_selected (sighashtype : option string) (nHashType : Z) :
  sighash_flags_ok →
  parse_sighashtype sighashtype = Returned nHashType →
  fHashSingle nHashType = true ↔ selects_single sighashtype.
Proof.
  intros (HA & HN & HS & HAS & HNS) Hparse.
  destruct (land_lnot_disjoint _ _ HA) as [A1 A2].
  destruct (land_lnot_disjoint _ _ HN) as [N1 N2].
  destruct (land_lnot_disjoint _ _ HS) as [S1 S2].
  unfold fHashSingle, selects_single. rewrite Z.eqb_eq.
  apply parse_sighashtype_cases in Hparse
    as [[-> ->] | [[-> ->] | [[-> ->] | [[-> ->] | [[-> ->] | [[-> ->] | [-> ->]]]]]]];
    rewrite ?A1, ?A2, ?N1, ?N2, ?S1, ?S2;
    (split;
     [ intros Heq; first [by left | by right | congruence]
     | intros [Hs | Hs]; first [done | discriminate Hs] ]).
Qed.

End SighashFacts.

(** *** The signer's success flag is not looked at *)

Section SignFlag.
Context {P : Type} (A B : ScriptCollab P).
Hypothesis agree : same_but_sign_flag A B.

Lemma merge_variants_agree pubKey i txVariants tx :
  @merge_variants P A pubKey i txVariants tx
  = @merge_variants P B pubKey i txVariants tx.
Proof.
  destruct agree as (_ & _ & _ & _ & _ & Hc & _).
  revert tx. induction txVariants as [|txv rest IH]; intros tx; simpl; [done |].
  destruct (vin txv !! i); [| done]. by rewrite Hc, IH.
Qed.

Lemma verify_input_agree pubKey i tx errs :
  @verify_input P A pubKey i tx errs = @verify_input P B pubKey i tx errs.
Proof.
  destruct agree as (_ & _ & _ & _ & _ & _ & Hv & He).
  unfold verify_input. rewrite Hv.
  destruct (VerifyScript _ _ _ _) as [[|] serror]; [done |]. by rewrite He.
Qed.

Lemma fHashSingle_agree nHashType :
  @fHashSingle P A nHashType = @fHashSingle P B nHashType.
Proof.
  destruct agree as (_ & _ & Hs & Ha & _). unfold fHashSingle. by rewrite Hs, Ha.
Qed.

Lemma sign_tx_input_agree view keystore nHashType txVariants i st :
  @sign_tx_input P A view keystore nHashType txVariants i st
  = @sign_tx_input P B view keystore nHashType txVariants i st.
Proof.
  pose proof agree as (_ & _ & _ & _ & Hsig & _).
  unfold sign_tx_input.
  destruct (vin (merged st) !! i) as [txin|]; [| done].
  destruct (prevPubKey view txin) as [pubKey|]; [| done].
  cbv zeta. rewrite fHashSingle_agree, Hsig, merge_variants_agree.
  destruct (merge_variants _ _ _ _); [| done].
  by rewrite verify_input_agree.
Qed.

End SignFlag.

(** *** The state of a loop before and after each step *)

Section LoopStates.
Context {P : Type} `{!ScriptCollab P}.
Implicit Types (tx : CMutableTransactionBase P) (st : SignState P).
Implicit Types (view : gmap uint256 CCoins) (txin : CTxIn).

Lemma entity_eq tx tx' :
  nVersion tx = nVersion tx' → vin tx = vin tx' → vout tx = vout tx' →
  payload tx = payload tx' → tx = tx'.
Proof. destruct tx, tx'; simpl; congruence. Qed.

Lemma vin_working_at_ge tx0 final i j :
  length (vin final) = length (vin tx0) → i ≤ length (vin tx0) → i ≤ j →
  vin (working_at tx0 final i) !! j = vin tx0 !! j.
Proof.
  intros Hlen Hi Hij. simpl.
  rewrite lookup_app_r; rewrite length_take; [| lia].
  rewrite lookup_drop. f_equal. lia.
Qed.

Lemma vin_working_at_lt tx0 final i j :
  length (vin final) = length (vin tx0) → i ≤ length (vin tx0) → j < i →
  vin (working_at tx0 final i) !! j = vin final !! j.
Proof.
  intros Hlen Hi Hji. simpl.
  rewrite lookup_app_l; [| rewrite length_take; lia].
  by rewrite lookup_take_lt.
Qed.

Lemma verify_input_nil pubKey i tx errs :
  verify_input pubKey i tx errs = errs ++ verify_input pubKey i tx [].
Proof.
  unfold verify_input, TxInErrorToJSON.
  destruct (VerifyScript (scriptSig_at tx i) pubKey tx i) as [[|] serror];
    [by rewrite app_nil_r |].
  destruct (vin tx !! i); [done | by rewrite app_nil_r].
Qed.

Lemma sign_tx_input_errors view keystore nHashType txVariants :
  step_errors view (sign_tx_input view keystore nHashType txVariants).
Proof.
  intros i st st'. unfold sign_tx_input, errors_step.
  destruct (vin (merged st) !! i) as [txin|]; [| done].
  destruct (prevPubKey view txin) as [pubKey|]; [| by intros [= <-]].
  cbv zeta.
  match goal with
  | |- context [merge_variants pubKey i txVariants ?t] => set (tx2 := t)
  end.
  destruct (merge_variants pubKey i txVariants tx2); [| done].
  intros [= <-]. simpl. apply verify_input_nil.
Qed.

Lemma sign_cert_input_errors view keystore :
  step_errors view (sign_cert_input view keystore).
Proof.
  intros i st st'. unfold sign_cert_input, errors_step.
  destruct (vin (merged st) !! i) as [txin|]; [| done].
  destruct (prevPubKey view txin) as [pubKey|]; [| by intros [= <-]].
  intros [= <-]. simpl. apply verify_input_nil.
Qed.

Section Run.
Variable view : gmap uint256 CCoins.
Variable body : nat → SignState P → option (SignState P).
Hypothesis body_spec : step_spec view body.
Hypothesis body_errors : step_errors view body.
Variable tx0 : CMutableTransactionBase P.

Lemma for_each_fixed indices st st' :
  for_each body indices st = Some st' →
  nVersion (merged st') = nVersion (merged st)
  ∧ payload (merged st') = payload (merged st).
Proof.
  revert st. induction indices as [|i rest IH]; intros st; simpl.
  - by intros [= <-].
  - destruct (body i st) as [st1|] eqn:Hstep; [| done]. intros Hrest.
    destruct body_spec as [_ Hframe].
    destruct (Hframe _ _ _ Hstep) as ((_ & A2 & A3 & _) & _).
    destruct (IH _ Hrest) as [B2 B3]. split; congruence.
Qed.

(** The state after the first [k] steps, seen from the end of the loop. *)
Lemma run_prefix k st_k st :
  k ≤ length (vin tx0) →
  for_each body (seq 0 k) (initial_state tx0) = Some st_k →
  for_each body (seq k (length (vin tx0) - k)) st_k = Some st →
  merged st_k = working_at tx0 (merged st) k.
Proof.
  intros Hk Hpre Hsuf.
  destruct (for_each_frame view body body_spec _ _ _ Hpre)
    as (A1 & A2 & _ & A4 & _).
  destruct (for_each_frame view body body_spec _ _ _ Hsuf)
    as (B1 & B2 & _ & B4 & _).
  destruct (for_each_fixed _ _ _ Hpre) as [A5 A6].
  simpl in A1, A2, A4, A5, A6.
  assert (length (vin (merged st)) = length (vin tx0)) as Hlen
    by congruence.
  apply entity_eq; simpl; try done.
  apply list_eq. intros j.
  change (vin (merged st_k) !! j = vin (working_at tx0 (merged st) k) !! j).
  destruct (decide (j < k)) as [Hlt | Hge].
  - rewrite vin_working_at_lt by done. symmetry. apply B4.
    rewrite elem_of_seq. lia.
  - rewrite vin_working_at_ge by (done || lia). apply A4.
    rewrite elem_of_seq. lia.
Qed.

Lemma seq_cut (k n : nat) :
  k < n → seq 0 n = seq 0 k ++ k :: seq (S k) (n - S k).
Proof.
  intros Hk. replace n with (k + S (n - S k)) at 1 by lia.
  by rewrite seq_app.
Qed.

(** The run of a loop, cut at step [k]. *)
Lemma run_split k st :
  k < length (vin tx0) →
  for_each body (seq 0 (length (vin tx0))) (initial_state tx0) = Some st →
  ∃ st_k st_k',
    for_each body (seq 0 k) (initial_state tx0) = Some st_k
    ∧ body k st_k = Some st_k'
    ∧ for_each body (seq (S k) (length (vin tx0) - S k)) st_k' = Some st
    ∧ merged st_k = working_at tx0 (merged st) k
    ∧ merged st_k' = working_at tx0 (merged st) (S k).
Proof.
  intros Hk Hrun. rewrite (seq_cut k _ Hk), for_each_app in Hrun.
  destruct (for_each body (seq 0 k) (initial_state tx0)) as [st_k|] eqn:Hpre;
    [| done].
  simpl in Hrun.
  destruct (body k st_k) as [st_k'|] eqn:Hstep; [| done].
  exists st_k, st_k'. split_and!; try done.
  - apply run_prefix; [lia | done |].
    replace (length (vin tx0) - k) with (S (length (vin tx0) - S k)) by lia.
    simpl. by rewrite Hstep.
  - apply run_prefix; [lia | | done].
    rewrite seq_S, for_each_app, Hpre. simpl. by rewrite Hstep.
Qed.

(** The entries pushed by the first [k] steps. *)
Lemma run_errors k st_k st :
  k ≤ length (vin tx0) →
  for_each body (seq 0 k) (initial_state tx0) = Some st_k →
  for_each body (seq k (length (vin tx0) - k)) st_k = Some st →
  vErrors st_k = concat (errors_at view tx0 (merged st) <$> seq 0 k).
Proof.
  revert st_k. induction k as [|k IH]; intros st_k Hk Hpre Hsuf.
  - simpl in Hpre. by injection Hpre as <-.
  - rewrite seq_S, for_each_app in Hpre.
    destruct (for_each body (seq 0 k) (initial_state tx0)) as [st1|] eqn:Hpre1;
      [| done].
    simpl in Hpre.
    destruct (body k st1) as [st2|] eqn:Hstep; [| done].
    injection Hpre as ->.
    assert (for_each body (seq k (length (vin tx0) - k)) st1 = Some st)
      as Hsuf1.
    { replace (length (vin tx0) - k) with (S (length (vin tx0) - S k)) by lia.
      simpl. by rewrite Hstep. }
    rewrite seq_S, fmap_app, concat_app. simpl. rewrite app_nil_r.
    rewrite <- (IH st1); [| lia | done | done].
    rewrite (body_errors _ _ _ Hstep). f_equal. unfold errors_at.
    rewrite <- (run_prefix k st1 st); [| lia | done | done].
    rewrite <- (run_prefix (S k) st_k st); [done | lia | | done].
    rewrite seq_S, for_each_app, Hpre1. simpl. by rewrite Hstep.
Qed.

Lemma loop_errors st :
  for_each body (seq 0 (length (vin tx0))) (initial_state tx0) = Some st →
  vErrors st
  = concat (errors_at view tx0 (merged st) <$> seq 0 (length (vin tx0))).
Proof.
  intros Hrun. apply run_errors; [done | done |].
  by rewrite Nat.sub_diag.
Qed.

End Run.

(** Step [i] of the loop of [signrawtransaction], seen from its end: the
    script of a resolved input is the merge of the variants' scripts into
    the signer's script where [should_sign] holds, and into the empty
    script where not. *)
Lemma sign_tx_step view keystore nHashType txVariants tx0 st i txin pubKey :
  signrawtransaction_loop view keystore nHashType txVariants tx0 = Some st →
  vin tx0 !! i = Some txin → prevPubKey view txin = Some pubKey →
  let tx1 := set_scriptSig i [] (working_at tx0 (merged st) i) in
  merge_variants pubKey i txVariants
    (if should_sign view nHashType tx0 i then
       set_scriptSig i (snd (SignSignature keystore pubKey tx1 i nHashType))
         tx1
     else tx1)
  = Some (working_at tx0 (merged st) (S i)).
Proof.
  intros Hrun Hi Hres tx1. apply lookup_lt_Some in Hi as Hlt.
  destruct (run_split view _ (sign_tx_input_spec view keystore nHashType
                                txVariants) tx0 i st Hlt Hrun)
    as (st_i & st_i' & Hpre & Hstep & _ & Hbefore & Hafter).
  destruct (for_each_frame view _ (sign_tx_input_spec _ _ _ _) _ _ _ Hrun)
    as (_ & Hlen & _).
  simpl in Hlen.
  unfold sign_tx_input in Hstep. rewrite Hbefore in Hstep.
  rewrite vin_working_at_ge in Hstep by (done || lia).
  rewrite Hi, Hres in Hstep. cbv zeta in Hstep.
  fold tx1 in Hstep.
  assert (should_sign view nHashType tx0 i
          = negb (fHashSingle nHashType)
            || bool_decide (i < length (vout tx1))) as ->.
  { unfold should_sign. rewrite Hi, Hres.
    by rewrite (bool_decide_eq_true_2 (is_Some (Some pubKey))). }
  destruct (merge_variants pubKey i txVariants _) as [tx3|]; [| done].
  injection Hstep as <-. simpl in Hafter. by rewrite Hafter.
Qed.

(** Step [i] of the loop of [signrawcertificate], seen from its end. *)
Lemma sign_cert_step view keystore cert st i txin pubKey :
  signrawcertificate_loop view keystore cert = Some st →
  vin cert !! i = Some txin → prevPubKey view txin = Some pubKey →
  let cert1 := set_scriptSig i [] (working_at cert (merged st) i) in
  working_at cert (merged st) (S i)
  = set_scriptSig i (snd (SignSignature keystore pubKey cert1 i SIGHASH_ALL))
      cert1.
Proof.
  intros Hrun Hi Hres cert1. apply lookup_lt_Some in Hi as Hlt.
  destruct (run_split view _ (sign_cert_input_spec view keystore) cert i st
              Hlt Hrun)
    as (st_i & st_i' & Hpre & Hstep & _ & Hbefore & Hafter).
  destruct (for_each_frame view _ (sign_cert_input_spec _ _) _ _ _ Hrun)
    as (_ & Hlen & _).
  simpl in Hlen.
  unfold sign_cert_input in Hstep. rewrite Hbefore in Hstep.
  rewrite vin_working_at_ge in Hstep by (done || lia).
  rewrite Hi, Hres in Hstep. cbv zeta in Hstep. fold cert1 in Hstep.
  injection Hstep as <-. simpl in Hafter. by rewrite <- Hafter.
Qed.

End LoopStates.

(** ** The statements about signature combination *)

(** C1: for every call of [signrawtransaction] or [signrawcertificate]
    that returns, [complete] is true if and only if the list of per-input
    errors is empty (the [errors] key is then absent).  When no input's
    referenced output is available, the call returns the entity unchanged
    with exactly one "Input not found or already spent" entry per input, in
    input order: [complete] is true for an entity without inputs and false
    for every other one. *)
Theorem complete_iff_no_errors {P : Type} `{!ScriptCollab P}
    (view : gmap uint256 CCoins) (keystore : CKeyStore) :
  (∀ sighashtype txVariants r,
     signrawtransaction view keystore sighashtype txVariants = Returned r →
     ∃ nHashType tx0 st,
       head txVariants = Some tx0
       ∧ signrawtransaction_loop view keystore nHashType txVariants tx0
         = Some st
       ∧ r = sign_result st
       ∧ (res_complete r = true ↔ vErrors st = [])
       ∧ (res_complete r = true ↔ res_errors r = None))
  ∧ (∀ cert r,
       signrawcertificate view keystore cert = Returned r →
       ∃ st,
         signrawcertificate_loop view keystore cert = Some st
         ∧ r = sign_result st
         ∧ (res_complete r = true ↔ vErrors st = [])
         ∧ (res_complete r = true ↔ res_errors r = None))
  ∧ (∀ sighashtype nHashType tx0 rest,
       parse_sighashtype sighashtype = Returned nHashType →
       Forall (λ txin, prevPubKey view txin = None) (vin tx0) →
       signrawtransaction view keystore sighashtype (tx0 :: rest)
       = Returned
           {| res_hex := tx0;
              res_complete := vector_empty (vin tx0);
              res_errors := if vector_empty (vin tx0) then None
                            else Some (map not_found_entry (vin tx0)) |})
  ∧ (∀ cert,
       Forall (λ txin, prevPubKey view txin = None) (vin cert) →
       signrawcertificate view keystore cert
       = Returned
           {| res_hex := cert;
              res_complete := vector_empty (vin cert);
              res_errors := if vector_empty (vin cert) then None
                            else Some (map not_found_entry (vin cert)) |}).
Proof.
  assert (∀ st : SignState P,
            (res_complete (sign_result st) = true ↔ vErrors st = [])
            ∧ (res_complete (sign_result st) = true
               ↔ res_errors (sign_result st) = None)) as Hres.
  { intros st. unfold sign_result. simpl. by destruct (vErrors st). }
  split_and!.
  - intros sighashtype txVariants r. unfold signrawtransaction.
    destruct txVariants as [|tx0 rest]; [done |].
    destruct (parse_sighashtype sighashtype) as [nHashType| |]; [| done | done].
    destruct (signrawtransaction_loop _ _ _ _ _) as [st|] eqn:Hloop; [| done].
    intros [= <-]. exists nHashType, tx0, st.
    destruct (Hres st). by split_and!.
  - intros cert r. unfold signrawcertificate.
    destruct (signrawcertificate_loop _ _ _) as [st|] eqn:Hloop; [| done].
    intros [= <-]. exists st. destruct (Hres st). by split_and!.
  - intros sighashtype nHashType tx0 rest Hparse Hall.
    unfold signrawtransaction, signrawtransaction_loop. rewrite Hparse.
    rewrite (loop_all_unresolved view _ tx0
               (sign_tx_input_spec view keystore nHashType (tx0 :: rest))).
    + unfold sign_result. simpl. by destruct (vin tx0).
    + intros txin Hin. by eapply Forall_forall in Hall.
  - intros cert Hall. unfold signrawcertificate, signrawcertificate_loop.
    rewrite (loop_all_unresolved view _ cert
               (sign_cert_input_spec view keystore)).
    + unfold sign_result. simpl. by destruct (vin cert).
    + intros txin Hin. by eapply Forall_forall in Hall.
Qed.

(** C2 (as amended): an input whose referenced output does not resolve
    gets the entry "Input not found or already spent", keeps the unlocking
    script it came with (the script is not cleared), and the loop goes on
    with the inputs after it, in both [signrawtransaction] and
    [signrawcertificate]. *)
Theorem unresolved_input_reported_and_kept {P : Type} `{!ScriptCollab P}
    (view : gmap uint256 CCoins) (keystore : CKeyStore)
    (i : nat) (txin : CTxIn) :
  prevPubKey view txin = None →
  (∀ nHashType txVariants tx0 st,
     vin tx0 !! i = Some txin →
     signrawtransaction_loop view keystore nHashType txVariants tx0 = Some st →
     vin (merged st) !! i = Some txin ∧ not_found_entry txin ∈ vErrors st)
  ∧ (∀ cert st,
       vin cert !! i = Some txin →
       signrawcertificate_loop view keystore cert = Some st →
       vin (merged st) !! i = Some txin ∧ not_found_entry txin ∈ vErrors st)
  ∧ (∀ nHashType txVariants tx0 st_i,
       vin tx0 !! i = Some txin →
       for_each (sign_tx_input view keystore nHashType txVariants)
         (seq 0 i) (initial_state tx0) = Some st_i →
       signrawtransaction_loop view keystore nHashType txVariants tx0
       = for_each (sign_tx_input view keystore nHashType txVariants)
           (seq (S i) (length (vin tx0) - S i))
           {| merged := merged st_i;
              vErrors := vErrors st_i ++ [not_found_entry txin];
              signCalls := signCalls st_i |})
  ∧ (∀ cert st_i,
       vin cert !! i = Some txin →
       for_each (sign_cert_input view keystore)
         (seq 0 i) (initial_state cert) = Some st_i →
       signrawcertificate_loop view keystore cert
       = for_each (sign_cert_input view keystore)
           (seq (S i) (length (vin cert) - S i))
           {| merged := merged st_i;
              vErrors := vErrors st_i ++ [not_found_entry txin];
              signCalls := signCalls st_i |}).
Proof.
  intros Hnone.
  assert (∀ body (tx : CMutableTransactionBase P) st,
            step_spec view body → vin tx !! i = Some txin →
            for_each body (seq 0 (length (vin tx))) (initial_state tx)
            = Some st →
            vin (merged st) !! i = Some txin
            ∧ not_found_entry txin ∈ vErrors st) as Hkept.
  { intros body tx st Hspec Hi Hrun.
    destruct (for_each_unresolved view body Hspec _ _ _ i txin Hrun Hi Hnone)
      as [Hkeep Hentry].
    split; [done |]. apply Hentry. apply elem_of_seq_0.
    by apply lookup_lt_Some in Hi. }
  assert (∀ body (tx : CMutableTransactionBase P) st_i,
            step_spec view body → vin tx !! i = Some txin →
            for_each body (seq 0 i) (initial_state tx) = Some st_i →
            for_each body (seq 0 (length (vin tx))) (initial_state tx)
            = for_each body (seq (S i) (length (vin tx) - S i))
                {| merged := merged st_i;
                   vErrors := vErrors st_i ++ [not_found_entry txin];
                   signCalls := signCalls st_i |}) as Hgo.
  { intros body tx st_i Hspec Hi Hpre.
    pose proof (lookup_lt_Some _ _ _ Hi) as Hlt.
    replace (length (vin tx)) with (i + S (length (vin tx) - S i)) at 1 by lia.
    rewrite seq_app, (for_each_app body), Hpre. simpl.
    destruct (for_each_frame view body Hspec _ _ _ Hpre)
      as (_ & _ & _ & Hsame & _).
    assert (vin (merged st_i) !! i = Some txin) as Hi'.
    { rewrite Hsame; [done |]. rewrite elem_of_seq_0. lia. }
    destruct Hspec as [Hskip _]. by rewrite (Hskip _ _ _ Hi' Hnone). }
  split_and!.
  - intros nHashType txVariants tx0 st Hi Hrun.
    exact (Hkept _ tx0 st (sign_tx_input_spec _ _ _ _) Hi Hrun).
  - intros cert st Hi Hrun.
    exact (Hkept _ cert st (sign_cert_input_spec _ _) Hi Hrun).
  - intros nHashType txVariants tx0 st_i Hi Hpre.
    exact (Hgo _ tx0 st_i (sign_tx_input_spec _ _ _ _) Hi Hpre).
  - intros cert st_i Hi Hpre.
    exact (Hgo _ cert st_i (sign_cert_input_spec _ _) Hi Hpre).
Qed.

(** C6 (as amended): [signrawcertificate] runs the per-input steps of
    [signrawtransaction] with the sighash type fixed to [SIGHASH_ALL] and
    without the merge step: it resolves the output, clears the script,
    signs, and verifies, but folds in no variant's script (not even the
    script the certificate came with). *)
Theorem certificate_loop_is_transaction_loop_without_merge
    {P : Type} `{!ScriptCollab P}
    (view : gmap uint256 CCoins) (keystore : CKeyStore)
    (cert : CMutableTransactionBase P) :
  Z.land SIGHASH_ALL (Z.lnot SIGHASH_ANYONECANPAY) ≠ SIGHASH_SINGLE →
  signrawcertificate_loop view keystore cert
  = signrawtransaction_loop view keystore SIGHASH_ALL [] cert
  ∧ signrawcertificate view keystore cert
    = match signrawtransaction_loop view keystore SIGHASH_ALL [] cert with
      | Some st => Returned (sign_result st)
      | None => Undefined
      end.
Proof.
  intros Hall.
  assert (signrawcertificate_loop view keystore cert
          = signrawtransaction_loop view keystore SIGHASH_ALL [] cert) as Heq.
  { unfold signrawcertificate_loop, signrawtransaction_loop.
    apply for_each_ext. intros i st. apply sign_cert_input_as_tx.
    unfold fHashSingle. by apply Z.eqb_neq. }
  split; [done |]. unfold signrawcertificate. by rewrite Heq.
Qed.

(** C8: for an input of the working transaction whose referenced output
    resolves, the signer is called under [SINGLE] and [SINGLE|ANYONECANPAY]
    exactly when the transaction has an output at the same index, and
    under every other sighash type always.  A call is what the loop goes
    on with: where the signer is called, the entity after the step is the
    merge of the variants' scripts into the script the signer returned for
    the entity before the step; where it is not called, the merge starts
    from the empty script.  No entry is pushed at the signing step: the
    entries are, input by input, the one of the resolution step for an
    input that does not resolve and the one of [VerifyScript], if any,
    for an input that does, whatever script the signer returned; every
    entry has one of these two origins, and the result of the loop does
    not depend on the success flag the signer returns. *)
Theorem signer_called_iff {P : Type} {SC : ScriptCollab P}
    (view : gmap uint256 CCoins) (keystore : CKeyStore)
    (sighashtype : option string) (nHashType : Z)
    (txVariants : list (CMutableTransactionBase P))
    (tx0 : CMutableTransactionBase P) (st : SignState P) :
  sighash_flags_ok →
  parse_sighashtype sighashtype = Returned nHashType →
  signrawtransaction_loop view keystore nHashType txVariants tx0 = Some st →
  (∀ i txin,
     vin tx0 !! i = Some txin → is_Some (prevPubKey view txin) →
     (selects_single sighashtype →
      (i ∈ signCalls st ↔ i < length (vout tx0)))
     ∧ (¬ selects_single sighashtype → i ∈ signCalls st))
  ∧ Forall error_origin (vErrors st)
  ∧ (∀ B : ScriptCollab P,
       same_but_sign_flag B SC →
       @signrawtransaction_loop P B view keystore nHashType txVariants tx0
       = Some st)
  ∧ (∀ i txin pubKey,
       vin tx0 !! i = Some txin → prevPubKey view txin = Some pubKey →
       let tx1 := set_scriptSig i [] (working_at tx0 (merged st) i) in
       (i ∈ signCalls st →
        merge_variants pubKey i txVariants
          (set_scriptSig i
             (snd (SignSignature keystore pubKey tx1 i nHashType)) tx1)
        = Some (working_at tx0 (merged st) (S i)))
       ∧ (i ∉ signCalls st →
          merge_variants pubKey i txVariants tx1
          = Some (working_at tx0 (merged st) (S i))))
  ∧ vErrors st
    = concat (errors_at view tx0 (merged st) <$> seq 0 (length (vin tx0))).
Proof.
  intros Hflags Hparse Hrun.
  pose proof (for_each_sign_tx_calls _ _ _ _ _ _ _ Hrun) as Hcalls.
  simpl in Hcalls.
  assert (∀ i txin, vin tx0 !! i = Some txin →
            i ∈ signCalls st ↔ should_sign view nHashType tx0 i = true)
    as Hin.
  { intros i txin Hi.
    rewrite Hcalls, list_elem_of_filter, elem_of_seq_0.
    apply lookup_lt_Some in Hi as Hlt.
    destruct (should_sign view nHashType tx0 i); simpl.
    - split; [done |]. intros _. split; [exact I | done].
    - split; [by intros [[] _] | done]. }
  split_and!.
  - intros i txin Hi Hres.
    assert (should_sign view nHashType tx0 i
            = negb (fHashSingle nHashType)
              || bool_decide (i < length (vout tx0))) as Hshould.
    { unfold should_sign. rewrite Hi.
      by rewrite (bool_decide_eq_true_2 (is_Some (prevPubKey view txin))). }
    pose proof (fHashSingle_selected sighashtype nHashType Hflags Hparse)
      as Hsingle.
    rewrite (Hin i txin Hi), Hshould. split.
    + intros Hsel. apply Hsingle in Hsel as ->. simpl.
      by rewrite bool_decide_eq_true.
    + intros Hsel. destruct (fHashSingle nHashType); [| done].
      destruct Hsel. by apply Hsingle.
  - destruct (for_each_frame view _ (sign_tx_input_spec _ _ _ _) _ _ _ Hrun)
      as (_ & _ & _ & _ & es & E & _ & O).
    by rewrite E.
  - intros B Hagree. rewrite <- Hrun.
    unfold signrawtransaction_loop. apply for_each_ext.
    intros i s. by apply sign_tx_input_agree.
  - intros i txin pubKey Hi Hres tx1.
    pose proof (sign_tx_step view keystore nHashType txVariants tx0 st i
                  txin pubKey Hrun Hi Hres) as Hstep.
    cbv zeta in Hstep. fold tx1 in Hstep.
    split; intros Hcall.
    + apply (Hin i txin Hi) in Hcall. by rewrite Hcall in Hstep.
    + destruct (should_sign view nHashType tx0 i) eqn:Hs; [| done].
      destruct Hcall. by apply (Hin i txin Hi).
  - apply (loop_errors view _ (sign_tx_input_spec view keystore nHashType
                                 txVariants)
             (sign_tx_input_errors view keystore nHashType txVariants)).
    exact Hrun.
Qed.

(** C9 (as amended): the merge step reads [txv.vin[i]] of every supplied
    variant, without a bounds check, for every input index [i] whose
    referenced output resolves (an unresolved input skips the merge step).
    [signrawtransaction] is therefore defined exactly when every variant
    has an input at every such index; variants with at least as many
    inputs as the base transaction are enough for that. *)
Theorem sign_defined_iff {P : Type} `{!ScriptCollab P}
    (view : gmap uint256 CCoins) (keystore : CKeyStore)
    (sighashtype : option string) (nHashType : Z)
    (tx0 : CMutableTransactionBase P)
    (rest : list (CMutableTransactionBase P)) :
  parse_sighashtype sighashtype = Returned nHashType →
  (signrawtransaction view keystore sighashtype (tx0 :: rest) ≠ Undefined
   ↔ ∀ i txin,
       vin tx0 !! i = Some txin → is_Some (prevPubKey view txin) →
       Forall (λ txv, i < length (vin txv)) (tx0 :: rest))
  ∧ (Forall (λ txv, length (vin tx0) ≤ length (vin txv)) rest →
     ∃ r, signrawtransaction view keystore sighashtype (tx0 :: rest)
          = Returned r).
Proof.
  intros Hparse.
  pose proof (for_each_sign_tx_is_Some view keystore nHashType (tx0 :: rest)
                (seq 0 (length (vin tx0))) (initial_state tx0)) as Hiff.
  simpl in Hiff.
  assert (is_Some (signrawtransaction_loop view keystore nHashType
                     (tx0 :: rest) tx0)
          ↔ ∀ i txin,
              vin tx0 !! i = Some txin → is_Some (prevPubKey view txin) →
              Forall (λ txv, i < length (vin txv)) (tx0 :: rest)) as Hloop.
  { unfold signrawtransaction_loop. rewrite Hiff.
    - split.
      + intros Hall i txin Hi. apply Hall; [| done].
        apply elem_of_seq_0. by apply lookup_lt_Some in Hi.
      + intros Hall i txin _. apply Hall.
    - intros i. by rewrite elem_of_seq_0. }
  assert (signrawtransaction view keystore sighashtype (tx0 :: rest)
          ≠ Undefined
          ↔ is_Some (signrawtransaction_loop view keystore nHashType
                       (tx0 :: rest) tx0)) as Hrpc.
  { unfold signrawtransaction. rewrite Hparse.
    destruct (signrawtransaction_loop _ _ _ _ _).
    - split; [eauto | done].
    - split; [done | by intros [? ?]]. }
  split.
  - by rewrite Hrpc.
  - intros Hshape.
    assert (is_Some (signrawtransaction_loop view keystore nHashType
                       (tx0 :: rest) tx0)) as [st Hst].
    { apply Hloop. intros i txin Hi _. apply lookup_lt_Some in Hi.
      constructor; [done |].
      eapply Forall_impl; [exact Hshape |]. simpl. intros txv Hle. lia. }
    exists (sign_result st). unfold signrawtransaction.
    by rewrite Hparse, Hst.
Qed.

(** ** Concrete runs of the signing loops *)

(** Two inputs, the first spending an available output and signed with
    the key at hand, the second spending an unknown output: one error
    entry, for the second input, and the first input's script verifies. *)
Example one_input_signed_one_unresolved :
  @signrawtransaction _ (Sample.collab TxPayload) Sample.view Sample.one_key
    None [Sample.tx [Sample.txin 100 0 []; Sample.txin 5 0 []] [] 0]
  = Returned
      {| res_hex :=
           Sample.tx [Sample.txin 100 0 [Sample.OP_TRUE]; Sample.txin 5 0 []]
             [] 0;
         res_complete := false;
         res_errors := Some [not_found_entry (Sample.txin 5 0 [])] |}.
Proof. vm_compute. reflexivity. Qed.

Lemma complete_iff_no_errors_witness :
  @signrawtransaction _ (Sample.collab TxPayload) Sample.view Sample.no_keys
    None
    [Sample.tx [Sample.txin 5 0 [Sample.OP_TRUE]; Sample.txin 6 1 []] [] 0]
  = Returned
      {| res_hex :=
           Sample.tx [Sample.txin 5 0 [Sample.OP_TRUE]; Sample.txin 6 1 []]
             [] 0;
         res_complete := false;
         res_errors :=
           Some [not_found_entry (Sample.txin 5 0 [Sample.OP_TRUE]);
                 not_found_entry (Sample.txin 6 1 [])] |}.
Proof.
  apply (proj1 (proj2 (proj2
    (@complete_iff_no_errors _ (Sample.collab TxPayload)
       Sample.view Sample.no_keys))) None 1%Z).
  - reflexivity.
  - repeat constructor.
Defined.

(** A transaction without inputs: nothing to sign, no error, complete. *)
Example complete_without_inputs :
  @signrawtransaction _ (Sample.collab TxPayload) Sample.view Sample.no_keys
    None [Sample.tx [] [] 0]
  = Returned {| res_hex := Sample.tx [] [] 0;
                res_complete := true;
                res_errors := None |}.
Proof. vm_compute. reflexivity. Qed.

Lemma unresolved_input_reported_and_kept_witness :
  let txin0 := Sample.txin 5 0 [Sample.OP_TRUE] in
  let tx0 := Sample.tx [txin0; Sample.txin 100 0 []] [] 0 in
  ∃ st,
    @signrawtransaction_loop _ (Sample.collab TxPayload) Sample.view
      Sample.one_key 1 [tx0] tx0 = Some st
    ∧ vin (merged st) !! 0 = Some txin0
    ∧ not_found_entry txin0 ∈ vErrors st.
Proof.
  intros txin0 tx0. eexists. split; [vm_compute; reflexivity |].
  apply (proj1
    (@unresolved_input_reported_and_kept _ (Sample.collab TxPayload)
       Sample.view Sample.one_key 0 txin0 eq_refl) 1%Z [tx0] tx0).
  - reflexivity.
  - vm_compute. reflexivity.
Defined.

(** C2 (counterexample): an input that does not resolve and came with a
    non-empty script still has that script in the result. *)
Lemma unresolved_input_script_kept_counterexample :
  let txin0 := Sample.txin 5 0 [Sample.OP_TRUE] in
  let tx0 := Sample.tx [txin0] [] 0 in
  prevPubKey Sample.view txin0 = None
  ∧ ∃ r, @signrawtransaction _ (Sample.collab TxPayload) Sample.view
           Sample.no_keys None [tx0] = Returned r
         ∧ scriptSig_at (res_hex r) 0 ≠ [].
Proof.
  intros txin0 tx0. split; [reflexivity |].
  eexists. split; [vm_compute; reflexivity |]. vm_compute. discriminate.
Qed.

Lemma certificate_loop_is_transaction_loop_without_merge_witness :
  let cert := Sample.cert [Sample.txin 100 0 [Sample.OP_TRUE]] [] in
  @signrawcertificate_loop _ (Sample.collab CertPayload) Sample.view
    Sample.one_key cert
  = @signrawtransaction_loop _ (Sample.collab CertPayload) Sample.view
      Sample.one_key 1 [] cert.
Proof.
  intros cert.
  apply (@certificate_loop_is_transaction_loop_without_merge _
           (Sample.collab CertPayload) Sample.view Sample.one_key cert).
  vm_compute. lia.
Defined.

(** C6 (counterexample): a certificate whose input already carries a
    valid script, signed without keys.  [signrawtransaction] on the same
    entity merges the script back in and reports it complete;
    [signrawcertificate] clears it and reports an error. *)
Lemma certificate_not_merged_counterexample :
  let cert := Sample.cert [Sample.txin 100 0 [Sample.OP_TRUE]] [] in
  @signrawcertificate _ (Sample.collab CertPayload) Sample.view
    Sample.no_keys cert
  ≠ @signrawtransaction _ (Sample.collab CertPayload) Sample.view
      Sample.no_keys None [cert].
Proof. intros cert Heq. vm_compute in Heq. discriminate Heq. Qed.

Lemma sample_sighash_flags_ok (P : Type) : @sighash_flags_ok P (Sample.collab P).
Proof. unfold sighash_flags_ok. simpl. split_and!; (reflexivity || lia). Defined.

Lemma signer_called_iff_witness :
  let tx0 := Sample.tx [Sample.txin 100 0 []] [] 0 in
  ∃ st,
    @signrawtransaction_loop _ (Sample.collab TxPayload) Sample.view
      Sample.one_key 3 [tx0] tx0 = Some st
    ∧ (0 ∈ signCalls st ↔ 0 < length (vout tx0)).
Proof.
  intros tx0. eexists. split; [vm_compute; reflexivity |].
  refine (proj1 (proj1
    (@signer_called_iff _ (Sample.collab TxPayload) Sample.view
       Sample.one_key (Some "SINGLE") 3%Z [tx0] tx0 _
       (sample_sighash_flags_ok _) eq_refl _)
    0 (Sample.txin 100 0 []) eq_refl _) _).
  - vm_compute. reflexivity.
  - vm_compute. eauto.
  - by left.
Defined.

Lemma sign_defined_iff_witness :
  let tx0 := Sample.tx [Sample.txin 100 0 []; Sample.txin 100 1 []] [] 0 in
  let tx1 :=
    Sample.tx [Sample.txin 100 0 []; Sample.txin 100 1 [Sample.OP_TRUE]]
      [] 0 in
  ∃ r, @signrawtransaction _ (Sample.collab TxPayload) Sample.view
         Sample.no_keys None [tx0; tx1] = Returned r.
Proof.
  intros tx0 tx1.
  apply (proj2 (@sign_defined_iff _ (Sample.collab TxPayload) Sample.view
                  Sample.no_keys None 1%Z tx0 [tx1] eq_refl)).
  repeat constructor.
Defined.

(** C9 (counterexample): the only input of the base transaction does not
    resolve, the second variant has no input at all, and the call is
    defined all the same. *)
Lemma defined_without_same_shape_counterexample :
  let tx0 := Sample.tx [Sample.txin 5 0 []] [] 0 in
  let txVariants := [tx0; Sample.tx [] [] 0] in
  (∃ r, @signrawtransaction _ (Sample.collab TxPayload) Sample.view
          Sample.no_keys None txVariants = Returned r)
  ∧ ¬ Forall (λ txv, ∀ i, i < length (vin tx0) → i < length (vin txv))
        txVariants.
Proof.
  intros tx0 txVariants. split.
  - eexists. vm_compute. reflexivity.
  - intros Hall. apply Forall_cons in Hall as [_ Hall].
    apply Forall_cons in Hall as [Hbad _].
    specialize (Hbad 0). simpl in Hbad. lia.
Qed.

(** ** The partial Merkle tree *)

Section TreeShape.

Lemma CalcTreeWidth_lt (nLeaves height pos : nat) :
  pos < CalcTreeWidth nLeaves height ↔ pos * 2 ^ height < nLeaves.
Proof.
  unfold CalcTreeWidth.
  assert (2 ^ height ≠ 0) as Hm by (apply Nat.pow_nonzero; lia).
  set (m := 2 ^ height) in *.
  pose proof (Nat.div_mod_eq (nLeaves + m - 1) m) as Hdm.
  pose proof (Nat.mod_upper_bound (nLeaves + m - 1) m Hm) as Hlt.
  split; intros Hpos; nia.
Qed.

Lemma CalcTreeHeight_covers (nLeaves : nat) :
  nLeaves ≤ 2 ^ CalcTreeHeight nLeaves.
Proof.
  unfold CalcTreeHeight. destruct (decide (1 < nLeaves)) as [Hlt | Hle].
  - apply Nat.log2_up_spec in Hlt. lia.
  - assert (nLeaves = 0 ∨ nLeaves = 1) as [-> | ->] by lia; vm_compute; lia.
Qed.

(** [CalcTreeHeight] is the first height at which the layer has at most
    one node. *)
Lemma CalcTreeHeight_first (nLeaves : nat) :
  CalcTreeWidth nLeaves (CalcTreeHeight nLeaves) ≤ 1
  ∧ ∀ height, height < CalcTreeHeight nLeaves →
              1 < CalcTreeWidth nLeaves height.
Proof.
  split.
  - apply Nat.nlt_ge. rewrite CalcTreeWidth_lt.
    pose proof (CalcTreeHeight_covers nLeaves). lia.
  - intros height Hlt. rewrite CalcTreeWidth_lt. unfold CalcTreeHeight in Hlt.
    destruct (decide (1 < nLeaves)) as [Hn | Hn].
    + apply Nat.log2_up_spec in Hn as [Hlow _].
      assert (2 ^ height ≤ 2 ^ Nat.pred (Nat.log2_up nLeaves)) as Hpow.
      { apply Nat.pow_le_mono_r; lia. }
      lia.
    + assert (nLeaves = 0 ∨ nLeaves = 1) as [-> | ->] by lia;
        vm_compute in Hlt; lia.
Qed.

Lemma leaves_under_split {A} (height pos : nat) (leaves : list A) :
  leaves_under (S height) pos leaves
  = leaves_under height (2 * pos) leaves
    ++ leaves_under height (2 * pos + 1) leaves.
Proof.
  unfold leaves_under.
  replace (2 ^ S height) with (2 ^ height + 2 ^ height) by (simpl; lia).
  set (m := 2 ^ height).
  replace (2 * pos * m) with (pos * (m + m)) by lia.
  replace ((2 * pos + 1) * m) with (pos * (m + m) + m) by lia.
  by rewrite <- take_take_drop, drop_drop.
Qed.

Lemma leaves_under_beyond {A} (height pos : nat) (leaves : list A) :
  length leaves ≤ pos * 2 ^ height → leaves_under height pos leaves = [].
Proof. intros Hle. unfold leaves_under. rewrite drop_ge by done. apply take_nil. Qed.

Lemma leaves_under_leaf {A} (pos : nat) (leaves : list A) (x : A) :
  leaves !! pos = Some x → leaves_under 0 pos leaves = [x].
Proof.
  intros Hx. unfold leaves_under. simpl. rewrite Nat.mul_1_r.
  rewrite (drop_S _ _ _ Hx). simpl. by rewrite take_0.
Qed.

Lemma leaves_under_root {A} (leaves : list A) :
  leaves_under (CalcTreeHeight (length leaves)) 0 leaves = leaves.
Proof.
  unfold leaves_under. simpl. rewrite drop_0. apply take_ge.
  apply CalcTreeHeight_covers.
Qed.

End TreeShape.

Section PartialMerkleTree.
Context `{HashCollab}.

Lemma matched_ids_app (l k : list (uint256 * bool)) :
  matched_ids (l ++ k) = matched_ids l ++ matched_ids k.
Proof. unfold matched_ids. by rewrite filter_app, fmap_app. Qed.

Lemma matched_ids_cons (h : uint256) (b : bool) (l : list (uint256 * bool)) :
  matched_ids ((h, b) :: l) = if b then h :: matched_ids l else matched_ids l.
Proof.
  unfold matched_ids. destruct b.
  - by rewrite filter_cons_True.
  - by rewrite filter_cons_False.
Qed.

Lemma matched_ids_none (l : list (uint256 * bool)) :
  existsb snd l = false → matched_ids l = [].
Proof.
  induction l as [|[h b] l IH]; simpl; [done |].
  intros Hex. apply orb_false_iff in Hex as [-> Hex].
  rewrite matched_ids_cons. by apply IH.
Qed.

Lemma matched_ids_tagged {A} (f : A → uint256) (s : gset uint256)
    (l : list A) :
  matched_ids ((λ x, (f x, bool_decide (f x ∈ s))) <$> l)
  = filter (λ h, h ∈ s) (f <$> l).
Proof.
  induction l as [|x l IH]; [done |].
  rewrite !fmap_cons, matched_ids_cons, filter_cons, IH.
  destruct (decide (f x ∈ s)) as [Hin | Hout].
  - by rewrite bool_decide_eq_true_2.
  - by rewrite bool_decide_eq_false_2.
Qed.

(** Replaying what [TraverseAndBuild] emitted for a node gives back the
    node's hash and the matched ids below it, and consumes exactly what
    was emitted. *)
Lemma TraverseAndExtract_Build (leaves : list (uint256 * bool))
    (height pos : nat) (bits : list bool) (hashes : list uint256) :
  pos * 2 ^ height < length leaves →
  TraverseAndExtract (length leaves) height pos
    ((TraverseAndBuild leaves height pos).1 ++ bits)
    ((TraverseAndBuild leaves height pos).2 ++ hashes)
  = Some (CalcHash leaves height pos,
          matched_ids (leaves_under height pos leaves), bits, hashes).
Proof.
  revert pos bits hashes.
  induction height as [|h IH]; intros pos bits hashes Hpos.
  - simpl in Hpos. rewrite Nat.mul_1_r in Hpos.
    apply lookup_lt_is_Some in Hpos as [[id m] Hleaf].
    cbn [TraverseAndBuild CalcHash].
    rewrite (leaves_under_leaf _ _ _ Hleaf), Hleaf. simpl.
    rewrite orb_false_r, matched_ids_cons. by destruct m.
  - cbn [TraverseAndBuild].
    destruct (existsb snd (leaves_under (S h) pos leaves)) eqn:Hany.
    + destruct (TraverseAndBuild leaves h (2 * pos)) as [bitsL hashesL] eqn:HL.
      assert (2 * pos * 2 ^ h < length leaves) as HposL.
      { simpl in Hpos. lia. }
      rewrite leaves_under_split, matched_ids_app.
      destruct (decide (2 * pos + 1 < CalcTreeWidth (length leaves) h))
        as [Hw | Hw].
      * destruct (TraverseAndBuild leaves h (2 * pos + 1))
          as [bitsR hashesR] eqn:HR.
        cbn [fst snd app TraverseAndExtract negb].
        rewrite <- !app_assoc.
        pose proof (IH (2 * pos) (bitsR ++ bits) (hashesR ++ hashes) HposL)
          as IHL.
        rewrite HL in IHL. cbn [fst snd] in IHL. rewrite IHL.
        rewrite decide_True by done.
        apply CalcTreeWidth_lt in Hw as HposR.
        pose proof (IH (2 * pos + 1) bits hashes HposR) as IHR.
        rewrite HR in IHR. cbn [fst snd] in IHR. rewrite IHR.
        cbn [CalcHash]. by rewrite decide_True.
      * cbn [fst snd app TraverseAndExtract negb].
        rewrite !app_nil_r.
        pose proof (IH (2 * pos) bits hashes HposL) as IHL.
        rewrite HL in IHL. cbn [fst snd] in IHL. rewrite IHL.
        rewrite decide_False by done.
        rewrite (leaves_under_beyond h (2 * pos + 1)).
        2:{ rewrite CalcTreeWidth_lt in Hw. lia. }
        cbn [CalcHash]. rewrite decide_False by done.
        unfold matched_ids at 2. simpl. by rewrite app_nil_r.
    + cbn [fst snd app TraverseAndExtract negb].
      by rewrite (matched_ids_none _ Hany).
Qed.

End PartialMerkleTree.

(** ** The bitmask as bytes *)

Section Bitmask.

Lemma bits_of_byte_of_bits (b0 b1 b2 b3 b4 b5 b6 b7 : bool) :
  bits_of_byte (byte_of_bits b0 b1 b2 b3 b4 b5 b6 b7)
  = [b0; b1; b2; b3; b4; b5; b6; b7].
Proof. unfold bits_of_byte, byte_of_bits. by rewrite Byte.to_bits_of_bits. Qed.

(** Reading back the bytes of a bitmask gives the bitmask followed by fewer
    than eight zero bits, up to the next multiple of eight. *)
Lemma bytes_to_bits_to_bytes (bits : list bool) :
  ∃ pad, bytes_to_bits (bits_to_bytes bits) = bits ++ pad
         ∧ length pad < 8
         ∧ (length bits + length pad) mod 8 = 0.
Proof.
  remember (length bits) as len eqn:Hlen. revert bits Hlen.
  induction len as [len IH] using lt_wf_ind. intros bits Hlen. subst len.
  destruct bits as [|b0 [|b1 [|b2 [|b3 [|b4 [|b5 [|b6 [|b7 rest]]]]]]]].
  9:{ destruct (IH (length rest)) with (bits := rest)
        as (pad & Hpad & Hlt & Hmod); [simpl; lia | done |].
      exists pad. cbn [bits_to_bytes bytes_to_bits].
      rewrite bits_of_byte_of_bits, Hpad. split_and!; [done | done |].
      match goal with
      | |- ?x mod 8 = 0 =>
          replace x with (length rest + length pad + 1 * 8) by (simpl; lia)
      end.
      by rewrite Nat.Div0.mod_add. }
  1:{ exists []. split_and!; simpl; (done || lia). }
  all: cbn [bits_to_bytes bytes_to_bits nth]; rewrite bits_of_byte_of_bits.
  - exists (replicate 7 false). split_and!; simpl; (done || lia).
  - exists (replicate 6 false). split_and!; simpl; (done || lia).
  - exists (replicate 5 false). split_and!; simpl; (done || lia).
  - exists (replicate 4 false). split_and!; simpl; (done || lia).
  - exists (replicate 3 false). split_and!; simpl; (done || lia).
  - exists (replicate 2 false). split_and!; simpl; (done || lia).
  - exists (replicate 1 false). split_and!; simpl; (done || lia).
Qed.

Lemma padded_bits_same_bytes (used pad : nat) :
  pad < 8 → (used + pad) mod 8 = 0 →
  (used + 7) / 8 = (used + pad + 7) / 8.
Proof.
  intros Hp Hm.
  pose proof (Nat.div_mod_eq (used + pad) 8) as E0.
  pose proof (Nat.div_mod_eq (used + 7) 8) as E1.
  pose proof (Nat.mod_upper_bound (used + 7) 8 ltac:(lia)) as B1.
  pose proof (Nat.div_mod_eq (used + pad + 7) 8) as E2.
  pose proof (Nat.mod_upper_bound (used + pad + 7) 8 ltac:(lia)) as B2.
  lia.
Qed.

End Bitmask.

(** ** Building and extracting *)

Section BuildExtract.
Context `{HashCollab}.

(** Extraction from a tree built over a non-empty leaf list, with the
    bitmask read back from its bytes: the root of the full tree, and the
    matched ids in leaf order. *)
Lemma spec_ExtractMatches_built (leaves : list (uint256 * bool)) :
  leaves ≠ [] →
  spec_ExtractMatches
    {| nTransactions := nTransactions (CPartialMerkleTree_of leaves);
       vBits := bytes_to_bits
                  (bits_to_bytes (vBits (CPartialMerkleTree_of leaves)));
       vHash := vHash (CPartialMerkleTree_of leaves) |}
  = (CalcHash leaves (CalcTreeHeight (length leaves)) 0, matched_ids leaves).
Proof.
  intros Hne. unfold CPartialMerkleTree_of.
  set (height := CalcTreeHeight (length leaves)).
  pose proof (TraverseAndExtract_Build leaves height 0) as Hext.
  destruct (TraverseAndBuild leaves height 0) as [bits hashes] eqn:Hbuild.
  cbn [nTransactions vBits vHash fst snd] in *.
  destruct (bytes_to_bits_to_bytes bits) as (pad & -> & Hlt & Hmod).
  unfold spec_ExtractMatches. cbn [nTransactions vBits vHash].
  rewrite decide_False.
  2:{ destruct leaves; [done | simpl; lia]. }
  fold height. specialize (Hext pad []). rewrite app_nil_r in Hext.
  rewrite Hext.
  2:{ destruct leaves; [done | simpl; lia]. }
  unfold height at 2. rewrite leaves_under_root.
  rewrite decide_True; [done |]. split; [| done].
  rewrite length_app.
  replace (length bits + length pad - length pad) with (length bits) by lia.
  by apply padded_bits_same_bytes.
Qed.

(** A bitmask that starts with a zero bit commits to no id. *)
Lemma TraverseAndExtract_unmatched nLeaves height pos bits hashes r :
  TraverseAndExtract nLeaves height pos (false :: bits) hashes = Some r →
  r.1.1.2 = [].
Proof.
  destruct height; simpl; destruct hashes; try done; by intros [= <-].
Qed.

Lemma TraverseAndBuild_unmatched (leaves : list (uint256 * bool))
    (height pos : nat) :
  existsb snd (leaves_under height pos leaves) = false →
  TraverseAndBuild leaves height pos
  = ([false], [CalcHash leaves height pos]).
Proof. intros Hnone. destruct height; cbn [TraverseAndBuild]; by rewrite Hnone. Qed.

End BuildExtract.

(** ** gettxoutproof *)

Section ProofBuilderFacts.
Context `{HashCollab}.

Lemma parse_txids_set (txids : list string) (acc : gset uint256)
    (one : uint256) (setTxids : gset uint256) (oneTxid : uint256) :
  parse_txids txids acc one = Returned (setTxids, oneTxid) →
  setTxids = list_to_set (uint256S <$> txids) ∪ acc.
Proof.
  revert acc one. induction txids as [|txid rest IH]; intros acc one; simpl.
  - intros [= <- <-]. by rewrite (left_id_L ∅ (∪)).
  - destruct (negb (String.length txid =? 64) || negb (IsHex txid)); [done |].
    destruct (decide (uint256S txid ∈ acc)); [done |].
    intros Hrest. apply IH in Hrest as ->.
    by rewrite (assoc_L (∪)), (comm_L (∪) (list_to_set _) {[_]}).
Qed.

Lemma count_found_spec (setTxids : gset uint256) (txs : list CTransaction)
    (ntxFound : N) :
  (ntxFound < 2 ^ 32)%N →
  count_found setTxids txs ntxFound
  = ((ntxFound
      + N.of_nat (length (filter (λ h, h ∈ setTxids) (TxGetHash <$> txs))))
     mod 2 ^ 32)%N.
Proof.
  revert ntxFound. induction txs as [|tx rest IH]; intros ntxFound Hlt;
    cbn [count_found].
  - simpl. rewrite N.add_0_r. by rewrite N.mod_small.
  - rewrite fmap_cons, filter_cons.
    destruct (decide (TxGetHash tx ∈ setTxids)).
    + rewrite IH by (apply N.mod_upper_bound; lia).
      rewrite N.Div0.add_mod_idemp_l. f_equal. cbn [length]. lia.
    + by rewrite IH.
Qed.

Lemma count_found_exact (setTxids : gset uint256) (txs : list CTransaction) :
  (N.of_nat (length txs) < 2 ^ 32)%N →
  count_found setTxids txs 0
  = N.of_nat (length (filter (λ h, h ∈ setTxids) (TxGetHash <$> txs))).
Proof.
  intros Hlen. rewrite count_found_spec by lia. rewrite N.add_0_l.
  apply N.mod_small.
  pose proof (length_filter (λ h, h ∈ setTxids) (TxGetHash <$> txs)) as Hle.
  rewrite length_fmap in Hle. lia.
Qed.

Lemma found_all_iff (setTxids : gset uint256) (ids : list uint256) :
  NoDup ids →
  length (filter (λ h, h ∈ setTxids) ids) = size setTxids
  ↔ ∀ id, id ∈ setTxids → id ∈ ids.
Proof.
  intros Hnd.
  set (found := filter (λ h, h ∈ setTxids) ids).
  assert (NoDup found) as Hndf by (by apply NoDup_filter).
  assert (list_to_set found ⊆ setTxids) as Hsub.
  { intros id Hid. apply elem_of_list_to_set in Hid.
    by apply list_elem_of_filter in Hid as [Hid _]. }
  rewrite <- (size_list_to_set (C := gset uint256) found) by done.
  split.
  - intros Hsize id Hid.
    assert (list_to_set found = setTxids) as Heq.
    { apply set_subseteq_size_eq; [done | lia]. }
    rewrite <- Heq in Hid. apply elem_of_list_to_set in Hid.
    by apply list_elem_of_filter in Hid as [_ Hid].
  - intros Hall. f_equal. apply set_eq. intros id. split; [apply Hsub |].
    intros Hid. apply elem_of_list_to_set, list_elem_of_filter.
    split; [done | by apply Hall].
Qed.

(** The check of lines 522-527 on a block whose transaction ids are
    pairwise distinct. *)
Lemma prove_in_block_spec `{MerkleCollab} (cs : ChainState)
    (setTxids : gset uint256) (pblockindex : CBlockIndex) (block : CBlock) :
  ReadBlockFromDisk cs pblockindex = Some block →
  NoDup (TxGetHash <$> vtx block) →
  (N.of_nat (length (vtx block)) < 2 ^ 32)%N →
  prove_in_block cs setTxids pblockindex
  = if decide (∀ id, id ∈ setTxids → id ∈ (TxGetHash <$> vtx block))
    then Returned (Serialize (CMerkleBlock_of block setTxids))
    else Thrown RPC_INVALID_ADDRESS_OR_KEY
           "(Not all) transactions not found in specified block".
Proof.
  intros Hread Hnd Hlen. unfold prove_in_block. rewrite Hread.
  rewrite count_found_exact by done.
  pose proof (found_all_iff setTxids _ Hnd) as Hiff.
  destruct (decide (∀ id, id ∈ setTxids → id ∈ (TxGetHash <$> vtx block)))
    as [Hall | Hmiss].
  - apply Hiff in Hall as ->. by rewrite N.eqb_refl.
  - destruct (N.eqb_spec
                (N.of_nat (length (filter (λ h, h ∈ setTxids)
                                     (TxGetHash <$> vtx block))))
                (N.of_nat (size setTxids))) as [Heq | Hne]; [| done].
    destruct Hmiss. apply Hiff. lia.
Qed.

End ProofBuilderFacts.

Section ProofRoundTripFacts.
Context `{HashCollab}.

(** The hash of a node does not depend on the tags. *)
Lemma CalcHash_tags (l k : list (uint256 * bool)) (height pos : nat) :
  fst <$> l = fst <$> k → CalcHash l height pos = CalcHash k height pos.
Proof.
  intros Hfst.
  assert (length l = length k) as Hlen.
  { by rewrite <- (length_fmap fst l), Hfst, length_fmap. }
  revert pos. induction height as [|h IH]; intros pos; cbn [CalcHash].
  - by rewrite <- !list_lookup_fmap, Hfst.
  - by rewrite Hlen, !IH.
Qed.

Lemma tagged_root (block : CBlock) (txids : gset uint256) :
  CalcHash
    ((λ tx, (TxGetHash tx, bool_decide (TxGetHash tx ∈ txids))) <$> vtx block)
    (CalcTreeHeight (length (vtx block))) 0
  = BlockMerkleRoot block.
Proof.
  unfold BlockMerkleRoot. rewrite length_fmap.
  apply CalcHash_tags. rewrite <- !list_fmap_compose.
  by apply list_fmap_ext.
Qed.

(** What verification extracts from the proof built for a non-empty
    block, after the proof went through its serialized form. *)
Lemma extract_serialized_proof (block : CBlock) (txids : gset uint256) :
  vtx block ≠ [] →
  ∃ mb, spec_Unserialize (spec_Serialize (spec_CMerkleBlock block txids))
        = Some mb
        ∧ mb_header mb = header block
        ∧ spec_ExtractMatches (txn mb)
          = (BlockMerkleRoot block,
             filter (λ h, h ∈ txids) (TxGetHash <$> vtx block)).
Proof.
  intros Hne. eexists. split; [reflexivity |]. split; [reflexivity |].
  cbn [spec_Serialize spec_CMerkleBlock txn mb_header ser_header
       ser_nTransactions ser_vHash ser_vBytes].
  rewrite spec_ExtractMatches_built.
  - rewrite length_fmap, tagged_root. f_equal. apply matched_ids_tagged.
  - intros Hnil. apply fmap_nil_inv in Hnil. done.
Qed.

Lemma leaves_under_untagged {A} (f : A → uint256) (l : list A)
    (height pos : nat) :
  existsb snd
    (leaves_under height pos
       ((λ x, (f x, bool_decide (f x ∈ (∅ : gset uint256)))) <$> l))
  = false.
Proof.
  unfold leaves_under.
  assert (∀ k : list (uint256 * bool),
            Forall (λ leaf, snd leaf = false) k → existsb snd k = false)
    as Hall.
  { induction 1 as [|[h b] k Hb _ IH]; simpl; [done |].
    simpl in Hb. by rewrite Hb, IH. }
  apply Hall, Forall_take, Forall_drop, Forall_fmap, Forall_forall.
  intros x _. cbn [snd]. by apply bool_decide_eq_false_2, not_elem_of_empty.
Qed.

End ProofRoundTripFacts.

(** ** The statements about inclusion proofs *)

(** C4: verification compares the root that [ExtractMatches] recomputes
    with the header's root first.  On a mismatch the call returns an empty
    list, whatever the chain state; on a match the block is looked up, and
    an unknown block or one outside the active chain makes the call fail
    with "Block not found in chain"; otherwise the matched ids are
    returned. *)
Theorem verify_mismatch_or_unknown_block `{HashCollab} `{MerkleCollab}
    (merkleBlock : CMerkleBlock) :
  (∀ cs,
     (ExtractMatches (txn merkleBlock)).1
     ≠ hashMerkleRoot (mb_header merkleBlock) →
     verifytxoutproof cs merkleBlock = Returned [])
  ∧ (∀ cs,
       (ExtractMatches (txn merkleBlock)).1
       = hashMerkleRoot (mb_header merkleBlock) →
       (mapBlockIndex cs !! HeaderGetHash (mb_header merkleBlock) = None
        ∨ ∃ pindex,
            mapBlockIndex cs !! HeaderGetHash (mb_header merkleBlock)
            = Some pindex
            ∧ chainActive_Contains cs pindex = false) →
       verifytxoutproof cs merkleBlock
       = Thrown RPC_INVALID_ADDRESS_OR_KEY "Block not found in chain")
  ∧ (∀ cs pindex,
       (ExtractMatches (txn merkleBlock)).1
       = hashMerkleRoot (mb_header merkleBlock) →
       mapBlockIndex cs !! HeaderGetHash (mb_header merkleBlock)
       = Some pindex →
       chainActive_Contains cs pindex = true →
       verifytxoutproof cs merkleBlock
       = Returned (GetHex <$> (ExtractMatches (txn merkleBlock)).2)).
Proof.
  unfold verifytxoutproof.
  destruct (ExtractMatches (txn merkleBlock)) as [root vMatch]. simpl.
  split_and!.
  - intros cs Hne. apply N.eqb_neq in Hne. by rewrite Hne.
  - intros cs -> Hout. rewrite N.eqb_refl. simpl.
    by destruct Hout as [-> | (pindex & -> & ->)].
  - intros cs pindex -> Hin Hact. rewrite N.eqb_refl. simpl.
    by rewrite Hin, Hact.
Qed.

(** C5 (as amended): once the block is resolved and read, and provided its
    transaction ids are pairwise distinct (and fewer than 2^32), proof
    construction fails with
    "(Not all) transactions not found in specified block" if some
    requested id is not among the block's transactions, and returns the
    serialized proof for the whole request if every requested id is. *)
Theorem proof_all_or_nothing `{HashCollab} `{MerkleCollab}
    (cs : ChainState) (txids : list string) (blockhash : option string)
    (setTxids : gset uint256) (oneTxid : uint256)
    (pblockindex : CBlockIndex) (block : CBlock) :
  parse_txids txids ∅ 0%N = Returned (setTxids, oneTxid) →
  find_block_index cs oneTxid blockhash = Returned pblockindex →
  ReadBlockFromDisk cs pblockindex = Some block →
  NoDup (TxGetHash <$> vtx block) →
  (N.of_nat (length (vtx block)) < 2 ^ 32)%N →
  setTxids = list_to_set (uint256S <$> txids)
  ∧ ((∃ id, id ∈ setTxids ∧ id ∉ (TxGetHash <$> vtx block)) →
     gettxoutproof cs txids blockhash
     = Thrown RPC_INVALID_ADDRESS_OR_KEY
         "(Not all) transactions not found in specified block")
  ∧ ((∀ id, id ∈ setTxids → id ∈ (TxGetHash <$> vtx block)) →
     gettxoutproof cs txids blockhash
     = Returned (Serialize (CMerkleBlock_of block setTxids))).
Proof.
  intros Hparse Hfind Hread Hnd Hlen.
  pose proof (parse_txids_set _ _ _ _ _ Hparse) as Hset.
  rewrite (right_id_L ∅ (∪)) in Hset.
  unfold gettxoutproof. rewrite Hparse, Hfind.
  rewrite (prove_in_block_spec cs setTxids pblockindex block Hread Hnd Hlen).
  split_and!; [done | |].
  - intros (id & Hin & Hout). rewrite decide_False; [done |].
    intros Hall. by apply Hout, Hall.
  - intros Hall. by rewrite decide_True.
Qed.

(** C3: for a block that is read back for the request, whose header
    carries the Merkle root of its transactions and whose transaction ids
    are pairwise distinct (and fewer than 2^32), and a non-empty set of ids
    all in the block, [gettxoutproof] returns a proof, and
    [verifytxoutproof] on that proof returns, without error when the block
    is on the active chain, a list that is a permutation of the requested
    set. *)
Theorem proof_round_trip `{HashCollab}
    (cs : ChainState) (txids : list string) (blockhash : option string)
    (setTxids : gset uint256) (oneTxid : uint256)
    (pblockindex pindex : CBlockIndex) (block : CBlock) :
  parse_txids txids ∅ 0%N = Returned (setTxids, oneTxid) →
  setTxids ≠ ∅ →
  find_block_index cs oneTxid blockhash = Returned pblockindex →
  ReadBlockFromDisk cs pblockindex = Some block →
  hashMerkleRoot (header block) = BlockMerkleRoot block →
  NoDup (TxGetHash <$> vtx block) →
  (N.of_nat (length (vtx block)) < 2 ^ 32)%N →
  (∀ id, id ∈ setTxids → id ∈ (TxGetHash <$> vtx block)) →
  mapBlockIndex cs !! HeaderGetHash (header block) = Some pindex →
  chainActive_Contains cs pindex = true →
  ∃ proof merkleBlock vMatch,
    @gettxoutproof _ spec_merkle cs txids blockhash = Returned proof
    ∧ spec_Unserialize proof = Some merkleBlock
    ∧ @verifytxoutproof _ spec_merkle cs merkleBlock
      = Returned (GetHex <$> vMatch)
    ∧ vMatch ≡ₚ elements setTxids.
Proof.
  intros Hparse Hne Hfind Hread Hroot Hnd Hlen Hall Hknown Hactive.
  assert (@gettxoutproof _ spec_merkle cs txids blockhash
          = Returned (spec_Serialize (spec_CMerkleBlock block setTxids)))
    as Hbuilt.
  { unfold gettxoutproof. rewrite Hparse, Hfind.
    rewrite (@prove_in_block_spec _ spec_merkle cs setTxids pblockindex block
               Hread Hnd Hlen).
    by rewrite decide_True. }
  assert (vtx block ≠ []) as Hvtx.
  { intros Hnil. apply Hne. apply set_eq. intros id. split.
    - intros Hid. apply Hall in Hid. rewrite Hnil in Hid.
      by apply elem_of_nil in Hid.
    - intros Hid. by apply not_elem_of_empty in Hid. }
  destruct (extract_serialized_proof block setTxids Hvtx)
    as (mb & Hmb & Hhdr & Hext).
  exists (spec_Serialize (spec_CMerkleBlock block setTxids)), mb,
    (filter (λ h, h ∈ setTxids) (TxGetHash <$> vtx block)).
  split_and!; [exact Hbuilt | exact Hmb | |].
  - unfold verifytxoutproof. cbn [ExtractMatches spec_merkle].
    rewrite Hext, Hhdr, Hroot, N.eqb_refl. cbn [negb].
    by rewrite Hknown, Hactive.
  - apply NoDup_Permutation.
    + by apply NoDup_filter.
    + apply NoDup_elements.
    + intros id. rewrite list_elem_of_filter, elem_of_elements.
      split; [by intros [? _] | intros Hid; split; [done | by apply Hall]].
Qed.

(** C10: a request with an empty [txids] array and the hash of a block
    that is known and can be read is not rejected: the check of lines
    522-527 compares zero with zero, and the call returns the serialized
    merkle block built for the empty target set, which commits to no
    transaction (its bitmask is a single zero bit and extraction recovers
    no id). *)
Theorem empty_request_returns_proof `{HashCollab}
    (cs : ChainState) (strBlockHash : string)
    (pblockindex : CBlockIndex) (block : CBlock) :
  mapBlockIndex cs !! uint256S strBlockHash = Some pblockindex →
  ReadBlockFromDisk cs pblockindex = Some block →
  (∀ M : MerkleCollab,
     count_found ∅ (vtx block) 0 = N.of_nat (size (∅ : gset uint256))
     ∧ @gettxoutproof _ M cs [] (Some strBlockHash)
       = Returned (Serialize (CMerkleBlock_of block ∅)))
  ∧ vBits (txn (spec_CMerkleBlock block ∅)) = [false]
  ∧ ∀ merkleBlock,
      spec_Unserialize (spec_Serialize (spec_CMerkleBlock block ∅))
      = Some merkleBlock →
      (spec_ExtractMatches (txn merkleBlock)).2 = [].
Proof.
  intros Hknown Hread.
  assert (∀ txs ntxFound, count_found ∅ txs ntxFound = ntxFound) as Hcount.
  { induction txs as [|tx rest IH]; intros ntxFound; simpl; [done |].
    rewrite decide_False by apply not_elem_of_empty. apply IH. }
  assert (vBits (txn (spec_CMerkleBlock block ∅)) = [false]) as Hbits.
  { cbn [spec_CMerkleBlock txn]. unfold CPartialMerkleTree_of.
    by rewrite TraverseAndBuild_unmatched by apply leaves_under_untagged. }
  split_and!.
  - intros M. split; [by rewrite Hcount |].
    unfold gettxoutproof, find_block_index, prove_in_block. simpl.
    by rewrite Hknown, Hread, Hcount.
  - exact Hbits.
  - intros mb [= <-]. cbn [spec_Serialize txn ser_vBytes ser_vHash
                           ser_nTransactions].
    cbn [spec_CMerkleBlock txn] in Hbits. rewrite Hbits.
    unfold spec_ExtractMatches. cbn [nTransactions vBits vHash].
    destruct (decide _); [done |].
    destruct (TraverseAndExtract _ _ _ _ _) as [[[[root vMatch] bl] hl]|]
      eqn:Hext; [| done].
    change (bytes_to_bits (bits_to_bytes [false]))
      with (false :: replicate 7 false) in Hext.
    apply TraverseAndExtract_unmatched in Hext. simpl in Hext. subst vMatch.
    by destruct (decide _).
Qed.

(** ** Concrete runs of the proof builder and verifier *)

(** The block [A; B; C; D] and the targets B and D: the traversal emits
    the bits 1,1,0,1,1,0,1 (the byte 0x5b) and the four leaf ids. *)
Example proof_for_B_and_D :
  @gettxoutproof Sample.hashing (@spec_merkle Sample.hashing)
    (Sample.chain_with Sample.block_ABCD)
    [Sample.id_B; Sample.id_D] (Some Sample.hash_of_block)
  = Returned
      {| ser_header := header Sample.block_ABCD;
         ser_nTransactions := 4;
         ser_vHash := [10; 11; 12; 13]%N;
         ser_vBytes := [x5b] |}.
Proof. vm_compute. reflexivity. Qed.

(** Tampering with a retained hash of that proof: the root no longer
    matches and the result is the empty list. *)
Example tampered_proof_rejected :
  @verifytxoutproof Sample.hashing (@spec_merkle Sample.hashing)
    (Sample.chain_with Sample.block_ABCD)
    {| mb_header := header Sample.block_ABCD;
       txn := {| nTransactions := 4;
                 vBits := [true; true; false; true; true; false; true; false];
                 vHash := [10; 11; 12; 14]%N |} |}
  = Returned [].
Proof. vm_compute. reflexivity. Qed.

(** A bitmask that asks for more hashes than the proof carries is
    rejected. *)
Example short_hash_list_rejected :
  @spec_ExtractMatches Sample.hashing
    {| nTransactions := 4;
       vBits := [true; true; false; true; true; false; true; false];
       vHash := [10; 11; 12]%N |}
  = (0%N, []).
Proof. vm_compute. reflexivity. Qed.

Lemma verify_mismatch_or_unknown_block_witness :
  @verifytxoutproof Sample.hashing (@spec_merkle Sample.hashing)
    (Sample.chain_with Sample.block_AA)
    (@spec_CMerkleBlock Sample.hashing Sample.block_ABCD ({[ 11%N; 13%N ]} : gset uint256))
  = Thrown RPC_INVALID_ADDRESS_OR_KEY "Block not found in chain".
Proof.
  apply (proj1 (proj2
    (@verify_mismatch_or_unknown_block Sample.hashing
       (@spec_merkle Sample.hashing)
       (@spec_CMerkleBlock Sample.hashing Sample.block_ABCD
          ({[ 11%N; 13%N ]} : gset uint256))))).
  - vm_compute. reflexivity.
  - left. vm_compute. reflexivity.
Defined.

Lemma proof_all_or_nothing_witness :
  @gettxoutproof Sample.hashing (@spec_merkle Sample.hashing)
    (Sample.chain_with Sample.block_ABCD)
    [Sample.id_B; Sample.id_D] (Some Sample.hash_of_block)
  = Returned
      (spec_Serialize
         (@spec_CMerkleBlock Sample.hashing Sample.block_ABCD
            ({[ 11%N; 13%N ]} : gset uint256))).
Proof.
  refine (proj2 (proj2
    (@proof_all_or_nothing Sample.hashing (@spec_merkle Sample.hashing)
       (Sample.chain_with Sample.block_ABCD)
       [Sample.id_B; Sample.id_D] (Some Sample.hash_of_block)
       ({[ 11%N; 13%N ]} : gset uint256) 13%N (Sample.index_of Sample.block_ABCD 1)
       Sample.block_ABCD _ _ _ _ _)) _).
  - vm_compute. reflexivity.
  - vm_compute. reflexivity.
  - vm_compute. reflexivity.
  - apply (bool_decide_unpack _). vm_compute. exact I.
  - vm_compute. reflexivity.
  - apply (bool_decide_unpack (set_Forall _ _)). vm_compute. exact I.
Defined.

(** C5 (counterexample): the message thrown for a missing id is "(Not
    all) transactions not found in specified block", which is not the text
    "not all transactions found in specified block"; and on a block in
    which a transaction id occurs twice, a request for that id alone is
    refused although the id is in the block, while a request for that id
    and a missing one is answered with a proof. *)
Lemma all_or_nothing_counterexample :
  (@gettxoutproof Sample.hashing (@spec_merkle Sample.hashing)
     (Sample.chain_with Sample.block_ABCD)
     [Sample.id_B; Sample.id_Z] (Some Sample.hash_of_block)
   = Thrown RPC_INVALID_ADDRESS_OR_KEY
       "(Not all) transactions not found in specified block"
   ∧ "(Not all) transactions not found in specified block"
     ≠ "not all transactions found in specified block")
  ∧ (@uint256S Sample.hashing Sample.id_A
       ∈ (@TxGetHash Sample.hashing <$> vtx Sample.block_AA)
     ∧ @gettxoutproof Sample.hashing (@spec_merkle Sample.hashing)
         (Sample.chain_with Sample.block_AA)
         [Sample.id_A] (Some Sample.hash_of_block)
       = Thrown RPC_INVALID_ADDRESS_OR_KEY
           "(Not all) transactions not found in specified block")
  ∧ ((@uint256S Sample.hashing Sample.id_Z
        ∉ (@TxGetHash Sample.hashing <$> vtx Sample.block_AA))
     ∧ ∃ proof,
         @gettxoutproof Sample.hashing (@spec_merkle Sample.hashing)
           (Sample.chain_with Sample.block_AA)
           [Sample.id_A; Sample.id_Z] (Some Sample.hash_of_block)
         = Returned proof).
Proof.
  split_and!.
  - vm_compute. reflexivity.
  - discriminate.
  - apply (bool_decide_unpack _). vm_compute. exact I.
  - vm_compute. reflexivity.
  - apply (bool_decide_unpack _). vm_compute. exact I.
  - eexists. vm_compute. reflexivity.
Qed.

Lemma proof_round_trip_witness :
  ∃ proof merkleBlock vMatch,
    @gettxoutproof Sample.hashing (@spec_merkle Sample.hashing)
      (Sample.chain_with Sample.block_ABCD)
      [Sample.id_B; Sample.id_D] (Some Sample.hash_of_block)
    = Returned proof
    ∧ spec_Unserialize proof = Some merkleBlock
    ∧ @verifytxoutproof Sample.hashing (@spec_merkle Sample.hashing)
        (Sample.chain_with Sample.block_ABCD) merkleBlock
      = Returned (@GetHex Sample.hashing <$> vMatch)
    ∧ vMatch ≡ₚ elements ({[ 11%N; 13%N ]} : gset uint256).
Proof.
  apply (@proof_round_trip Sample.hashing
           (Sample.chain_with Sample.block_ABCD)
           [Sample.id_B; Sample.id_D] (Some Sample.hash_of_block)
           ({[ 11%N; 13%N ]} : gset uint256) 13%N
           (Sample.index_of Sample.block_ABCD 1)
           (Sample.index_of Sample.block_ABCD 1) Sample.block_ABCD).
  - vm_compute. reflexivity.
  - apply (bool_decide_unpack _). vm_compute. exact I.
  - vm_compute. reflexivity.
  - vm_compute. reflexivity.
  - vm_compute. reflexivity.
  - apply (bool_decide_unpack _). vm_compute. exact I.
  - vm_compute. reflexivity.
  - apply (bool_decide_unpack (set_Forall _ _)). vm_compute. exact I.
  - vm_compute. reflexivity.
  - vm_compute. reflexivity.
Defined.

Lemma empty_request_returns_proof_witness :
  @gettxoutproof Sample.hashing (@spec_merkle Sample.hashing)
    (Sample.chain_with Sample.block_ABCD) [] (Some Sample.hash_of_block)
  = Returned
      (spec_Serialize (@spec_CMerkleBlock Sample.hashing Sample.block_ABCD (∅ : gset uint256))).
Proof.
  refine (proj2 (proj1
    (@empty_request_returns_proof Sample.hashing
       (Sample.chain_with Sample.block_ABCD) Sample.hash_of_block
       (Sample.index_of Sample.block_ABCD 1) Sample.block_ABCD _ _)
    (@spec_merkle Sample.hashing))).
  - vm_compute. reflexivity.
  - vm_compute. reflexivity.
Defined.

(** * Further properties *)

(** ** What the signing loops leave alone, and what their errors name *)

Section SigningFrame.
Context {P : Type} `{!ScriptCollab P}.
Implicit Types (tx : CMutableTransactionBase P) (st : SignState P).
Implicit Types (view : gmap uint256 CCoins) (txin : CTxIn).

Lemma scripts_only_refl tx : scripts_only tx tx.
Proof. by split_and!. Qed.

Lemma scripts_only_trans tx1 tx2 tx3 :
  scripts_only tx1 tx2 → scripts_only tx2 tx3 → scripts_only tx1 tx3.
Proof.
  intros (A1 & A2 & A3 & A4 & A5) (B1 & B2 & B3 & B4 & B5).
  split_and!; congruence.
Qed.

Lemma same_but_script_scripts_only i tx tx' :
  same_but_script i tx tx' → scripts_only tx tx'.
Proof.
  intros (A1 & A2 & A3 & A4 & A5 & A6 & A7). split_and!; try done.
  - apply list_eq. intros j. rewrite !list_lookup_fmap. apply A5.
  - apply list_eq. intros j. rewrite !list_lookup_fmap. apply A6.
Qed.

Lemma same_but_script_in_key i j tx tx' :
  same_but_script i tx tx' →
  in_key <$> vin tx' !! j = in_key <$> vin tx !! j.
Proof.
  intros (_ & _ & _ & _ & A5 & A6 & _).
  specialize (A5 j). specialize (A6 j).
  destruct (vin tx' !! j) as [a|], (vin tx !! j) as [b|]; try done.
  simpl in *. injection A5 as A5. injection A6 as A6.
  unfold in_key. by rewrite A5, A6.
Qed.

Lemma omap_ext_all {A B} (f g : A → option B) (l : list A) :
  (∀ x, f x = g x) → omap f l = omap g l.
Proof.
  intros Hfg. induction l as [|x l IH]; [done |].
  cbn [omap list_omap]. by rewrite Hfg, IH.
Qed.

Lemma map_fmap {A B} (f : A → B) (l : list A) : map f l = f <$> l.
Proof. induction l as [|x l IH]; simpl; [done | by rewrite IH]. Qed.

Lemma verify_input_key pubKey i tx errs :
  ∃ es, verify_input pubKey i tx errs = errs ++ es
        ∧ (es = []
           ∨ ∃ e, es = [e] ∧ Some (err_key e) = in_key <$> vin tx !! i).
Proof.
  destruct (verify_input_errors pubKey i tx errs)
    as [-> | (txin & serror & Hin & Hv & ->)].
  - exists []. rewrite app_nil_r. split; [done | by left].
  - eexists. split; [reflexivity |]. right. eexists. split; [reflexivity |].
    by rewrite Hin.
Qed.

Lemma step_keys_shift body i st st' tx :
  body i st = Some st' →
  same_but_script i (merged st) tx →
  (∃ es, vErrors st' = vErrors st ++ es
         ∧ (es = []
            ∨ ∃ e, es = [e] ∧ Some (err_key e) = in_key <$> vin tx !! i)) →
  ∃ es, vErrors st' = vErrors st ++ es
        ∧ (es = []
           ∨ ∃ e, es = [e]
                  ∧ Some (err_key e) = in_key <$> vin (merged st) !! i).
Proof.
  intros _ Hsame (es & E & Hes). exists es. split; [done |].
  destruct Hes as [-> | (e & -> & Hk)]; [by left |]. right.
  exists e. split; [done |].
  by rewrite <- (same_but_script_in_key i i (merged st) tx).
Qed.

Lemma sign_tx_input_keys view keystore nHashType txVariants :
  step_keys (sign_tx_input view keystore nHashType txVariants).
Proof.
  intros i st st' Hbody.
  destruct (sign_tx_input_spec view keystore nHashType txVariants)
    as [_ Hframe].
  destruct (Hframe _ _ _ Hbody) as [Hsame _].
  eapply step_keys_shift; [exact Hbody | exact Hsame |].
  revert Hbody. unfold sign_tx_input.
  destruct (vin (merged st) !! i) as [txin|] eqn:Hi; [| done].
  destruct (prevPubKey view txin) as [pubKey|] eqn:Hres.
  - cbv zeta.
    match goal with
    | |- context [merge_variants pubKey i txVariants ?t] => set (tx2 := t)
    end.
    destruct (merge_variants pubKey i txVariants tx2) as [tx3|]; [| done].
    intros [= <-]. simpl. apply verify_input_key.
  - intros [= <-]. simpl. eexists. split; [reflexivity |]. right.
    eexists. split; [reflexivity |]. by rewrite Hi.
Qed.

Lemma sign_cert_input_keys view keystore :
  step_keys (sign_cert_input view keystore).
Proof.
  intros i st st' Hbody.
  destruct (sign_cert_input_spec view keystore) as [_ Hframe].
  destruct (Hframe _ _ _ Hbody) as [Hsame _].
  eapply step_keys_shift; [exact Hbody | exact Hsame |].
  revert Hbody. unfold sign_cert_input.
  destruct (vin (merged st) !! i) as [txin|] eqn:Hi; [| done].
  destruct (prevPubKey view txin) as [pubKey|] eqn:Hres.
  - intros [= <-]. simpl. apply verify_input_key.
  - intros [= <-]. simpl. eexists. split; [reflexivity |]. right.
    eexists. split; [reflexivity |]. by rewrite Hi.
Qed.

Section LoopFrame.
Variable view : gmap uint256 CCoins.
Variable body : nat → SignState P → option (SignState P).
Hypothesis body_spec : step_spec view body.

Lemma for_each_scripts_only indices st st' :
  for_each body indices st = Some st' →
  scripts_only (merged st) (merged st').
Proof.
  revert st. induction indices as [|i rest IH]; intros st; simpl.
  - intros [= <-]. apply scripts_only_refl.
  - destruct (body i st) as [st1|] eqn:Hstep; [| done]. intros Hrest.
    destruct body_spec as [_ Hframe].
    destruct (Hframe _ _ _ Hstep) as [Hsame _].
    eapply scripts_only_trans; [| by apply IH].
    by eapply same_but_script_scripts_only.
Qed.

Lemma for_each_keys indices st st' :
  step_keys body →
  for_each body indices st = Some st' →
  ∃ es, vErrors st' = vErrors st ++ es
        ∧ err_key <$> es
          `sublist_of` omap (λ i, in_key <$> vin (merged st) !! i) indices.
Proof.
  intros Hkeys. revert st. induction indices as [|i rest IH]; intros st; simpl.
  - intros [= <-]. exists []. rewrite app_nil_r. split; [done | constructor].
  - destruct (body i st) as [st1|] eqn:Hstep; [| done]. intros Hrest.
    destruct body_spec as [_ Hframe].
    destruct (Hframe _ _ _ Hstep) as [Hsame _].
    destruct (Hkeys _ _ _ Hstep) as (es1 & E1 & Hes1).
    destruct (IH _ Hrest) as (es2 & E2 & Hsub).
    assert (omap (λ j, in_key <$> vin (merged st1) !! j) rest
            = omap (λ j, in_key <$> vin (merged st) !! j) rest) as Heq.
    { apply omap_ext_all. intros j. by apply (same_but_script_in_key i j). }
    rewrite Heq in Hsub.
    exists (es1 ++ es2). split; [by rewrite E2, E1, app_assoc |].
    destruct Hes1 as [-> | (e & -> & Hk)]; simpl.
    + destruct (in_key <$> vin (merged st) !! i); [| done].
      by apply sublist_cons.
    + rewrite <- Hk. by apply sublist_skip.
Qed.

End LoopFrame.

End SigningFrame.

(** X1: a call to signrawtransaction or signrawcertificate that returns
    hands back the entity it was given (the first transaction of the hex
    argument, the certificate) with nothing changed but unlocking scripts:
    version, outputs, the fields of the derived class, and every input's
    outpoint and sequence number are those of the entity submitted. *)
Theorem signing_changes_scripts_only {P : Type} `{!ScriptCollab P}
    (view : gmap uint256 CCoins) (keystore : CKeyStore) :
  (∀ sighashtype tx0 rest r,
     signrawtransaction view keystore sighashtype (tx0 :: rest) = Returned r →
     scripts_only tx0 (res_hex r))
  ∧ (∀ cert r,
       signrawcertificate view keystore cert = Returned r →
       scripts_only cert (res_hex r)).
Proof.
  split.
  - intros sighashtype tx0 rest r. unfold signrawtransaction.
    destruct (parse_sighashtype sighashtype) as [nHashType| |]; try done.
    destruct (signrawtransaction_loop view keystore nHashType (tx0 :: rest) tx0)
      as [st|] eqn:Hloop; [| done].
    intros [= <-]. simpl.
    apply (for_each_scripts_only view _
             (sign_tx_input_spec view keystore nHashType (tx0 :: rest))
             _ _ _ Hloop).
  - intros cert r. unfold signrawcertificate.
    destruct (signrawcertificate_loop view keystore cert) as [st|] eqn:Hloop;
      [| done].
    intros [= <-]. simpl.
    apply (for_each_scripts_only view _ (sign_cert_input_spec view keystore)
             _ _ _ Hloop).
Qed.

(** X2: the error records of signrawtransaction and signrawcertificate
    follow the inputs: read as (txid, vout, sequence) they form a
    subsequence of the inputs of the entity submitted, so there is at most
    one record per input and the records come in input order. *)
Theorem error_records_follow_inputs {P : Type} `{!ScriptCollab P}
    (view : gmap uint256 CCoins) (keystore : CKeyStore) :
  (∀ nHashType txVariants tx0 st,
     signrawtransaction_loop view keystore nHashType txVariants tx0 = Some st →
     err_key <$> vErrors st `sublist_of` in_key <$> vin tx0)
  ∧ (∀ cert st,
       signrawcertificate_loop view keystore cert = Some st →
       err_key <$> vErrors st `sublist_of` in_key <$> vin cert).
Proof.
  assert (∀ body (tx : CMutableTransactionBase P) st,
            step_spec view body → step_keys body →
            for_each body (seq 0 (length (vin tx))) (initial_state tx)
            = Some st →
            err_key <$> vErrors st `sublist_of` in_key <$> vin tx) as Hgen.
  { intros body tx st Hspec Hkeys Hrun.
    destruct (for_each_keys view body Hspec _ _ _ Hkeys Hrun)
      as (es & E & Hsub).
    simpl in E. rewrite E.
    change (merged (initial_state tx)) with tx in Hsub.
    pose proof (omap_lookup_seq in_key [] (vin tx)) as Ho.
    cbn [app length] in Ho. rewrite Ho in Hsub. by rewrite <- map_fmap. }
  split.
  - intros nHashType txVariants tx0 st Hrun.
    apply (Hgen _ _ _ (sign_tx_input_spec view keystore nHashType txVariants)
             (sign_tx_input_keys view keystore nHashType txVariants) Hrun).
  - intros cert st Hrun.
    apply (Hgen _ _ _ (sign_cert_input_spec view keystore)
             (sign_cert_input_keys view keystore) Hrun).
Qed.

(** X3: complete=true is reported only when the output spent by every
    input of the entity was found unspent in the view: one input whose
    output is unknown or spent makes the result incomplete, whatever the
    keys and the other inputs. *)
Theorem complete_only_if_all_inputs_resolve {P : Type} `{!ScriptCollab P}
    (view : gmap uint256 CCoins) (keystore : CKeyStore) :
  (∀ sighashtype tx0 rest r txin,
     signrawtransaction view keystore sighashtype (tx0 :: rest) = Returned r →
     res_complete r = true → txin ∈ vin tx0 →
     is_Some (prevPubKey view txin))
  ∧ (∀ cert r txin,
       signrawcertificate view keystore cert = Returned r →
       res_complete r = true → txin ∈ vin cert →
       is_Some (prevPubKey view txin)).
Proof.
  assert (∀ body (tx : CMutableTransactionBase P) st txin,
            step_spec view body →
            for_each body (seq 0 (length (vin tx))) (initial_state tx)
            = Some st →
            vector_empty (vErrors st) = true → txin ∈ vin tx →
            is_Some (prevPubKey view txin)) as Hgen.
  { intros body tx st txin Hspec Hrun Hempty Hin.
    destruct (prevPubKey view txin) as [pubKey|] eqn:Hres; [by eexists |].
    apply list_elem_of_lookup_1 in Hin as [i Hi].
    destruct (for_each_unresolved view body Hspec _ _ _ i txin Hrun Hi Hres)
      as [_ Hentry].
    assert (not_found_entry txin ∈ vErrors st) as Hmem.
    { apply Hentry. apply elem_of_seq_0. by apply lookup_lt_Some in Hi. }
    destruct (vErrors st); [| done]. by apply elem_of_nil in Hmem. }
  split.
  - intros sighashtype tx0 rest r txin. unfold signrawtransaction.
    destruct (parse_sighashtype sighashtype) as [nHashType| |]; try done.
    destruct (signrawtransaction_loop view keystore nHashType (tx0 :: rest) tx0)
      as [st|] eqn:Hloop; [| done].
    intros [= <-]. simpl.
    apply (Hgen _ _ _ _
             (sign_tx_input_spec view keystore nHashType (tx0 :: rest)) Hloop).
  - intros cert r txin. unfold signrawcertificate.
    destruct (signrawcertificate_loop view keystore cert) as [st|] eqn:Hloop;
      [| done].
    intros [= <-]. simpl.
    apply (Hgen _ _ _ _ (sign_cert_input_spec view keystore) Hloop).
Qed.

(** X1 (instance): one input signed, one left as it was; nothing else of
    the transaction moves. *)
Lemma signing_changes_scripts_only_witness :
  scripts_only
    (Sample.tx [Sample.txin 100 0 []; Sample.txin 5 0 []] [Sample.txout 1] 7)
    (Sample.tx [Sample.txin 100 0 [Sample.OP_TRUE]; Sample.txin 5 0 []]
       [Sample.txout 1] 7).
Proof.
  apply (proj1 (@signing_changes_scripts_only _ (Sample.collab TxPayload)
                  Sample.view Sample.one_key) None _ []
           {| res_hex :=
                Sample.tx
                  [Sample.txin 100 0 [Sample.OP_TRUE]; Sample.txin 5 0 []]
                  [Sample.txout 1] 7;
              res_complete := false;
              res_errors := Some [not_found_entry (Sample.txin 5 0 [])] |}).
  vm_compute. reflexivity.
Defined.

(** X2 (instance): of the inputs (100:0), (5:0), (100:1), (6:0) the second
    and the fourth do not resolve; the two records name them, in that
    order. *)
Lemma error_records_follow_inputs_witness :
  [(5%N, 0%N, 4294967295%N); (6%N, 0%N, 4294967295%N)]
  `sublist_of`
  [(100%N, 0%N, 4294967295%N); (5%N, 0%N, 4294967295%N);
   (100%N, 1%N, 4294967295%N); (6%N, 0%N, 4294967295%N)].
Proof.
  apply (proj1 (@error_records_follow_inputs _ (Sample.collab TxPayload)
                  Sample.view Sample.one_key) 1%Z
           [Sample.tx [Sample.txin 100 0 []; Sample.txin 5 0 [];
                       Sample.txin 100 1 []; Sample.txin 6 0 []] [] 0]
           (Sample.tx [Sample.txin 100 0 []; Sample.txin 5 0 [];
                       Sample.txin 100 1 []; Sample.txin 6 0 []] [] 0)
           {| merged :=
                Sample.tx [Sample.txin 100 0 [Sample.OP_TRUE];
                           Sample.txin 5 0 [];
                           Sample.txin 100 1 [Sample.OP_TRUE];
                           Sample.txin 6 0 []] [] 0;
              vErrors := [not_found_entry (Sample.txin 5 0 []);
                          not_found_entry (Sample.txin 6 0 [])];
              signCalls := [0; 2] |}).
  vm_compute. reflexivity.
Defined.

(** X3 (instance): a complete result, and its one input resolves. *)
Lemma complete_only_if_all_inputs_resolve_witness :
  is_Some (prevPubKey Sample.view (Sample.txin 100 0 [])).
Proof.
  apply (proj1 (@complete_only_if_all_inputs_resolve _
                  (Sample.collab TxPayload) Sample.view Sample.one_key)
           None (Sample.tx [Sample.txin 100 0 []] [] 0) []
           {| res_hex := Sample.tx [Sample.txin 100 0 [Sample.OP_TRUE]] [] 0;
              res_complete := true;
              res_errors := None |}).
  - vm_compute. reflexivity.
  - reflexivity.
  - by left.
Defined.

(** ** The txids argument of gettxoutproof *)

Section TxidsFacts.
Context `{HashCollab}.

Lemma last_cons_default {A} (x d : A) (l : list A) :
  default d (last (x :: l)) = default x (last l).
Proof.
  revert x d. induction l as [|y l IH]; intros x d; [done |].
  change (last (x :: y :: l)) with (last (y :: l)).
  by rewrite (IH y d), (IH y x).
Qed.

Lemma valid_txid_test (txid : string) :
  negb (String.length txid =? 64) || negb (IsHex txid) = false
  ↔ valid_txid txid.
Proof.
  unfold valid_txid. rewrite orb_false_iff, !negb_false_iff.
  by rewrite Nat.eqb_eq.
Qed.

(** The loop over [txids] returns exactly for well-formed entries with
    pairwise different hashes, none of them in the set already. *)
Lemma parse_txids_iff (txids : list string) (acc : gset uint256)
    (one : uint256) (setTxids : gset uint256) (oneTxid : uint256) :
  parse_txids txids acc one = Returned (setTxids, oneTxid)
  ↔ Forall valid_txid txids
    ∧ NoDup (uint256S <$> txids)
    ∧ (∀ h, h ∈ uint256S <$> txids → h ∉ acc)
    ∧ setTxids = list_to_set (uint256S <$> txids) ∪ acc
    ∧ oneTxid = default one (last (uint256S <$> txids)).
Proof.
  revert acc one. induction txids as [|txid rest IH]; intros acc one.
  - simpl. rewrite (left_id_L ∅ (∪)). split.
    + intros [= <- <-]. split_and!.
      * constructor.
      * apply NoDup_nil_2.
      * intros h Hh. by apply elem_of_nil in Hh.
      * done.
      * done.
    + by intros (_ & _ & _ & -> & ->).
  - cbn [parse_txids]. rewrite fmap_cons.
    destruct (negb (String.length txid =? 64) || negb (IsHex txid)) eqn:Hv.
    { split; [done |]. intros (Hall & _). exfalso.
      apply Forall_cons in Hall as [Hvalid _].
      apply valid_txid_test in Hvalid. congruence. }
    apply valid_txid_test in Hv.
    destruct (decide (uint256S txid ∈ acc)) as [Hin | Hnin].
    { split; [done |]. intros (_ & _ & Hfresh & _). exfalso.
      apply (Hfresh (uint256S txid)); [by left | done]. }
    rewrite IH, last_cons_default, NoDup_cons, Forall_cons.
    assert (list_to_set (uint256S <$> rest) ∪ ({[uint256S txid]} ∪ acc)
            = list_to_set (uint256S txid :: (uint256S <$> rest)) ∪ acc
              :> gset uint256) as ->.
    { simpl. by rewrite (assoc_L (∪)), (comm_L (∪) (list_to_set _) {[_]}). }
    split.
    + intros (Hall & Hnd & Hfresh & -> & ->). split_and!; try done.
      * intros Hmem. apply (Hfresh _ Hmem). apply elem_of_union. left.
        by apply elem_of_singleton.
      * intros h Hh. apply elem_of_cons in Hh as [-> | Hh]; [done |].
        intros Hacc. apply (Hfresh _ Hh). apply elem_of_union. by right.
    + intros ((_ & Hall) & (Hnew & Hnd) & Hfresh & -> & ->).
      split_and!; try done.
      intros h Hh Hmem. apply elem_of_union in Hmem as [Hmem | Hmem].
      * apply elem_of_singleton in Hmem as ->. done.
      * apply (Hfresh h); [by right | done].
Qed.

End TxidsFacts.

(** X4: the txids argument of gettxoutproof is accepted exactly when every
    entry is a 64-character hex string and the entries denote pairwise
    different hashes (two spellings of one hash count as a duplicate); the
    request set then holds as many hashes as the array has entries, and
    the id used to look the block up is the hash of the last entry. *)
Theorem txids_accepted_iff `{HashCollab} (txids : list string) :
  ((∃ setTxids oneTxid,
      parse_txids txids ∅ 0%N = Returned (setTxids, oneTxid))
   ↔ Forall valid_txid txids ∧ NoDup (uint256S <$> txids))
  ∧ (∀ setTxids oneTxid,
       parse_txids txids ∅ 0%N = Returned (setTxids, oneTxid) →
       setTxids = list_to_set (uint256S <$> txids)
       ∧ size setTxids = length txids
       ∧ oneTxid = default 0%N (uint256S <$> last txids)).
Proof.
  split; [split |].
  - intros (s & o & Hp). apply parse_txids_iff in Hp as (Hall & Hnd & _).
    by split.
  - intros [Hall Hnd]. eexists _, _. apply parse_txids_iff.
    by split_and!.
  - intros s o Hp. apply parse_txids_iff in Hp as (_ & Hnd & _ & -> & ->).
    rewrite (right_id_L ∅ (∪)). split_and!.
    + done.
    + by rewrite size_list_to_set, length_fmap.
    + by rewrite fmap_last.
Qed.

(** X4 (instance): two well-formed, different ids are accepted. *)
Lemma txids_accepted_iff_witness :
  ∃ setTxids oneTxid,
    @parse_txids Sample.hashing [Sample.id_A; Sample.id_B] ∅ 0%N
    = Returned (setTxids, oneTxid).
Proof.
  apply (proj2 (proj1 (@txids_accepted_iff Sample.hashing
                         [Sample.id_A; Sample.id_B]))).
  split.
  - repeat constructor.
  - apply (bool_decide_unpack _). vm_compute. exact I.
Defined.

(** X5: gettxoutproof answers a request by its set of ids: for well-formed,
    pairwise different ids, reordering the txids array changes nothing in
    the reply (the proof, or the error) when a block hash is given, and
    nothing when none is given as long as the last entry stays the last;
    without a block hash the last entry alone selects the block. *)
Theorem gettxoutproof_order_independent `{HashCollab} `{MerkleCollab}
    (cs : ChainState) (txids txids' : list string)
    (blockhash : option string) :
  Forall valid_txid txids → NoDup (uint256S <$> txids) →
  txids ≡ₚ txids' →
  is_Some blockhash ∨ last txids = last txids' →
  gettxoutproof cs txids' blockhash = gettxoutproof cs txids blockhash.
Proof.
  intros Hall Hnd Hperm Hsel.
  assert (Forall valid_txid txids') as Hall' by by rewrite <- Hperm.
  assert (NoDup (uint256S <$> txids')) as Hnd' by by rewrite <- Hperm.
  assert (∀ l, Forall valid_txid l → NoDup (uint256S <$> l) →
            parse_txids l ∅ 0%N
            = Returned (list_to_set (uint256S <$> l) ∪ ∅,
                        default 0%N (last (uint256S <$> l)))) as Hparse.
  { intros l Hl Hn. apply parse_txids_iff. by split_and!. }
  unfold gettxoutproof. rewrite (Hparse _ Hall Hnd), (Hparse _ Hall' Hnd').
  assert (list_to_set (uint256S <$> txids') ∪ ∅
          = list_to_set (uint256S <$> txids) ∪ ∅ :> gset uint256) as ->.
  { f_equal. apply set_eq. intros h. rewrite !elem_of_list_to_set.
    by rewrite Hperm. }
  destruct Hsel as [[str ->] | Hlast].
  - unfold find_block_index.
    by destruct (mapBlockIndex cs !! uint256S str).
  - by rewrite !fmap_last, Hlast.
Qed.

(** X5 (instance): the proof for B and D in the block A, B, C, D, asked
    for as [D; B]. *)
Lemma gettxoutproof_order_independent_witness :
  @gettxoutproof Sample.hashing (@spec_merkle Sample.hashing)
    (Sample.chain_with Sample.block_ABCD) [Sample.id_D; Sample.id_B]
    (Some Sample.hash_of_block)
  = @gettxoutproof Sample.hashing (@spec_merkle Sample.hashing)
      (Sample.chain_with Sample.block_ABCD) [Sample.id_B; Sample.id_D]
      (Some Sample.hash_of_block).
Proof.
  apply (@gettxoutproof_order_independent Sample.hashing
           (@spec_merkle Sample.hashing)).
  - repeat constructor.
  - apply (bool_decide_unpack _). vm_compute. exact I.
  - apply perm_swap.
  - left. by eexists.
Defined.

(** ** The public-key hash of a backward transfer *)

Section PubKeyHashFacts.
Context `{ScriptOpcodes}.

Lemma HexStr_length (bs : list byte) :
  String.length (HexStr bs) = 2 * length bs.
Proof. induction bs as [|b bs IH]; simpl; [done | rewrite IH; lia]. Qed.

Lemma hexdigit_high (b : byte) :
  Sample.hex_digit_value (hexdigit (Byte.to_N b / 16))
  = Some (Byte.to_N b / 16)%N.
Proof. by destruct b. Qed.

Lemma hexdigit_low (b : byte) :
  Sample.hex_digit_value (hexdigit (Byte.to_N b mod 16))
  = Some (Byte.to_N b mod 16)%N.
Proof. by destruct b. Qed.

Lemma HexStr_inj (l k : list byte) : HexStr l = HexStr k → l = k.
Proof.
  revert k. induction l as [|a l IH]; intros [|b k]; simpl; try done.
  intros [= Hhi Hlo Hrest]. f_equal; [| by apply IH].
  apply (f_equal Sample.hex_digit_value) in Hhi, Hlo.
  rewrite !hexdigit_high in Hhi. rewrite !hexdigit_low in Hlo.
  injection Hhi as Hhi. injection Hlo as Hlo.
  assert (Byte.to_N a = Byte.to_N b) as Hab.
  { rewrite (N.div_mod (Byte.to_N a) 16), (N.div_mod (Byte.to_N b) 16); lia. }
  apply (f_equal Byte.of_N) in Hab. rewrite !Byte.of_to_N in Hab.
  by injection Hab.
Qed.

End PubKeyHashFacts.

(** X6: whenever CertToJSON's decoding of a backward transfer yields a
    string, it is either the 16 characters of the decode-error marker (no
    OP_HASH160 byte in the script) or exactly 40 hex digits: the twenty
    bytes that start two positions after the first OP_HASH160 byte, last
    byte first.  The byte between the marker and the hash is not looked
    at. *)
Theorem pubkeyhash_shape `{ScriptOpcodes} (script : CScript) (str : string) :
  pkhStr script = Returned str →
  (std_find script = None ∧ str = "<<Decode error>>")
  ∨ ∃ pos pkh,
      std_find script = Some pos
      ∧ pkh = take 20 (drop (pos + 2) script)
      ∧ length pkh = 20
      ∧ str = HexStr (rev pkh)
      ∧ String.length str = 40.
Proof.
  unfold pkhStr. destruct (std_find script) as [pos|] eqn:Hfind.
  - cbv zeta. unfold sizeof_uint160.
    destruct (decide (pos + 2 + 20 ≤ length script)) as [Hlen|]; [| done].
    intros [= <-]. right. exists pos, (take 20 (drop (pos + 2) script)).
    assert (length (take 20 (drop (pos + 2) script)) = 20) as Hl.
    { rewrite length_take, length_drop. lia. }
    split_and!; try done.
    by rewrite HexStr_length, length_rev, Hl.
  - intros [= <-]. by left.
Qed.

(** X6 (instance): a pay-to-script-hash script is decoded like a
    pay-to-public-key-hash one. *)
Lemma pubkeyhash_shape_witness :
  (@std_find Sample.opcodes
     [xa9; x14; x01; x02; x03; x04; x05; x06; x07; x08; x09; x0a;
      x0b; x0c; x0d; x0e; x0f; x10; x11; x12; x13; x14; x87] = None
   ∧ "14131211100f0e0d0c0b0a090807060504030201" = "<<Decode error>>")
  ∨ ∃ pos pkh,
      @std_find Sample.opcodes
        [xa9; x14; x01; x02; x03; x04; x05; x06; x07; x08; x09; x0a;
         x0b; x0c; x0d; x0e; x0f; x10; x11; x12; x13; x14; x87] = Some pos
      ∧ pkh = take 20 (drop (pos + 2)
                [xa9; x14; x01; x02; x03; x04; x05; x06; x07; x08; x09; x0a;
                 x0b; x0c; x0d; x0e; x0f; x10; x11; x12; x13; x14; x87])
      ∧ length pkh = 20
      ∧ "14131211100f0e0d0c0b0a090807060504030201" = HexStr (rev pkh)
      ∧ String.length "14131211100f0e0d0c0b0a090807060504030201" = 40.
Proof.
  apply (@pubkeyhash_shape Sample.opcodes). reflexivity.
Defined.

(** X7: the pubkeyhash string loses nothing: two scripts that decode to
    the same 40-digit string carry the same twenty bytes after their
    first OP_HASH160 byte. *)
Theorem pubkeyhash_injective `{ScriptOpcodes} (script1 script2 : CScript)
    (pos1 pos2 : nat) (str : string) :
  std_find script1 = Some pos1 → std_find script2 = Some pos2 →
  pkhStr script1 = Returned str → pkhStr script2 = Returned str →
  take 20 (drop (pos1 + 2) script1) = take 20 (drop (pos2 + 2) script2).
Proof.
  intros Hf1 Hf2. unfold pkhStr. rewrite Hf1, Hf2. cbv zeta.
  unfold sizeof_uint160.
  destruct (decide (pos1 + 2 + 20 ≤ length script1)); [| done].
  destruct (decide (pos2 + 2 + 20 ≤ length script2)); [| done].
  intros [= <-] [= Heq]. apply HexStr_inj in Heq.
  apply (f_equal (@rev byte)) in Heq. by rewrite !rev_involutive in Heq.
Qed.

(** X7 (instance): a pay-to-script-hash and a pay-to-public-key-hash
    script over the same twenty bytes. *)
Lemma pubkeyhash_injective_witness :
  take 20 (drop (0 + 2)
    [xa9; x14; x01; x02; x03; x04; x05; x06; x07; x08; x09; x0a;
     x0b; x0c; x0d; x0e; x0f; x10; x11; x12; x13; x14; x87])
  = take 20 (drop (1 + 2)
      [x76; xa9; x14; x01; x02; x03; x04; x05; x06; x07; x08; x09; x0a;
       x0b; x0c; x0d; x0e; x0f; x10; x11; x12; x13; x14; x88; xac]).
Proof.
  apply (@pubkeyhash_injective Sample.opcodes _ _ 0 1
           "14131211100f0e0d0c0b0a090807060504030201"); reflexivity.
Defined.

(** ** The prevtxs argument of signrawtransaction *)

Section PrevTxFacts.
Context {J : Type} `{!JsonCollab J} `{!PrevTxCollab}.
Implicit Types (view : gmap uint256 CCoins) (txin : CTxIn).

Lemma prevPubKey_out_at view txin :
  prevPubKey view txin
  = match out_at view (COutPoint.hash (prevout txin))
            (N.to_nat (COutPoint.n (prevout txin))) with
    | Some o => if negb (IsNull o) then Some (scriptPubKey o) else None
    | None => None
    end.
Proof.
  unfold prevPubKey, out_at, AccessCoins, IsAvailable.
  destruct (view !! COutPoint.hash (prevout txin)) as [coins|]; simpl;
    [| done].
  unfold CCoins in *.
  destruct (coins !! N.to_nat (COutPoint.n (prevout txin))) as [o|]; simpl;
    [| done].
  by destruct (negb (IsNull o)).
Qed.

(** One assignment to the cache: the output named is set, a known unspent
    output had the same script, and every other position is as before or
    was filled with a null output. *)
Lemma add_prevout_Reply view txid nOut script view' :
  (0 ≤ nOut)%Z →
  add_prevout view txid nOut script = Reply view' →
  out_at view' txid (Z.to_nat nOut)
  = Some {| nValue := 0; scriptPubKey := script |}
  ∧ (∀ o, out_at view txid (Z.to_nat nOut) = Some o → IsNull o = false →
          scriptPubKey o = script)
  ∧ (∀ h k, (h, k) ≠ (txid, Z.to_nat nOut) →
            out_at view' h k = out_at view h k
            ∨ (out_at view h k = None
               ∧ out_at view' h k = Some null_CTxOut)).
Proof.
  intros Hpos. unfold add_prevout.
  set (coins := default [] (view !! txid)).
  set (known := default [] (scriptPubKey <$> coins !! Z.to_nat nOut)).
  assert (∀ k, out_at view txid k = coins !! k) as Hcoins.
  { intros k. unfold out_at, coins. by destruct (view !! txid). }
  destruct (IsAvailable coins (Z.to_N nOut)
            && negb (bool_decide (known = script))) eqn:Hcheck; [done |].
  set (new := {| nValue := 0; scriptPubKey := script |}).
  assert (∀ coins1,
            Z.to_nat nOut < length coins1 →
            (∀ k, k ≠ Z.to_nat nOut →
                  coins1 !! k = coins !! k
                  ∨ (coins !! k = None ∧ coins1 !! k = Some null_CTxOut)) →
            Reply (<[txid := <[Z.to_nat nOut := new]> coins1]> view)
            = Reply view' →
            out_at view' txid (Z.to_nat nOut) = Some new
            ∧ (∀ o, out_at view txid (Z.to_nat nOut) = Some o →
                    IsNull o = false → scriptPubKey o = script)
            ∧ (∀ h k, (h, k) ≠ (txid, Z.to_nat nOut) →
                      out_at view' h k = out_at view h k
                      ∨ (out_at view h k = None
                         ∧ out_at view' h k = Some null_CTxOut))) as Hgen.
  { intros coins1 Hlen Hother [= <-]. split_and!.
    - unfold out_at. rewrite lookup_insert_eq. simpl.
      by apply list_lookup_insert_eq.
    - intros o Ho Hnull. rewrite Hcoins in Ho.
      unfold IsAvailable, CCoins in Hcheck.
      rewrite Z_N_nat, Ho, Hnull in Hcheck.
      simpl in Hcheck. apply negb_false_iff, bool_decide_eq_true in Hcheck.
      rewrite <- Hcheck. unfold known. by rewrite Ho.
    - intros h k Hne. destruct (decide (h = txid)) as [-> | Hh].
      + assert (k ≠ Z.to_nat nOut) as Hk by congruence.
        rewrite (Hcoins k). unfold out_at. rewrite lookup_insert_eq.
        simpl. rewrite list_lookup_insert_ne; [| done]. by apply Hother.
      + left. unfold out_at. by rewrite lookup_insert_ne. }
  destruct (decide (length coins ≤ Z.to_nat nOut)) as [Hshort | Hlong].
  - destruct (decide (nOut + 1 < 2 ^ 31)%Z); [| done]. simpl.
    apply Hgen.
    + rewrite length_resize. lia.
    + intros k Hk. destruct (decide (k < length coins)) as [Hin | Hout].
      * left. apply lookup_resize; lia.
      * assert (coins !! k = None) as Hnone by (apply lookup_ge_None; lia).
        destruct (decide (k < Z.to_nat (nOut + 1))) as [Hnew | Hold].
        -- right. split; [done |]. apply lookup_resize_new; lia.
        -- left. rewrite Hnone. apply lookup_resize_old. lia.
  - simpl. apply Hgen; [lia |]. intros k _. by left.
Qed.

(** The same, read through [prevPubKey]. *)
Lemma add_prevout_resolves view txid nOut script view' :
  (0 ≤ nOut)%Z →
  add_prevout view txid nOut script = Reply view' →
  (∀ txin s, prevPubKey view txin = Some s → prevPubKey view' txin = Some s)
  ∧ (∀ txin s,
       prevPubKey view' txin = Some s →
       prevPubKey view txin = Some s
       ∨ (prevout txin = {| COutPoint.hash := txid;
                            COutPoint.n := Z.to_N nOut |}
          ∧ s = script)).
Proof.
  intros Hpos Hadd.
  destruct (add_prevout_Reply _ _ _ _ _ Hpos Hadd) as (Hset & Hsame & Hother).
  assert (∀ txin,
            (COutPoint.hash (prevout txin),
             N.to_nat (COutPoint.n (prevout txin))) = (txid, Z.to_nat nOut)
            ↔ prevout txin = {| COutPoint.hash := txid;
                                COutPoint.n := Z.to_N nOut |}) as Hop.
  { intros [[h n] sig sequence]. simpl. split.
    - intros [= -> Hn]. f_equal. lia.
    - intros [= -> ->]. f_equal. lia. }
  split.
  - intros txin s. rewrite !prevPubKey_out_at.
    destruct (decide ((COutPoint.hash (prevout txin),
                       N.to_nat (COutPoint.n (prevout txin)))
                      = (txid, Z.to_nat nOut))) as [Heq | Hne].
    + injection Heq as -> ->. rewrite Hset.
      destruct (out_at view txid (Z.to_nat nOut)) as [o|] eqn:Ho; [| done].
      destruct (IsNull o) eqn:Hnull; [done |]. simpl. intros [= <-].
      by rewrite (Hsame o).
    + destruct (Hother _ _ Hne) as [-> | [-> _]]; done.
  - intros txin s. rewrite !prevPubKey_out_at.
    destruct (decide ((COutPoint.hash (prevout txin),
                       N.to_nat (COutPoint.n (prevout txin)))
                      = (txid, Z.to_nat nOut))) as [Heq | Hne].
    + pose proof (proj1 (Hop txin) Heq) as Hout.
      injection Heq as -> ->. rewrite Hset. simpl. intros [= <-].
      by right.
    + destruct (Hother _ _ Hne) as [-> | [_ ->]]; [by left | done].
Qed.

(** What one element of the array does when it is accepted. *)
Lemma add_prevtx_Reply fGivenKeys (p : J) view keystore view' keystore' :
  add_prevtx fGivenKeys p (view, keystore) = Reply (view', keystore') →
  ∃ txid nOut script,
    prevtx_of p txid nOut script
    ∧ (0 ≤ nOut)%Z
    ∧ add_prevout view txid nOut script = Reply view'
    ∧ (fGivenKeys = false → keystore' = keystore)
    ∧ ∀ keystore0,
        add_prevtx false p (view, keystore0) = Reply (view', keystore0).
Proof.
  unfold add_prevtx, prevtx_of, mbind, reply_bind. simpl.
  destruct (isObject p) eqn:Hobj; simpl; [| done].
  destruct (get_obj p) as [prevOut| |] eqn:Hget; [| done | done].
  destruct (RPCTypeCheckObj prevOut
              [("txid", VSTR); ("vout", VNUM); ("scriptPubKey", VSTR)])
    as [[]| |] eqn:Hcheck; [| done | done].
  destruct (ParseHashO prevOut "txid") as [txid| |] eqn:Htxid;
    [| done | done].
  destruct (get_int (find_value prevOut "vout")) as [nOut| |] eqn:Hint;
    [| done | done].
  destruct (nOut <? 0)%Z eqn:Hneg; [done |].
  destruct (ParseHexO prevOut "scriptPubKey") as [script| |] eqn:Hhex;
    [| done | done].
  destruct (add_prevout view txid nOut script) as [view1| |] eqn:Hadd;
    [| done | done].
  intros Hrest. exists txid, nOut, script.
  assert (view1 = view' ∧ (fGivenKeys = false → keystore' = keystore))
    as [-> Hkeys].
  { destruct fGivenKeys; cbn [andb] in Hrest.
    - split; [| intros [=]]. destruct (IsPayToScriptHash script).
      + destruct (RPCTypeCheckObj prevOut
                    [("txid", VSTR); ("vout", VNUM); ("scriptPubKey", VSTR);
                     ("redeemScript", VSTR)]) as [[]| |]; [| done | done].
        destruct (isNull (find_value prevOut "redeemScript"));
          cbn [negb] in Hrest.
        * by injection Hrest.
        * destruct (ParseHexV (find_value prevOut "redeemScript")
                      "redeemScript"); [| done | done].
          by injection Hrest.
      + by injection Hrest.
    - injection Hrest as -> ->. by split. }
  split_and!.
  - by exists prevOut.
  - lia.
  - done.
  - done.
  - done.
Qed.

Lemma prevtx_of_unique (p : J) txid nOut script txid' nOut' script' :
  prevtx_of p txid nOut script → prevtx_of p txid' nOut' script' →
  txid = txid' ∧ nOut = nOut' ∧ script = script'.
Proof.
  intros (o & Ho & Ht & Hn & Hs) (o' & Ho' & Ht' & Hn' & Hs').
  rewrite Ho in Ho'. injection Ho' as <-.
  rewrite Ht in Ht'. rewrite Hn in Hn'. rewrite Hs in Hs'.
  by injection Ht' as <-; injection Hn' as <-; injection Hs' as <-.
Qed.

Lemma add_prevout_keeps view txid nOut script view' h k script0 :
  (0 ≤ nOut)%Z →
  add_prevout view txid nOut script = Reply view' →
  out_at view h k = Some {| nValue := 0; scriptPubKey := script0 |} →
  out_at view' h k = Some {| nValue := 0; scriptPubKey := script0 |}.
Proof.
  intros Hpos Hadd Hout.
  destruct (add_prevout_Reply _ _ _ _ _ Hpos Hadd) as (Hset & Hsame & Hother).
  destruct (decide ((h, k) = (txid, Z.to_nat nOut))) as [Heq | Hne].
  - injection Heq as -> ->. rewrite Hset.
    by rewrite <- (Hsame _ Hout).
  - destruct (Hother _ _ Hne) as [-> | [Hnone _]]; [done |].
    by rewrite Hnone in Hout.
Qed.

(** The loop over the array. *)
Lemma for_all_prevtx fGivenKeys (prevTxs : list J) view keystore
    view' keystore' :
  for_all (add_prevtx fGivenKeys) prevTxs (view, keystore)
  = Reply (view', keystore') →
  (∀ h k script0,
     out_at view h k = Some {| nValue := 0; scriptPubKey := script0 |} →
     out_at view' h k = Some {| nValue := 0; scriptPubKey := script0 |})
  ∧ (∀ txin s, prevPubKey view txin = Some s → prevPubKey view' txin = Some s)
  ∧ (∀ p txid nOut script,
       p ∈ prevTxs → prevtx_of p txid nOut script →
       (0 ≤ nOut)%Z
       ∧ out_at view' txid (Z.to_nat nOut)
         = Some {| nValue := 0; scriptPubKey := script |})
  ∧ (∀ txin s,
       prevPubKey view' txin = Some s →
       prevPubKey view txin = Some s
       ∨ ∃ p nOut,
           p ∈ prevTxs
           ∧ prevtx_of p (COutPoint.hash (prevout txin)) nOut s
           ∧ COutPoint.n (prevout txin) = Z.to_N nOut)
  ∧ (fGivenKeys = false → keystore' = keystore)
  ∧ ∀ keystore0,
      for_all (add_prevtx false) prevTxs (view, keystore0)
      = Reply (view', keystore0).
Proof.
  revert view keystore.
  induction prevTxs as [|p rest IH]; intros view keystore.
  - simpl. intros [= <- <-]. split_and!; try done.
    + intros p txid nOut script Hp. by apply elem_of_nil in Hp.
    + intros txin s Hs. by left.
  - cbn [for_all]. unfold mbind, reply_bind.
    destruct (add_prevtx fGivenKeys p (view, keystore))
      as [[view1 keystore1]| |] eqn:Hstep; [| done | done].
    intros Hrest.
    destruct (add_prevtx_Reply _ _ _ _ _ _ Hstep)
      as (txid & nOut & script & Hparse & Hpos & Hadd & Hkeys & Hfalse).
    destruct (IH _ _ Hrest) as (K1 & M1 & L1 & O1 & G1 & F1).
    destruct (add_prevout_resolves _ _ _ _ _ Hpos Hadd) as [M0 O0].
    destruct (add_prevout_Reply _ _ _ _ _ Hpos Hadd) as (Hset & _ & _).
    split_and!.
    + intros h k script0 Hout. apply K1.
      by apply (add_prevout_keeps _ _ _ _ _ _ _ _ Hpos Hadd).
    + intros txin s Hs. by apply M1, M0.
    + intros q txid' nOut' script' Hq Hparse'.
      apply elem_of_cons in Hq as [-> | Hq]; [| by apply (L1 q)].
      destruct (prevtx_of_unique _ _ _ _ _ _ _ Hparse Hparse')
        as (<- & <- & <-).
      split; [done |]. by apply K1.
    + intros txin s Hs. destruct (O1 _ _ Hs) as [Hs1 | (q & n & Hq & Hpq & Hn)].
      * destruct (O0 _ _ Hs1) as [Hs0 | [Hout ->]]; [by left |]. right.
        exists p, nOut. rewrite Hout. simpl. split_and!; [by left | done | done].
      * right. exists q, n. split_and!; [by right | done | done].
    + intros Hg. rewrite (G1 Hg). by apply Hkeys.
    + intros keystore0. by rewrite Hfalse, F1.
Qed.

Lemma add_prevtxs_loop fGivenKeys (params : list J) st st' :
  add_prevtxs fGivenKeys params st = Reply st' →
  for_all (add_prevtx fGivenKeys) (prevTxs_of params) st = Reply st'.
Proof.
  unfold add_prevtxs, prevTxs_of.
  destruct (bool_decide (1 < length params)
            && negb (isNull (param params 1))); [| done].
  unfold mbind, reply_bind. by destruct (get_array (param params 1)).
Qed.

Lemma add_prevtxs_without_keys fGivenKeys (params : list J) view keystore
    view' keystore' :
  add_prevtxs fGivenKeys params (view, keystore) = Reply (view', keystore') →
  ∀ keystore0,
    add_prevtxs false params (view, keystore0) = Reply (view', keystore0).
Proof.
  unfold add_prevtxs.
  destruct (bool_decide (1 < length params)
            && negb (isNull (param params 1))).
  - unfold mbind, reply_bind.
    destruct (get_array (param params 1)) as [prevTxs| |]; [| done | done].
    intros Hloop. by apply for_all_prevtx in Hloop as (_ & _ & _ & _ & _ & ?).
  - by intros [= <- <-].
Qed.

Lemma add_prevtxs_listed fGivenKeys (params : list J) view keystore
    view' keystore' (p : J) txid nOut script txin :
  add_prevtxs fGivenKeys params (view, keystore) = Reply (view', keystore') →
  p ∈ prevTxs_of params →
  prevtx_of p txid nOut script →
  prevout txin = {| COutPoint.hash := txid; COutPoint.n := Z.to_N nOut |} →
  prevPubKey view' txin = Some script.
Proof.
  intros Hadd Hp Hparse Hprev. apply add_prevtxs_loop in Hadd.
  destruct (for_all_prevtx _ _ _ _ _ _ Hadd) as (_ & _ & Hlisted & _).
  destruct (Hlisted _ _ _ _ Hp Hparse) as [Hpos Hout].
  rewrite prevPubKey_out_at, Hprev. simpl. by rewrite Z_N_nat, Hout.
Qed.

End PrevTxFacts.

(** X8: when signrawtransaction accepts its prevtxs argument, every
    element {txid, vout, scriptPubKey} of it is in the view the signing
    loop uses: vout is not negative, an input that spends (txid, vout)
    resolves to the given scriptPubKey, and the amount recorded for that
    output is 0, whatever the node knew about it. *)
Theorem prevtxs_outputs_resolve {J : Type} `{!JsonCollab J} `{!PrevTxCollab}
    (fGivenKeys : bool) (params : list J)
    (view view' : gmap uint256 CCoins) (keystore keystore' : CKeyStore)
    (p : J) (txid : uint256) (nOut : Z) (script : CScript) :
  add_prevtxs fGivenKeys params (view, keystore) = Reply (view', keystore') →
  p ∈ prevTxs_of params →
  prevtx_of p txid nOut script →
  (0 ≤ nOut)%Z
  ∧ out_at view' txid (Z.to_nat nOut)
    = Some {| nValue := 0; scriptPubKey := script |}
  ∧ ∀ txin,
      prevout txin = {| COutPoint.hash := txid; COutPoint.n := Z.to_N nOut |} →
      prevPubKey view' txin = Some script.
Proof.
  intros Hadd Hp Hparse. apply add_prevtxs_loop in Hadd.
  destruct (for_all_prevtx _ _ _ _ _ _ Hadd) as (_ & _ & Hlisted & _).
  destruct (Hlisted _ _ _ _ Hp Hparse) as [Hpos Hout].
  split_and!; [done | done |].
  intros txin Hprev. rewrite prevPubKey_out_at, Hprev. simpl.
  by rewrite Z_N_nat, Hout.
Qed.

(** X9: the prevtxs argument only adds to what the view knows.  An output
    that resolved before resolves afterwards, to the same script (an
    element that names a known unspent output with another script makes
    the call fail); and an output resolves afterwards only if it did
    before or an element of prevtxs names it. *)
Theorem prevtxs_only_add {J : Type} `{!JsonCollab J} `{!PrevTxCollab}
    (fGivenKeys : bool) (params : list J)
    (view view' : gmap uint256 CCoins) (keystore keystore' : CKeyStore)
    (txin : CTxIn) (s : CScript) :
  add_prevtxs fGivenKeys params (view, keystore) = Reply (view', keystore') →
  (prevPubKey view txin = Some s → prevPubKey view' txin = Some s)
  ∧ (prevPubKey view' txin = Some s →
     prevPubKey view txin = Some s
     ∨ ∃ p nOut,
         p ∈ prevTxs_of params
         ∧ prevtx_of p (COutPoint.hash (prevout txin)) nOut s
         ∧ COutPoint.n (prevout txin) = Z.to_N nOut).
Proof.
  intros Hadd. apply add_prevtxs_loop in Hadd.
  destruct (for_all_prevtx _ _ _ _ _ _ Hadd) as (_ & Hmono & _ & Honly & _).
  split; [apply Hmono | apply Honly].
Qed.

(** X10: the keys argument decides only whether redeem scripts reach the
    keystore: without it the keystore comes out of the prevtxs loop as it
    went in, and a prevtxs argument accepted with keys is accepted without
    them and builds the same view. *)
Theorem prevtxs_keys_flag {J : Type} `{!JsonCollab J} `{!PrevTxCollab}
    (fGivenKeys : bool) (params : list J)
    (view view' : gmap uint256 CCoins) (keystore keystore' : CKeyStore) :
  add_prevtxs fGivenKeys params (view, keystore) = Reply (view', keystore') →
  (fGivenKeys = false → keystore' = keystore)
  ∧ ∀ keystore0,
      add_prevtxs false params (view, keystore0) = Reply (view', keystore0).
Proof.
  intros Hadd. split.
  - apply add_prevtxs_loop in Hadd.
    by destruct (for_all_prevtx _ _ _ _ _ _ Hadd) as (_ & _ & _ & _ & ? & _).
  - by apply (add_prevtxs_without_keys fGivenKeys _ _ keystore _ keystore').
Qed.

(** ** The signing loop over a view in which every input resolves *)

Section ResolvedInputs.
Context {P : Type} `{!ScriptCollab P}.
Implicit Types (tx : CMutableTransactionBase P) (st : SignState P).
Implicit Types (view : gmap uint256 CCoins) (txin : CTxIn).

Lemma sign_tx_input_resolved view keystore nHashType txVariants i st st' txin :
  sign_tx_input view keystore nHashType txVariants i st = Some st' →
  vin (merged st) !! i = Some txin →
  is_Some (prevPubKey view txin) →
  ∃ es, vErrors st' = vErrors st ++ es ∧ Forall verify_failure es.
Proof.
  unfold sign_tx_input. intros Hstep Hi [pubKey Hres].
  rewrite Hi, Hres in Hstep. cbv zeta in Hstep.
  match type of Hstep with
  | context [merge_variants pubKey i txVariants ?t] => set (tx2 := t) in Hstep
  end.
  destruct (merge_variants pubKey i txVariants tx2) as [tx3|]; [| done].
  injection Hstep as <-. simpl.
  destruct (verify_input_errors pubKey i tx3 (vErrors st))
    as [-> | (txin3 & serror & Hin & Hv & ->)].
  - exists []. rewrite app_nil_r. split; [done | constructor].
  - eexists. split; [reflexivity |]. constructor; [| constructor].
    unfold verify_failure. simpl. eauto 10.
Qed.

Lemma for_each_sign_tx_resolved view keystore nHashType txVariants
    indices st st' :
  for_each (sign_tx_input view keystore nHashType txVariants) indices st
  = Some st' →
  (∀ i txin, i ∈ indices → vin (merged st) !! i = Some txin →
             is_Some (prevPubKey view txin)) →
  ∃ es, vErrors st' = vErrors st ++ es ∧ Forall verify_failure es.
Proof.
  revert st. induction indices as [|i rest IH]; intros st; simpl.
  - intros [= <-] _. exists []. rewrite app_nil_r. split; [done | constructor].
  - destruct (sign_tx_input view keystore nHashType txVariants i st)
      as [st1|] eqn:Hstep; [| done].
    intros Hrest Hall.
    destruct (vin (merged st) !! i) as [txin|] eqn:Hi.
    2:{ unfold sign_tx_input in Hstep. by rewrite Hi in Hstep. }
    destruct (sign_tx_input_resolved _ _ _ _ _ _ _ _ Hstep Hi)
      as (es1 & E1 & V1).
    { apply (Hall i); [by left | done]. }
    destruct (sign_tx_input_spec view keystore nHashType txVariants)
      as [_ Hframe].
    destruct (Hframe _ _ _ Hstep) as ((_ & _ & _ & _ & A5 & _ & _) & _).
    destruct (IH _ Hrest) as (es2 & E2 & V2).
    { intros j txin1 Hj Hin1. pose proof (A5 j) as Hp. rewrite Hin1 in Hp.
      destruct (vin (merged st) !! j) as [txin0|] eqn:Hin0; [| done].
      injection Hp as Hp.
      rewrite (prevPubKey_prevout view txin1 txin0 Hp).
      apply (Hall j); [by right | done]. }
    exists (es1 ++ es2). split; [by rewrite E2, E1, app_assoc |].
    by apply Forall_app.
Qed.

End ResolvedInputs.

(** X11: prevtxs and the signing loop together.  When the prevtxs
    argument names the output of every input of the transaction, no input
    is reported as not found: the call is complete, or each of its error
    records comes from a script verification that failed. *)
Theorem signing_with_all_prevtxs {J : Type} `{!JsonCollab J} `{!PrevTxCollab}
    {P : Type} `{!ScriptCollab P}
    (fGivenKeys : bool) (params : list J)
    (view view' : gmap uint256 CCoins) (tempKeystore tempKeystore' : CKeyStore)
    (keystore : CKeyStore) (sighashtype : option string)
    (tx0 : CMutableTransactionBase P) (rest : list (CMutableTransactionBase P))
    (r : SignResult P) :
  add_prevtxs fGivenKeys params (view, tempKeystore)
  = Reply (view', tempKeystore') →
  (∀ txin, txin ∈ vin tx0 →
     ∃ p nOut script,
       p ∈ prevTxs_of params
       ∧ prevtx_of p (COutPoint.hash (prevout txin)) nOut script
       ∧ COutPoint.n (prevout txin) = Z.to_N nOut) →
  signrawtransaction view' keystore sighashtype (tx0 :: rest) = Returned r →
  match res_errors r with
  | Some es => Forall verify_failure es
  | None => res_complete r = true
  end.
Proof.
  intros Hadd Hlisted. unfold signrawtransaction.
  destruct (parse_sighashtype sighashtype) as [nHashType| |]; try done.
  destruct (signrawtransaction_loop view' keystore nHashType (tx0 :: rest) tx0)
    as [st|] eqn:Hloop; [| done].
  intros [= <-]. unfold signrawtransaction_loop in Hloop.
  destruct (for_each_sign_tx_resolved _ _ _ _ _ _ _ Hloop) as (es & E & V).
  { intros i txin _ Hi. simpl in Hi.
    destruct (Hlisted txin) as (p & nOut & script & Hp & Hparse & Hn).
    { by apply list_elem_of_lookup_2 in Hi. }
    exists script.
    apply (add_prevtxs_listed fGivenKeys params view tempKeystore view'
             tempKeystore' p _ nOut script txin Hadd Hp Hparse).
    destruct txin as [[h n] sig sequence]. simpl in *. by rewrite Hn. }
  simpl in E. unfold sign_result. simpl. rewrite E.
  destruct es; simpl; [done | done].
Qed.

(** X8 (instance): output 1 of transaction 0x0a, unknown to the view, is
    given with the script [OP_TRUE]. *)
Lemma prevtxs_outputs_resolve_witness :
  let view' : gmap uint256 CCoins :=
    <[10%N := [null_CTxOut; {| nValue := 0; scriptPubKey := [x51] |}]]>
      Sample.view in
  (0 ≤ 1)%Z
  ∧ out_at view' 10%N (Z.to_nat 1)
    = Some {| nValue := 0; scriptPubKey := [x51] |}
  ∧ ∀ txin,
      prevout txin = {| COutPoint.hash := 10%N; COutPoint.n := Z.to_N 1 |} →
      prevPubKey view' txin = Some [x51].
Proof.
  apply (@prevtxs_outputs_resolve _ SampleJson.lib SampleJson.scripts false
           (SampleJson.sign_params [SampleJson.prevtx Sample.id_A 1 "51"])
           Sample.view _ Sample.no_keys Sample.no_keys
           (SampleJson.prevtx Sample.id_A 1 "51")).
  - vm_compute. reflexivity.
  - vm_compute. left.
  - exists (SampleJson.prevtx Sample.id_A 1 "51").
    split_and!; vm_compute; reflexivity.
Defined.

(** X9 (instance): output 0 of transaction 100, known to the view,
    resolves as before after an unrelated element was added. *)
Lemma prevtxs_only_add_witness :
  let view' : gmap uint256 CCoins :=
    <[10%N := [null_CTxOut; {| nValue := 0; scriptPubKey := [x51] |}]]>
      Sample.view in
  let txin := Sample.txin 100 0 [] in
  (prevPubKey Sample.view txin = Some [x51] →
   prevPubKey view' txin = Some [x51])
  ∧ (prevPubKey view' txin = Some [x51] →
     prevPubKey Sample.view txin = Some [x51]
     ∨ ∃ p nOut,
         p ∈ @prevTxs_of _ SampleJson.lib
               (SampleJson.sign_params [SampleJson.prevtx Sample.id_A 1 "51"])
         ∧ @prevtx_of _ SampleJson.lib p
             (COutPoint.hash (prevout txin)) nOut [x51]
         ∧ COutPoint.n (prevout txin) = Z.to_N nOut).
Proof.
  apply (@prevtxs_only_add _ SampleJson.lib SampleJson.scripts false
           (SampleJson.sign_params [SampleJson.prevtx Sample.id_A 1 "51"])
           Sample.view _ Sample.no_keys Sample.no_keys).
  vm_compute. reflexivity.
Defined.

(** X10 (instance): with keys given, the redeem script of a
    pay-to-script-hash output reaches the keystore; the view is the one
    built without keys. *)
Lemma prevtxs_keys_flag_witness :
  let params :=
    SampleJson.sign_params
      [SampleJson.prevtx_p2sh Sample.id_A 0 SampleJson.p2sh_hex "51"] in
  @add_prevtxs _ SampleJson.lib SampleJson.scripts true params
    (∅, Sample.no_keys)
  = Reply ({[ 10%N := [{| nValue := 0;
                          scriptPubKey :=
                            [xa9; x14; x01; x02; x03; x04; x05; x06; x07;
                             x08; x09; x0a; x0b; x0c; x0d; x0e; x0f; x10;
                             x11; x12; x13; x14; x87] |}] ]},
           {| mapKeys := []; mapScripts := [[x51]] |})
  ∧ ((true = false →
      {| mapKeys := []; mapScripts := [[x51]] |} = Sample.no_keys)
     ∧ ∀ keystore0,
         @add_prevtxs _ SampleJson.lib SampleJson.scripts false params
           (∅, keystore0)
         = Reply ({[ 10%N := [{| nValue := 0;
                                 scriptPubKey :=
                                   [xa9; x14; x01; x02; x03; x04; x05; x06;
                                    x07; x08; x09; x0a; x0b; x0c; x0d; x0e;
                                    x0f; x10; x11; x12; x13; x14; x87] |}] ]},
                  keystore0)).
Proof.
  assert (@add_prevtxs _ SampleJson.lib SampleJson.scripts true
            (SampleJson.sign_params
               [SampleJson.prevtx_p2sh Sample.id_A 0 SampleJson.p2sh_hex "51"])
            (∅, Sample.no_keys)
          = Reply ({[ 10%N := [{| nValue := 0;
                                  scriptPubKey :=
                                    [xa9; x14; x01; x02; x03; x04; x05; x06;
                                     x07; x08; x09; x0a; x0b; x0c; x0d; x0e;
                                     x0f; x10; x11; x12; x13; x14; x87] |}] ]},
                   {| mapKeys := []; mapScripts := [[x51]] |})) as Hadd.
  { vm_compute. reflexivity. }
  split; [exact Hadd |].
  apply (@prevtxs_keys_flag _ SampleJson.lib SampleJson.scripts true _ _ _ _ _
           Hadd).
Defined.

(** X11 (instance): the one input is named by prevtxs; without keys its
    script stays empty, and the one error record is the verifier's. *)
Lemma signing_with_all_prevtxs_witness :
  Forall (@verify_failure _ (Sample.collab TxPayload))
    [ {| err_txid := 10%N; err_vout := 1%N;
         err_scriptSig := String.EmptyString;
         err_sequence := 4294967295%N;
         err_error := "Script evaluated without error but finished with a false/empty top stack element" |} ].
Proof.
  apply (@signing_with_all_prevtxs _ SampleJson.lib SampleJson.scripts
           _ (Sample.collab TxPayload) false
           (SampleJson.sign_params [SampleJson.prevtx Sample.id_A 1 "51"])
           Sample.view
           (<[10%N := [null_CTxOut; {| nValue := 0; scriptPubKey := [x51] |}]]>
              Sample.view)
           Sample.no_keys Sample.no_keys Sample.no_keys None
           (Sample.tx [Sample.txin 10 1 []] [] 0) []
           {| res_hex := Sample.tx [Sample.txin 10 1 []] [] 0;
              res_complete := false;
              res_errors :=
                Some [ {| err_txid := 10%N; err_vout := 1%N;
                          err_scriptSig := String.EmptyString;
                          err_sequence := 4294967295%N;
                          err_error := "Script evaluated without error but finished with a false/empty top stack element" |} ] |}).
  - vm_compute. reflexivity.
  - intros txin Hin. apply list_elem_of_singleton in Hin as ->.
    exists (SampleJson.prevtx Sample.id_A 1 "51"), 1%Z, [x51].
    split_and!.
    + vm_compute. left.
    + exists (SampleJson.prevtx Sample.id_A 1 "51").
      split_and!; vm_compute; reflexivity.
    + reflexivity.
  - vm_compute. reflexivity.
Defined.

(** ** Reading the hex argument of the two signing calls *)

Section StreamFacts.
Context {P : Type} `{!StreamCollab P}.
Variable encode : CMutableTransactionBase P → list byte.

Lemma read_txVariants_concat (txs acc : list (CMutableTransactionBase P))
    (fuel : nat) :
  Forall (decodes encode) txs →
  length (concat (encode <$> txs)) ≤ fuel →
  read_txVariants fuel (concat (encode <$> txs)) acc = Reply (acc ++ txs).
Proof.
  revert acc fuel. induction txs as [|tx rest IH]; intros acc fuel Hall Hfuel.
  - destruct fuel; simpl; by rewrite app_nil_r.
  - apply Forall_cons in Hall as [[Hne Hdec] Hall].
    rewrite fmap_cons in *. cbn [concat] in *.
    rewrite length_app in Hfuel.
    destruct (encode tx) as [|b bs] eqn:Henc; [done |].
    destruct fuel as [|fuel]; [simpl in Hfuel; lia |].
    cbn [read_txVariants app]. specialize (Hdec (concat (encode <$> rest))).
    cbn [app] in Hdec. rewrite Hdec.
    rewrite IH; [by rewrite <- app_assoc | done | simpl in Hfuel; lia].
Qed.

Lemma read_txVariants_garbage (txs acc : list (CMutableTransactionBase P))
    (garbage : list byte) (fuel : nat) :
  Forall (decodes encode) txs →
  garbage ≠ [] → Unserialize_entity garbage = None →
  length (concat (encode <$> txs) ++ garbage) ≤ fuel →
  read_txVariants fuel (concat (encode <$> txs) ++ garbage) acc
  = throw RPC_DESERIALIZATION_ERROR "TX decode failed".
Proof.
  intros Hall Hne Hnone. revert acc fuel Hall.
  induction txs as [|tx rest IH]; intros acc fuel Hall Hfuel.
  - simpl in *. destruct garbage as [|b bs]; [done |].
    destruct fuel as [|fuel]; [simpl in Hfuel; lia |].
    cbn [read_txVariants]. by rewrite Hnone.
  - apply Forall_cons in Hall as [[Hne' Hdec] Hall].
    rewrite fmap_cons in *. cbn [concat] in *.
    rewrite <- app_assoc in *. rewrite length_app in Hfuel.
    destruct (encode tx) as [|b bs] eqn:Henc; [done |].
    destruct fuel as [|fuel]; [simpl in Hfuel; lia |].
    cbn [read_txVariants app].
    specialize (Hdec (concat (encode <$> rest) ++ garbage)).
    cbn [app] in Hdec. rewrite Hdec.
    apply IH; [done | simpl in Hfuel; lia].
Qed.

End StreamFacts.

(** X12: signrawtransaction reads its hex argument as a sequence of
    transactions, all or nothing.  For data that is the encodings of
    [txs] one after the other, followed by [garbage] that is empty or does
    not decode: with garbage the call fails with "TX decode failed"
    whatever came before it; without any transaction it fails with
    "Missing transaction"; otherwise the variants are exactly [txs], in
    the order given. *)
Theorem variants_read_in_order {J P : Type} `{!JsonCollab J} `{!StreamCollab P}
    (encode : CMutableTransactionBase P → list byte)
    (params : list J) (txs : list (CMutableTransactionBase P))
    (garbage : list byte) :
  RPCTypeCheck params [VSTR; VARR; VARR; VSTR] true = Reply () →
  ParseHexV (param params 0) "argument 1"
  = Reply (concat (encode <$> txs) ++ garbage) →
  Forall (decodes encode) txs →
  garbage = [] ∨ Unserialize_entity garbage = None →
  decode_txVariants params
  = if decide (garbage ≠ []) then
      throw RPC_DESERIALIZATION_ERROR "TX decode failed"
    else if decide (txs = []) then
      throw RPC_DESERIALIZATION_ERROR "Missing transaction"
    else Reply txs.
Proof.
  intros Hcheck Hhex Hall Hgarbage. unfold decode_txVariants.
  rewrite Hcheck. cbn [mbind reply_bind]. rewrite Hhex. cbn [mbind reply_bind].
  destruct (decide (garbage ≠ [])) as [Hne | Hempty].
  - destruct Hgarbage as [-> | Hnone]; [done |].
    by rewrite (read_txVariants_garbage encode txs [] garbage _ Hall Hne Hnone).
  - assert (garbage = []) as ->.
    { destruct garbage; [done | exfalso; by apply Hempty]. }
    rewrite app_nil_r.
    rewrite (read_txVariants_concat encode txs [] _ Hall); [| done].
    simpl. destruct txs as [|tx rest]; [done |].
    by rewrite decide_False.
Qed.

(** X13: signrawcertificate takes one certificate and nothing more: for
    data that is the encoding of a certificate followed by [extra] bytes,
    the call goes on with that certificate when there are none, and fails
    with "Found n extra byte(s) after certificate" otherwise, a second
    certificate included. *)
Theorem one_certificate_only {J P : Type} `{!JsonCollab J} `{!StreamCollab P}
    `{!FormatCollab}
    (encode : CMutableTransactionBase P → list byte)
    (params : list J) (cert : CMutableTransactionBase P) (extra : list byte) :
  RPCTypeCheck params [VSTR; VARR] true = Reply () →
  ParseHexV (param params 0) "argument 1" = Reply (encode cert ++ extra) →
  decodes encode cert →
  decode_certificate params
  = if decide (extra = []) then Reply cert
    else
      throw RPC_DESERIALIZATION_ERROR
        ("Found " +:+ format_d (Z.of_nat (length extra)) +:+ " extra byte"
         +:+ (if decide (1 < length extra) then "s " else " ")
         +:+ "after certificate").
Proof.
  intros Hcheck Hhex [Hne Hdec]. unfold decode_certificate.
  rewrite Hcheck. cbn [mbind reply_bind]. rewrite Hhex. cbn [mbind reply_bind].
  rewrite Hdec.
  destruct (encode cert) as [|b bs] eqn:Henc; [done |]. cbn [app vector_empty].
  destruct extra as [|x extra]; cbn [vector_empty negb].
  - by rewrite decide_True.
  - by rewrite (decide_False (P := x :: extra = [])).
Qed.

(** ** The builders of createrawtransaction and createrawcertificate *)

Section BuilderFacts.
Context {J P Addr : Type}.
Context `{!JsonCollab J} `{!EntityCollab P} `{!AddressCollab Addr}.
Implicit Types (tx : CMutableTransactionBase P).

Lemma add_input_Reply (input : J) tx tx' :
  add_input input tx = Reply tx'
  ↔ ∃ outpoint,
      input_of input outpoint ∧ tx' = push_back_vin (CTxIn_of outpoint) tx.
Proof.
  unfold add_input, input_of, mbind, reply_bind. split.
  - destruct (get_obj input) as [o| |] eqn:Hobj; [| done | done].
    destruct (ParseHashO o "txid") as [txid| |] eqn:Htxid; [| done | done].
    destruct (isNum (find_value o "vout")) eqn:Hnum; [| done]. simpl.
    destruct (get_int (find_value o "vout")) as [nOutput| |] eqn:Hint;
      [| done | done].
    destruct (nOutput <? 0)%Z eqn:Hneg; [done |].
    intros [= <-].
    exists {| COutPoint.hash := txid; COutPoint.n := Z.to_N nOutput |}.
    split; [| done]. exists o, nOutput. split_and!; try done. lia.
  - intros ([h n] & (o & nOutput & Hobj & Htxid & Hnum & Hint & Hpos & Hn)
            & ->).
    simpl in *. rewrite Hobj, Htxid, Hnum. simpl. rewrite Hint.
    assert ((nOutput <? 0)%Z = false) as -> by lia. by rewrite Hn.
Qed.

Lemma AddInputsToRawObject_Reply (inputs : list J) tx tx' :
  AddInputsToRawObject tx inputs = Reply tx'
  ↔ ∃ outpoints,
      Forall2 input_of inputs outpoints
      ∧ tx' = {| nVersion := nVersion tx;
                 vin := vin tx ++ (CTxIn_of <$> outpoints);
                 vout := vout tx;
                 payload := payload tx |}.
Proof.
  unfold AddInputsToRawObject. revert tx.
  induction inputs as [|input rest IH]; intros tx.
  - simpl. split.
    + intros [= <-]. exists []. split; [constructor |].
      destruct tx. simpl. by rewrite app_nil_r.
    + intros (outpoints & Hall & ->). apply Forall2_nil_inv_l in Hall as ->.
      destruct tx. simpl. by rewrite app_nil_r.
  - cbn [for_all]. unfold mbind, reply_bind. split.
    + destruct (add_input input tx) as [tx1| |] eqn:Hstep; [| done | done].
      apply add_input_Reply in Hstep as (outpoint & Hin & ->).
      intros Hrest. apply IH in Hrest as (outpoints & Hall & ->).
      exists (outpoint :: outpoints). split; [by constructor |].
      simpl. by rewrite <- app_assoc.
    + intros (outpoints & Hall & ->).
      apply Forall2_cons_inv_l in Hall
        as (outpoint & outpoints' & Hin & Hall & ->).
      assert (add_input input tx
              = Reply (push_back_vin (CTxIn_of outpoint) tx)) as ->.
      { apply add_input_Reply. by exists outpoint. }
      apply IH. exists outpoints'. split; [done |].
      simpl. by rewrite <- app_assoc.
Qed.

Lemma add_output_Reply (sendTo : J) (name_ : string)
    (st st' : CMutableTransactionBase P * list Addr) :
  add_output sendTo name_ st = Reply st' →
  ∃ made,
    output_of sendTo name_ made
    ∧ (fst made ∉ snd st)
    ∧ st' = (addOut (snd made) (fst st), fst made :: snd st).
Proof.
  unfold add_output, output_of, mbind, reply_bind.
  destruct (CBitcoinAddress_of_string name_) as [address|] eqn:Haddr;
    [| done].
  destruct (bool_decide (address ∈ snd st)) eqn:Hdup; [done |].
  apply bool_decide_eq_false in Hdup.
  destruct (AmountFromValue (at_key sendTo name_)) as [nAmount| |] eqn:Hamount;
    [| done | done].
  intros [= <-].
  by exists (address, {| nValue := nAmount;
                         scriptPubKey := GetScriptForDestination address |}).
Qed.

Lemma for_all_add_output (sendTo : J) (keys : list string) tx tx'
    (acc addrs : list Addr) :
  for_all (add_output sendTo) keys (tx, acc) = Reply (tx', addrs) →
  ∃ made,
    Forall2 (output_of sendTo) keys made
    ∧ NoDup made.*1
    ∧ (∀ a, a ∈ made.*1 → a ∉ acc)
    ∧ tx' = foldl (λ t o, addOut o t) tx made.*2
    ∧ addrs = rev made.*1 ++ acc.
Proof.
  revert tx acc. induction keys as [|name_ rest IH]; intros tx acc.
  - simpl. intros [= <- <-]. exists []. split_and!.
    + constructor.
    + apply NoDup_nil_2.
    + intros a Ha. by apply elem_of_nil in Ha.
    + done.
    + done.
  - cbn [for_all]. unfold mbind, reply_bind.
    destruct (add_output sendTo name_ (tx, acc)) as [[tx1 acc1]| |] eqn:Hstep;
      [| done | done].
    apply add_output_Reply in Hstep as (made1 & Hmade & Hfresh & Hst).
    simpl in Hfresh, Hst. injection Hst as -> ->.
    intros Hrest.
    apply IH in Hrest as (made & Hall & Hnd & Hnew & -> & ->).
    exists (made1 :: made). split_and!.
    + by constructor.
    + rewrite fmap_cons. apply NoDup_cons. split; [| done].
      intros Hin. apply (Hnew _ Hin). by left.
    + intros a Ha. rewrite fmap_cons in Ha.
      apply elem_of_cons in Ha as [-> | Ha]; [done |].
      intros Hacc. apply (Hnew _ Ha). by right.
    + done.
    + rewrite fmap_cons. simpl. by rewrite <- app_assoc.
Qed.

End BuilderFacts.


(** X15: when AddOutputsToRawObject succeeds it has added one output per
    key of the address object, in key order, each with the amount given
    under that key and the script of the address the key denotes; and the
    keys denote pairwise different addresses: a repeated key, or two keys
    for one address, makes the call fail. *)
Theorem outputs_to_distinct_addresses {J P Addr : Type} `{!JsonCollab J}
    `{!EntityCollab P} `{!AddressCollab Addr}
    (sendTo : J) (tx tx' : CMutableTransactionBase P) :
  AddOutputsToRawObject (Addr := Addr) tx sendTo = Reply tx' →
  ∃ made : list (Addr * CTxOut),
    Forall2 (output_of sendTo) (getKeys sendTo) made
    ∧ NoDup made.*1
    ∧ tx' = foldl (λ t o, addOut o t) tx made.*2.
Proof.
  unfold AddOutputsToRawObject, add_outputs, mbind, reply_bind.
  destruct (for_all (add_output sendTo) (getKeys sendTo) (tx, []))
    as [[tx1 addrs]| |] eqn:Hloop; [| done | done].
  intros [= <-].
  apply for_all_add_output in Hloop as (made & Hall & Hnd & _ & -> & _).
  by exists made.
Qed.

(** ** The fields of a certificate *)

Section CertParamsFacts.
Context {J : Type} `{!JsonCollab J} `{!SidechainCollab}.

Lemma check_keys_Reply (keys : list string) (acc setKeyArgs : gset string) :
  for_all check_key keys acc = Reply setKeyArgs →
  NoDup keys
  ∧ (∀ k, k ∈ keys → k ∈ validKeyArgs ∧ k ∉ acc)
  ∧ setKeyArgs = list_to_set keys ∪ acc.
Proof.
  revert acc. induction keys as [|s rest IH]; intros acc.
  - simpl. intros [= <-]. split_and!.
    + apply NoDup_nil_2.
    + intros k Hk. by apply elem_of_nil in Hk.
    + by rewrite (left_id_L ∅ (∪)).
  - cbn [for_all]. unfold mbind, reply_bind, check_key.
    destruct (bool_decide (s ∈ validKeyArgs)) eqn:Hvalid; [| done].
    apply bool_decide_eq_true in Hvalid. cbn [negb].
    destruct (bool_decide (s ∈ acc)) eqn:Hdup; [done |].
    apply bool_decide_eq_false in Hdup.
    intros Hrest. apply IH in Hrest as (Hnd & Hkeys & ->). split_and!.
    + apply NoDup_cons. split; [| done]. intros Hin.
      destruct (Hkeys _ Hin) as [_ Hfresh]. apply Hfresh.
      apply elem_of_union. left. by apply elem_of_singleton.
    + intros k Hk. apply elem_of_cons in Hk as [-> | Hk]; [done |].
      destruct (Hkeys _ Hk) as [Hv Hfresh]. split; [done |].
      intros Hacc. apply Hfresh. apply elem_of_union. by right.
    + simpl. by rewrite (assoc_L (∪)), (comm_L (∪) (list_to_set _) {[_]}).
Qed.

Lemma parse_cert_params_Reply (cert_params : J) (fields : CertPayload) :
  parse_cert_params cert_params = Reply fields →
  getKeys cert_params ≡ₚ validKeyArgs
  ∧ (∃ s, get_str (find_value cert_params "scid") = Reply s
          ∧ scId fields = uint256_SetHex s)
  ∧ get_int (find_value cert_params "withdrawalEpochNumber")
    = Reply (epochNumber fields)
  ∧ get_int64 (find_value cert_params "quality") = Reply (quality fields)
  ∧ (0 ≤ quality fields)%Z
  ∧ (∃ s, get_str (find_value cert_params "endEpochBlockHash") = Reply s
          ∧ endEpochBlockHash fields = uint256_SetHex s)
  ∧ (∃ s, get_str (find_value cert_params "scProof") = Reply s
          ∧ AddScData s = inr (scProof fields)
          ∧ IsValidScProof (scProof fields) = true).
Proof.
  unfold parse_cert_params, missing_parameter, mbind, reply_bind.
  destruct (isObject cert_params); [| done]. cbn [negb].
  destruct (for_all check_key (getKeys cert_params) ∅)
    as [setKeyArgs| |] eqn:Hkeys; [| done | done].
  apply check_keys_Reply in Hkeys as (Hnd & Hvalid & ->).
  rewrite (right_id_L ∅ (∪)).
  destruct (bool_decide ("scid" ∈ _)) eqn:K1; [| done].
  destruct (get_str (find_value cert_params "scid")) as [s1| |] eqn:V1;
    [| done | done].
  destruct (bool_decide ("withdrawalEpochNumber" ∈ _)) eqn:K2; [| done].
  destruct (get_int (find_value cert_params "withdrawalEpochNumber"))
    as [epoch| |] eqn:V2; [| done | done].
  destruct (bool_decide ("quality" ∈ _)) eqn:K3; [| done].
  destruct (get_int64 (find_value cert_params "quality")) as [q| |] eqn:V3;
    [| done | done].
  destruct (q <? 0)%Z eqn:Hq; [done |].
  destruct (bool_decide ("endEpochBlockHash" ∈ _)) eqn:K4; [| done].
  destruct (get_str (find_value cert_params "endEpochBlockHash"))
    as [s4| |] eqn:V4; [| done | done].
  destruct (bool_decide ("scProof" ∈ _)) eqn:K5; [| done].
  destruct (get_str (find_value cert_params "scProof")) as [s5| |] eqn:V5;
    [| done | done].
  destruct (AddScData s5) as [error|scProofVec] eqn:V6; [done |].
  destruct (IsValidScProof scProofVec) eqn:V7; [| done].
  intros [= <-]. simpl.
  apply bool_decide_eq_true, elem_of_list_to_set in K1, K2, K3, K4, K5.
  split_and!; eauto; [| lia].
  apply NoDup_Permutation; [done | |].
  - unfold validKeyArgs. apply (bool_decide_unpack _). by vm_compute.
  - intros k. split; [by intros Hk; apply Hvalid |].
    unfold validKeyArgs. rewrite !elem_of_cons.
    intros [-> | [-> | [-> | [-> | [-> | Hk]]]]]; try done.
    by apply elem_of_nil in Hk.
Qed.

End CertParamsFacts.

(** X16: createrawcertificate returns a certificate only for a fourth
    argument that has exactly the keys scid, withdrawalEpochNumber,
    quality, endEpochBlockHash and scProof, each once (in any order); the
    certificate carries the values read under these keys, its quality is
    not negative (0 is accepted), and its proof passed AddScData and
    IsValidScProof. *)
Theorem certificate_fields_all_and_once {J Addr : Type} `{!JsonCollab J}
    `{!EntityCollab CertPayload} `{!AddressCollab Addr} `{!SidechainCollab}
    (params : list J) (cert : CMutableScCertificate) :
  createrawcertificate (Addr := Addr) params = Reply cert →
  ∃ cert_params,
    get_obj (param params 3) = Reply cert_params
    ∧ getKeys cert_params ≡ₚ validKeyArgs
    ∧ (∃ s, get_str (find_value cert_params "scid") = Reply s
            ∧ scId (payload cert) = uint256_SetHex s)
    ∧ get_int (find_value cert_params "withdrawalEpochNumber")
      = Reply (epochNumber (payload cert))
    ∧ get_int64 (find_value cert_params "quality")
      = Reply (quality (payload cert))
    ∧ (0 ≤ quality (payload cert))%Z
    ∧ (∃ s, get_str (find_value cert_params "endEpochBlockHash") = Reply s
            ∧ endEpochBlockHash (payload cert) = uint256_SetHex s)
    ∧ (∃ s, get_str (find_value cert_params "scProof") = Reply s
            ∧ AddScData s = inr (scProof (payload cert))
            ∧ IsValidScProof (scProof (payload cert)) = true).
Proof.
  unfold createrawcertificate, mbind, reply_bind.
  destruct (RPCTypeCheck params _ false) as [[]| |]; [| done | done].
  destruct (get_array (param params 0)) as [inputs| |]; [| done | done].
  destruct (get_obj (param params 1)) as [standardOutputs| |];
    [| done | done].
  destruct (get_obj (param params 2)) as [backwardOutputs| |];
    [| done | done].
  destruct (get_obj (param params 3)) as [cert_params| |]; [| done | done].
  cbv zeta.
  destruct (AddInputsToRawObject _ inputs) as [rawCert1| |]; [| done | done].
  destruct (AddOutputsToRawObject rawCert1 standardOutputs)
    as [rawCert2| |]; [| done | done].
  destruct (for_all (add_backward_output backwardOutputs) _ _)
    as [st| |]; [| done | done].
  destruct (parse_cert_params cert_params) as [fields| |] eqn:Hfields;
    [| done | done].
  intros [= <-]. exists cert_params. split; [done |]. simpl.
  by apply parse_cert_params_Reply.
Qed.

(** ** The submission calls *)

(** X17: sendrawtransaction and sendrawcertificate return an id only for
    an entity that decoded, is not in the block chain, and is in the
    memory pool (it was there already, then acceptance is not attempted;
    or this call's acceptance succeeded); the id is the entity's hash,
    and the relay is the last call made.  A call that does not return
    the id relays nothing. *)
Theorem submission_relays_iff_replies {J E : Type} `{!JsonCollab J}
    `{!HashCollab} `{!FormatCollab} `{!NodeCollab E} (params : list J) :
  replied_and_relayed params "TX decode failed"
    (λ h, match existingCoins h with
          | Some coinsHeight => (coinsHeight <? 1000000000)%Z
          | None => false
          end)
    (sendrawtransaction params)
  ∧ replied_and_relayed params "Certificate decode failed"
      (λ h, match existingCoins h with Some _ => true | None => false end)
      (sendrawcertificate params).
Proof.
  unfold replied_and_relayed. split.
  - unfold sendrawtransaction.
    destruct (decode_submission params "TX decode failed")
      as [[tx fOverrideFees]| |]; simpl.
    2,3: split; [done | intros _ x Hx; by apply elem_of_nil in Hx].
    unfold submit_transaction.
    destruct (mempool_exists (GetHash tx)) eqn:Hmem;
      destruct (match existingCoins (GetHash tx) with
                | Some coinsHeight => (coinsHeight <? 1000000000)%Z
                | None => false
                end) eqn:Hchain; simpl.
    1,3: split; [done | intros _ x Hx; by apply elem_of_nil in Hx].
    + split.
      * intros h [= <-]. exists tx, fOverrideFees. split_and!; try done.
        by left.
      * intros Hno. by destruct (Hno (GetHex (GetHash tx))).
    + destruct (accepted (AcceptToMemoryPool tx false (negb fOverrideFees)))
        eqn:Hacc; simpl.
      * split.
        -- intros h [= <-]. exists tx, fOverrideFees. split_and!; try done.
           by right.
        -- intros Hno. by destruct (Hno (GetHex (GetHash tx))).
      * split.
        -- intros h. by repeat case_match.
        -- intros _ x Hx. apply list_elem_of_singleton in Hx. done.
  - unfold sendrawcertificate.
    destruct (decode_submission params "Certificate decode failed")
      as [[cert fOverrideFees]| |]; simpl.
    2,3: split; [done | intros _ x Hx; by apply elem_of_nil in Hx].
    unfold submit_certificate.
    destruct (mempool_exists (GetHash cert)) eqn:Hmem;
      destruct (match existingCoins (GetHash cert) with
                | Some _ => true
                | None => false
                end) eqn:Hchain; simpl.
    1,3: split; [done | intros _ x Hx; by apply elem_of_nil in Hx].
    + split.
      * intros h [= <-]. exists cert, fOverrideFees. split_and!; try done.
        by left.
      * intros Hno. by destruct (Hno (GetHex (GetHash cert))).
    + destruct (accepted (AcceptToMemoryPool cert false (negb fOverrideFees)))
        eqn:Hacc; simpl.
      * split.
        -- intros h [= <-]. exists cert, fOverrideFees. split_and!; try done.
           by right.
        -- intros Hno. by destruct (Hno (GetHex (GetHash cert))).
      * split.
        -- intros h. by repeat case_match.
        -- intros _ x Hx. apply list_elem_of_singleton in Hx. done.
Qed.

(** X12 (instance): two transactions in one hex argument. *)
Lemma variants_read_in_order_witness :
  @decode_txVariants _ SampleJson.lib _ SampleRpc.tx_stream
    [SampleJson.JStr "0102"]
  = Reply [SampleRpc.tx_of_byte x01; SampleRpc.tx_of_byte x02].
Proof.
  apply (@variants_read_in_order _ _ SampleJson.lib SampleRpc.tx_stream
           SampleRpc.encode_tx [SampleJson.JStr "0102"]
           [SampleRpc.tx_of_byte x01; SampleRpc.tx_of_byte x02] []).
  - reflexivity.
  - vm_compute. reflexivity.
  - repeat constructor; try done; intros rest; reflexivity.
  - by left.
Defined.

(** X13 (instance): a certificate followed by one more byte. *)
Lemma one_certificate_only_witness :
  @decode_certificate _ SampleJson.lib _ SampleRpc.cert_stream
    SampleRpc.format [SampleJson.JStr "0507"]
  = throw RPC_DESERIALIZATION_ERROR "Found 1 extra byte after certificate".
Proof.
  apply (@one_certificate_only _ _ SampleJson.lib SampleRpc.cert_stream
           SampleRpc.format SampleRpc.encode_cert [SampleJson.JStr "0507"]
           (SampleRpc.cert_of_byte x05) [x07]).
  - reflexivity.
  - vm_compute. reflexivity.
  - split; [done | intros rest; reflexivity].
Defined.


(** X15 (instance): two addresses, two outputs. *)
Lemma outputs_to_distinct_addresses_witness :
  let sendTo :=
    SampleJson.JObj [("ztA", SampleJson.JNum 5); ("ztB", SampleJson.JNum 7)] in
  ∃ made : list (string * CTxOut),
    Forall2 (@output_of _ SampleJson.lib _ SampleRpc.addresses sendTo)
      (@getKeys _ SampleJson.lib sendTo) made
    ∧ NoDup made.*1
    ∧ Sample.tx [] [ {| nValue := 5; scriptPubKey := [x76; xa9] |};
                     {| nValue := 7; scriptPubKey := [x76; xa9] |} ] 0
      = foldl (λ t o, SampleRpc.push_back_vout o t) (Sample.tx [] [] 0)
          made.*2.
Proof.
  apply (@outputs_to_distinct_addresses _ _ _ SampleJson.lib
           (SampleRpc.entity 1 {| nLockTime := 0; vjoinsplit := [] |})
           SampleRpc.addresses).
  vm_compute. reflexivity.
Defined.

(** X16 (instance): the five keys in another order, quality 0. *)
Lemma certificate_fields_all_and_once_witness :
  ∃ cert_params,
    @get_obj _ SampleJson.lib (@param _ SampleJson.lib SampleRpc.cert_call 3)
    = Reply cert_params
    ∧ @getKeys _ SampleJson.lib cert_params ≡ₚ validKeyArgs
    ∧ (∃ s, @get_str _ SampleJson.lib
              (@find_value _ SampleJson.lib cert_params "scid") = Reply s
            ∧ scId (payload SampleRpc.cert_made)
              = @uint256_SetHex SampleRpc.sidechain s)
    ∧ @get_int _ SampleJson.lib
        (@find_value _ SampleJson.lib cert_params "withdrawalEpochNumber")
      = Reply (epochNumber (payload SampleRpc.cert_made))
    ∧ @get_int64 _ SampleJson.lib
        (@find_value _ SampleJson.lib cert_params "quality")
      = Reply (quality (payload SampleRpc.cert_made))
    ∧ (0 ≤ quality (payload SampleRpc.cert_made))%Z
    ∧ (∃ s, @get_str _ SampleJson.lib
              (@find_value _ SampleJson.lib cert_params "endEpochBlockHash")
            = Reply s
            ∧ endEpochBlockHash (payload SampleRpc.cert_made)
              = @uint256_SetHex SampleRpc.sidechain s)
    ∧ (∃ s, @get_str _ SampleJson.lib
              (@find_value _ SampleJson.lib cert_params "scProof") = Reply s
            ∧ @AddScData SampleRpc.sidechain s
              = inr (scProof (payload SampleRpc.cert_made))
            ∧ @IsValidScProof SampleRpc.sidechain
                (scProof (payload SampleRpc.cert_made)) = true).
Proof.
  apply (@certificate_fields_all_and_once _ _ SampleJson.lib
           (SampleRpc.entity 0 (payload (Sample.cert [] [])))
           SampleRpc.addresses SampleRpc.sidechain SampleRpc.cert_call).
  vm_compute. reflexivity.
Defined.

(** X17 (instance): transaction 3 is new to the node and accepted; the
    calls made are the acceptance and the relay. *)
Lemma submission_relays_iff_replies_witness :
  ∃ e fOverrideFees,
    @decode_submission _ SampleJson.lib _ SampleRpc.node
      [SampleJson.JStr "03"] "TX decode failed"
    = Reply (e, fOverrideFees)
    ∧ @GetHex Sample.hashing 3%N
      = @GetHex Sample.hashing (@GetHash _ SampleRpc.node e)
    ∧ match @existingCoins _ SampleRpc.node (@GetHash _ SampleRpc.node e) with
      | Some coinsHeight => (coinsHeight <? 1000000000)%Z
      | None => false
      end = false
    ∧ ((@mempool_exists _ SampleRpc.node (@GetHash _ SampleRpc.node e) = true
        ∧ [AcceptCall (SampleRpc.tx_of_byte x03) false true;
           RelayCall (SampleRpc.tx_of_byte x03)]
          = [RelayCall e])
       ∨ (@mempool_exists _ SampleRpc.node (@GetHash _ SampleRpc.node e)
          = false
          ∧ accepted (@AcceptToMemoryPool _ SampleRpc.node e false
                        (negb fOverrideFees)) = true
          ∧ [AcceptCall (SampleRpc.tx_of_byte x03) false true;
             RelayCall (SampleRpc.tx_of_byte x03)]
            = [AcceptCall e false (negb fOverrideFees); RelayCall e])).
Proof.
  apply (proj1 (proj1 (@submission_relays_iff_replies _ _ SampleJson.lib
                         Sample.hashing SampleRpc.format SampleRpc.node
                         [SampleJson.JStr "03"]))
           (@GetHex Sample.hashing 3%N)).
  vm_compute. reflexivity.
Defined.

(** ** createrawtransaction as a whole *)

Section CreateFacts.
Context {J Addr : Type}.
Context `{!JsonCollab J} `{!EntityCollab TxPayload} `{!AddressCollab Addr}.

Lemma add_sidechain_outputs_skipped
    (builder : list J → CMutableTransaction → string + CMutableTransaction)
    (params : list J) (i : nat) (rawTx : CMutableTransaction) :
  (i < length params →
   isNull (param params i) = true ∨ get_array (param params i) = Reply []) →
  add_sidechain_outputs builder params i rawTx = Reply rawTx.
Proof.
  intros Hskip. unfold add_sidechain_outputs.
  destruct (bool_decide (i < length params)) eqn:Hlen; [| done].
  apply bool_decide_eq_true in Hlen.
  destruct (Hskip Hlen) as [-> | Harr]; [done |].
  destruct (isNull (param params i)); [done |]. simpl.
  unfold mbind, reply_bind. by rewrite Harr.
Qed.

End CreateFacts.

(** X18: createrawtransaction composes the two builders.  A third and a
    fourth argument that are left out, null or empty arrays are never
    handed to the sidechain builders; the transaction returned is then
    the default-constructed one with one input per element of the first
    argument, in order, and one output per key of the second, in order,
    the keys denoting pairwise different addresses. *)
Theorem created_transaction_is_inputs_and_outputs {J Addr : Type}
    `{!JsonCollab J} `{!EntityCollab TxPayload} `{!AddressCollab Addr}
    `{!SidechainTxCollab J} (params : list J) (rawTx : CMutableTransaction) :
  (∀ i, i = 2 ∨ i = 3 → i < length params →
        isNull (param params i) = true
        ∨ get_array (param params i) = Reply []) →
  createrawtransaction (Addr := Addr) params = Reply rawTx →
  ∃ inputs sendTo outpoints (made : list (Addr * CTxOut)),
    get_array (param params 0) = Reply inputs
    ∧ get_obj (param params 1) = Reply sendTo
    ∧ Forall2 input_of inputs outpoints
    ∧ Forall2 (output_of sendTo) (getKeys sendTo) made
    ∧ NoDup made.*1
    ∧ rawTx
      = foldl (λ t o, addOut o t)
          {| nVersion := default_nVersion;
             vin := CTxIn_of <$> outpoints;
             vout := [];
             payload := default_payload |}
          made.*2.
Proof.
  intros Hskip. unfold createrawtransaction, mbind, reply_bind.
  destruct (RPCTypeCheck params _ false) as [[]| |]; [| done | done].
  destruct (get_array (param params 0)) as [inputs| |]; [| done | done].
  destruct (get_obj (param params 1)) as [sendTo| |]; [| done | done].
  destruct (AddInputsToRawObject default_entity inputs)
    as [rawTx1| |] eqn:Hin; [| done | done].
  apply AddInputsToRawObject_Reply in Hin as (outpoints & Hinputs & ->).
  unfold AddOutputsToRawObject, add_outputs, mbind, reply_bind.
  destruct (for_all (add_output sendTo) (getKeys sendTo) _)
    as [[rawTx2 addrs]| |] eqn:Hout; [| done | done].
  apply for_all_add_output in Hout as (made & Hall & Hnd & _ & -> & _).
  cbn [fst].
  rewrite add_sidechain_outputs_skipped; [| apply Hskip; by left].
  rewrite add_sidechain_outputs_skipped; [| apply Hskip; by right].
  intros [= <-]. exists inputs, sendTo, outpoints, made.
  by split_and!.
Qed.

(** X18 (instance): one input and two addresses; the sidechain builders
    of the sample refuse everything and are not asked. *)
Lemma created_transaction_is_inputs_and_outputs_witness :
  ∃ inputs sendTo outpoints (made : list (string * CTxOut)),
    @get_array _ SampleJson.lib (@param _ SampleJson.lib SampleRpc.tx_call 0)
    = Reply inputs
    ∧ @get_obj _ SampleJson.lib (@param _ SampleJson.lib SampleRpc.tx_call 1)
      = Reply sendTo
    ∧ Forall2 (@input_of _ SampleJson.lib) inputs outpoints
    ∧ Forall2 (@output_of _ SampleJson.lib _ SampleRpc.addresses sendTo)
        (@getKeys _ SampleJson.lib sendTo) made
    ∧ NoDup made.*1
    ∧ Sample.tx [Sample.txin 10 2 []]
        [ {| nValue := 5; scriptPubKey := [x76; xa9] |};
          {| nValue := 7; scriptPubKey := [x76; xa9] |} ] 0
      = foldl (λ t o, SampleRpc.push_back_vout o t)
          {| nVersion := 1;
             vin := (λ outpoint,
                       {| prevout := outpoint; scriptSig := [];
                          nSequence := 4294967295 |}) <$> outpoints;
             vout := [];
             payload := {| nLockTime := 0; vjoinsplit := [] |} |}
          made.*2.
Proof.
  apply (@created_transaction_is_inputs_and_outputs _ _ SampleJson.lib
           (SampleRpc.entity 1 {| nLockTime := 0; vjoinsplit := [] |})
           SampleRpc.addresses SampleRpc.no_sidechain SampleRpc.tx_call).
  - intros i [-> | ->] _; [by left | by right].
  - vm_compute. reflexivity.
Defined.

(** ** Which chain data gettxoutproof reads *)

(** X19: with a block hash argument gettxoutproof reads the block index
    map and the block on disk and nothing else: the unspent-output set,
    the transaction index and the active chain do not influence the
    reply, so a proof is built also for spent transactions and for a
    block that is not on the active chain. *)
Theorem blockhash_argument_decides_block `{HashCollab} `{MerkleCollab}
    (cs cs' : ChainState) (txids : list string) (strHash : string) :
  mapBlockIndex cs' = mapBlockIndex cs →
  (∀ pindex, ReadBlockFromDisk cs' pindex = ReadBlockFromDisk cs pindex) →
  gettxoutproof cs' txids (Some strHash) = gettxoutproof cs txids (Some strHash).
Proof.
  intros Hindex Hdisk. unfold gettxoutproof.
  destruct (parse_txids txids ∅ 0%N) as [[setTxids oneTxid]| |]; try done.
  unfold find_block_index. rewrite Hindex.
  destruct (mapBlockIndex cs !! uint256S strHash) as [pindex|]; [| done].
  unfold prove_in_block. by rewrite Hdisk.
Qed.

(** X19 (instance): the same proof from a node whose active chain is
    empty and whose unspent-output set answers for every id. *)
Lemma blockhash_argument_decides_block_witness :
  let cs := Sample.chain_with Sample.block_ABCD in
  let cs' :=
    {| mapBlockIndex := mapBlockIndex cs;
       chainActive_Height := 0;
       chainActive_at := λ _, None;
       chainActive_Contains := λ _, false;
       pcoinsTip_GetCoins := λ _, Some 5%Z;
       GetTransaction := λ _, None;
       ReadBlockFromDisk := ReadBlockFromDisk cs |} in
  @gettxoutproof Sample.hashing (@spec_merkle Sample.hashing) cs'
    [Sample.id_B] (Some Sample.hash_of_block)
  = @gettxoutproof Sample.hashing (@spec_merkle Sample.hashing) cs
      [Sample.id_B] (Some Sample.hash_of_block).
Proof.
  apply (@blockhash_argument_decides_block Sample.hashing
           (@spec_merkle Sample.hashing)); reflexivity.
Defined.

(** ** The calls to the signer, in order *)

Section SignerCalls.
Context {P : Type} `{!ScriptCollab P}.
Implicit Types (tx : CMutableTransactionBase P) (st : SignState P).
Implicit Types (view : gmap uint256 CCoins).

Lemma resolved_at_frame view tx tx' i :
  prevout <$> vin tx' !! i = prevout <$> vin tx !! i →
  resolved_at view tx' i = resolved_at view tx i.
Proof.
  intros Hp. unfold resolved_at.
  destruct (vin tx' !! i) as [txin'|], (vin tx !! i) as [txin|]; try done.
  injection Hp as Hp. by rewrite (prevPubKey_prevout view txin' txin).
Qed.

Lemma sign_cert_input_calls view keystore i st st' :
  sign_cert_input view keystore i st = Some st' →
  signCalls st'
  = signCalls st ++ (if resolved_at view (merged st) i then [i] else []).
Proof.
  unfold sign_cert_input, resolved_at.
  destruct (vin (merged st) !! i) as [txin|]; [| done].
  destruct (prevPubKey view txin) as [pubKey|].
  - rewrite (bool_decide_eq_true_2 (is_Some (Some pubKey))); [| by eexists].
    by intros [= <-].
  - rewrite (bool_decide_eq_false_2 (is_Some None)); [| by intros [? ?]].
    intros [= <-]. simpl. by rewrite app_nil_r.
Qed.

Lemma for_each_sign_cert_calls view keystore indices st st' :
  for_each (sign_cert_input view keystore) indices st = Some st' →
  signCalls st'
  = signCalls st ++ filter (λ i, resolved_at view (merged st) i) indices.
Proof.
  revert st. induction indices as [|k rest IH]; intros st; simpl.
  - intros [= <-]. by rewrite app_nil_r.
  - destruct (sign_cert_input view keystore k st) as [st1|] eqn:Hbody;
      [| done].
    intros Hrest. rewrite (IH _ Hrest), (sign_cert_input_calls _ _ _ _ _ Hbody).
    destruct (sign_cert_input_spec view keystore) as [_ Hframe].
    destruct (Hframe _ _ _ Hbody) as ((_ & _ & _ & _ & A5 & _ & _) & _).
    assert (filter (λ i, resolved_at view (merged st1) i) rest
            = filter (λ i, resolved_at view (merged st) i) rest) as ->.
    { apply list_filter_iff. intros i.
      by rewrite (resolved_at_frame view (merged st) (merged st1)). }
    rewrite filter_cons.
    destruct (resolved_at view (merged st) k) eqn:Hs.
    + rewrite decide_True by exact I. by rewrite <- app_assoc.
    + rewrite decide_False by (by intros []). by rewrite app_nil_r.
Qed.

End SignerCalls.

(** X20: the signer is called at most once per input and in input order,
    and each call gives the input its script.  signrawcertificate calls
    it for exactly the inputs whose output resolves (no input is exempt,
    whatever the number of outputs): after the step of such an input the
    certificate holds, at that input, the script the signer returned for
    the certificate before the step with that script emptied, and the
    entries pushed are those of the resolution step and of
    [VerifyScript].  signrawtransaction calls it for exactly the
    resolved inputs that the sighash type does not exempt, and merges
    the variants' scripts into the script the signer returned, or into
    the empty script for an exempt input. *)
Theorem signer_calls_in_input_order {P : Type} `{!ScriptCollab P}
    (view : gmap uint256 CCoins) (keystore : CKeyStore) :
  (∀ cert st,
     signrawcertificate_loop view keystore cert = Some st →
     signCalls st
     = filter (λ i, resolved_at view cert i) (seq 0 (length (vin cert)))
     ∧ (∀ i txin pubKey,
          vin cert !! i = Some txin → prevPubKey view txin = Some pubKey →
          let cert1 := set_scriptSig i [] (working_at cert (merged st) i) in
          working_at cert (merged st) (S i)
          = set_scriptSig i
              (snd (SignSignature keystore pubKey cert1 i SIGHASH_ALL))
              cert1)
     ∧ vErrors st
       = concat (errors_at view cert (merged st)
                   <$> seq 0 (length (vin cert))))
  ∧ (∀ nHashType txVariants tx0 st,
       signrawtransaction_loop view keystore nHashType txVariants tx0
       = Some st →
       signCalls st
       = filter (λ i, should_sign view nHashType tx0 i)
           (seq 0 (length (vin tx0)))
       ∧ (∀ i txin pubKey,
            vin tx0 !! i = Some txin → prevPubKey view txin = Some pubKey →
            let tx1 := set_scriptSig i [] (working_at tx0 (merged st) i) in
            merge_variants pubKey i txVariants
              (if should_sign view nHashType tx0 i then
                 set_scriptSig i
                   (snd (SignSignature keystore pubKey tx1 i nHashType)) tx1
               else tx1)
            = Some (working_at tx0 (merged st) (S i)))).
Proof.
  split.
  - intros cert st Hrun. split_and!.
    + by apply for_each_sign_cert_calls in Hrun.
    + intros i txin pubKey Hi Hres.
      by apply (sign_cert_step view keystore cert st i txin pubKey).
    + apply (loop_errors view _ (sign_cert_input_spec view keystore)
               (sign_cert_input_errors view keystore)).
      exact Hrun.
  - intros nHashType txVariants tx0 st Hrun. split.
    + by apply for_each_sign_tx_calls in Hrun.
    + intros i txin pubKey Hi Hres.
      by apply (sign_tx_step view keystore nHashType txVariants tx0 st i
                  txin pubKey).
Qed.

(** X20 (instance): a certificate with no output and three inputs, the
    second of which does not resolve: the signer is called for the first
    and the third, whose scripts are the ones it returned, and the one
    entry is that of the second input. *)
Lemma signer_calls_in_input_order_witness :
  let cert := Sample.cert [Sample.txin 100 0 []; Sample.txin 5 0 [];
                           Sample.txin 100 1 []] [] in
  let final := Sample.cert [Sample.txin 100 0 [Sample.OP_TRUE];
                            Sample.txin 5 0 [];
                            Sample.txin 100 1 [Sample.OP_TRUE]] [] in
  [0; 2] = filter (λ i, resolved_at Sample.view cert i) (seq 0 3)
  ∧ [not_found_entry (Sample.txin 5 0 [])]
    = concat (@errors_at _ (Sample.collab CertPayload) Sample.view cert final
                <$> seq 0 3).
Proof.
  intros cert final.
  pose proof (proj1 (@signer_calls_in_input_order _
                       (Sample.collab CertPayload) Sample.view
                       Sample.one_key)
                cert
                {| merged := final;
                   vErrors := [not_found_entry (Sample.txin 5 0 [])];
                   signCalls := [0; 2] |}) as Hthm.
  destruct Hthm as (Hcalls & _ & Herrors); [vm_compute; reflexivity |].
  split; [exact Hcalls | exact Herrors].
Defined.

(** ** A proof for a block that is not on the active chain *)

(** X21: gettxoutproof and verifytxoutproof disagree on blocks off the
    active chain.  With a block hash argument that names a known,
    readable, well-formed block, gettxoutproof builds the proof for ids
    of that block without asking whether the block is on the active
    chain; when it is not, verifytxoutproof recomputes the right root
    from that very proof and then throws "Block not found in chain". *)
Theorem proof_for_stale_block_not_verified `{HashCollab}
    (cs : ChainState) (txids : list string) (strHash : string)
    (setTxids : gset uint256) (oneTxid : uint256)
    (pblockindex : CBlockIndex) (block : CBlock) :
  parse_txids txids ∅ 0%N = Returned (setTxids, oneTxid) →
  mapBlockIndex cs !! uint256S strHash = Some pblockindex →
  ReadBlockFromDisk cs pblockindex = Some block →
  vtx block ≠ [] →
  hashMerkleRoot (header block) = BlockMerkleRoot block →
  NoDup (TxGetHash <$> vtx block) →
  (N.of_nat (length (vtx block)) < 2 ^ 32)%N →
  (∀ id, id ∈ setTxids → id ∈ (TxGetHash <$> vtx block)) →
  (∀ pindex,
     mapBlockIndex cs !! HeaderGetHash (header block) = Some pindex →
     chainActive_Contains cs pindex = false) →
  ∃ proof merkleBlock,
    @gettxoutproof _ spec_merkle cs txids (Some strHash) = Returned proof
    ∧ spec_Unserialize proof = Some merkleBlock
    ∧ @verifytxoutproof _ spec_merkle cs merkleBlock
      = Thrown RPC_INVALID_ADDRESS_OR_KEY "Block not found in chain".
Proof.
  intros Hparse Hindex Hread Hvtx Hroot Hnd Hlen Hall Hstale.
  assert (@gettxoutproof _ spec_merkle cs txids (Some strHash)
          = Returned (spec_Serialize (spec_CMerkleBlock block setTxids)))
    as Hbuilt.
  { unfold gettxoutproof, find_block_index. rewrite Hparse, Hindex.
    rewrite (@prove_in_block_spec _ spec_merkle cs setTxids pblockindex block
               Hread Hnd Hlen).
    by rewrite decide_True. }
  destruct (extract_serialized_proof block setTxids Hvtx)
    as (mb & Hmb & Hhdr & Hext).
  exists (spec_Serialize (spec_CMerkleBlock block setTxids)), mb.
  split_and!; [exact Hbuilt | exact Hmb |].
  unfold verifytxoutproof. cbn [ExtractMatches spec_merkle].
  rewrite Hext, Hhdr, Hroot, N.eqb_refl. cbn [negb].
  destruct (mapBlockIndex cs !! HeaderGetHash (header block)) as [pindex|]
    eqn:Hknown; [| done].
  by rewrite (Hstale pindex).
Qed.

(** X21 (instance): the block A, B, C, D on a node whose active chain is
    empty. *)
Lemma proof_for_stale_block_not_verified_witness :
  ∃ proof merkleBlock,
    @gettxoutproof Sample.hashing (@spec_merkle Sample.hashing)
      (SampleRpc.stale_chain Sample.block_ABCD)
      [Sample.id_B; Sample.id_D] (Some Sample.hash_of_block)
    = Returned proof
    ∧ spec_Unserialize proof = Some merkleBlock
    ∧ @verifytxoutproof Sample.hashing (@spec_merkle Sample.hashing)
        (SampleRpc.stale_chain Sample.block_ABCD) merkleBlock
      = Thrown RPC_INVALID_ADDRESS_OR_KEY "Block not found in chain".
Proof.
  apply (@proof_for_stale_block_not_verified Sample.hashing
           (SampleRpc.stale_chain Sample.block_ABCD)
           [Sample.id_B; Sample.id_D] Sample.hash_of_block
           ({[ 11%N; 13%N ]} : gset uint256) 13%N
           (Sample.index_of Sample.block_ABCD 1) Sample.block_ABCD).
  - vm_compute. reflexivity.
  - vm_compute. reflexivity.
  - vm_compute. reflexivity.
  - done.
  - vm_compute. reflexivity.
  - apply (bool_decide_unpack _). vm_compute. exact I.
  - vm_compute. reflexivity.
  - apply (bool_decide_unpack (set_Forall _ _)). vm_compute. exact I.
  - intros pindex _. reflexivity.
Defined.
